(* ===== verification/_CoqProject ===== *)
-Q . S2P
Prelude.v
Transport.v
Stats.v
PingEngine.v
Interleave.v
IcmpID.v
PingTarget.v
HopSummary.v
MtrTarget.v
Scheduler.v
Targets.v
