(* ===== verification/Prelude.v ===== *)
(** * Verification of the probing and aggregation core of network_exporter

    The program is the part of a network-reachability monitor that sends
    ICMP echo probes and MTR traces to configured targets and keeps the
    statistics of the last cycle together with cumulative counters.  Its
    sources are three Go files:

    - [src/pkg/ping/ping.go]: [Ping], [PingString] and [runPing], the
      statistical ping engine.  [runPing] issues [count] echo attempts
      through the external transport [icmp.Icmp], keeps running
      best/worst/sum/average latencies and reduces them to a [PingResult].
    - [src/target/target_ping.go]: the [PING] target.  [NewPing] starts the
      scheduling goroutine [run]; every tick takes a token of the channel
      [waitChan] (capacity [MaxConcurrentJobs]) and spawns a goroutine that
      calls [ping] and then frees the token; [ping] allocates an identifier,
      runs [ping.Ping] and publishes the result under the write lock;
      [Compute], [Name], [Host], [Ip], [Labels] read under the read lock;
      [Stop] closes the stop channel and waits on the wait group.
    - [src/target/target_mtr.go]: the [MTR] target, with the same life
      cycle but no token pool; [mtr] merges the hops of every trace into
      the cumulative [HopSummaryMap], keyed by [strconv.Itoa(TTL) + "_" +
      AddressTo].

    ** Files of the development

    - [Prelude] (this file): 64-bit integer arithmetic of Go ([wrap64],
      truncating division), [time.Duration] constants, sums, minima and
      maxima of lists of integers, the tactics and hint databases shared by
      the other files.
    - [Transport]: the contract of the external echo transport
      ([icmp.Icmp], [common.IsEqualIP]) as the class [EchoTransport] with
      its laws [EchoTransportOk], and the scripted transport used to run
      the engine on concrete inputs.
    - [Stats]: the dispersion statistics of [pkg/common]
      ([TimeSquaredDeviation], [TimeUncorrectedDeviation],
      [TimeCorrectedDeviation], [TimeRange]); that code is not under
      [src/], so it is modelled from the specification.  The conversion
      [time.Duration(...)] that [runPing] applies to them is
      [Duration_of_trunc]; the file ends with the bounds under which it
      changes nothing.
    - [PingEngine]: [PingOptions], [PingReturn], [PingResult], the loop body
      [runPing_step], the loop [runPing_loop], [runPing], [Ping] and the
      part of [PingString] that selects what is printed; the test of the
      error that ends both is [return_checked].  The loop is a
      structural recursion on the number of attempts; every call of the
      transport and of [time.Sleep] is recorded in an event log.
    - [Interleave]: several calls of [ping.Ping] in flight on one network:
      each [cycle] has its own loop variables, [attempt] is one iteration
      of its loop on the shared world, and a schedule ([attempts]) names
      the cycle of every turn.
    - [IcmpID]: the identifier allocator [common.IcmpID] (not under
      [src/], modelled from the specification) as a counter over a 16-bit
      space.
    - [PingTarget]: the [PING] struct with the heap of [PingResult]
      objects it points into, [NewPing], the method [ping], [Compute] and
      the accessors.  Results live in a heap because [Compute] returns the
      pointer [t.result] and [ping] mutates the object behind it.
    - [HopSummary]: the hop key and the merge loop of [mtr] over the
      contents of the summary map, a [gmap string IcmpSummary.t].
    - [MtrTarget]: the [MTR] struct with a heap of results and a heap of
      map objects (all results of a target share one Go map), [NewMTR],
      the method [mtr], [Compute] and the accessors; the collaborator
      [mtr.Mtr] is the class [HopTrace].
    - [Scheduler]: the goroutines of [run] and [Stop], written once over
      the interface [Flavor] (the interval, the capacity of the token
      channel if any, the three atomic phases of a cycle).  A state
      [sched] holds the program counter of the loop, the stop channel, the
      wait group, the ticker, the token channel, the program counters of
      the cycle goroutines and of the callers of [Stop], and a panic flag;
      [exec] gives the effect of an [action], [step] the same relation by
      rules, [reachable] the states a target can be in.  The statements
      of [run] and [Stop] are steps of their own: a case of a [select],
      the send of the token, the [go] statement, [tick.Stop()],
      [wg.Done()], [close(t.stop)], the return of [wg.Wait()].
    - [Targets]: [PING] and [MTR] as instances of [Flavor], the proofs of
      the laws [FlavorOk] the scheduler assumes of a target, and runs of
      targets with scripted collaborators.

    Each method [ping] and [mtr] is split at the points where other
    goroutines can run: the call of the allocator, the measurement, and
    the critical section, which the lock makes atomic.  The scheduler
    interleaves these phases; [Targets.ping_cycle_result] and
    [Targets.mtr_cycle_result] show that the three phases compose to the
    method.

    ** What the theorems show

    - Engine ([PingEngine]): the running statistics kept by the loop equal
      the reference statistics of the recorded samples (sum, count,
      maximum, truncated average); the best time is the smallest sample
      since the last sample of zero nanoseconds, hence the smallest sample
      exactly when no sample is zero or the last one is; the drop rate is
      exactly (N-K)/N; sequence numbers advance only on success; the loop
      sleeps only after a success; when [count * timeout] fits no 64-bit
      operation of the loop overflows and the standard deviations and the
      range are converted exactly; the squared deviation, a time squared,
      is converted exactly only while the square of the worst time fits,
      and is otherwise the smallest integer; the call never returns an
      error; every result is well formed ([PingResult_wf]: counters,
      success flag, ordered and bounded times, every integer field within
      64 bits).
    - Concurrent cycles ([Interleave]): under every schedule of the echo
      requests of the cycles in flight, each cycle returns the specified
      result of the samples it recorded itself, well formed, its samples
      are the accepted replies among those it received, its requests
      carry its own identifier and sequence numbers, and it has left its
      loop after as many turns as it has attempts; a cycle scheduled
      alone is [Ping].
    - Targets ([PingTarget], [MtrTarget]): a cycle of a well-formed target
      does not panic and publishes a new result; the counters of the PING
      result that [Compute] exposes are those of the last cycle only; the
      object a reader got from [Compute] is modified by the next cycle;
      all results of an MTR target share one summary map, which holds the
      hops of all traces merged; a nil result of the collaborator panics;
      the identifiers of up to 2^16 successive cycles differ, and the
      identifier repeats after exactly 2^16 cycles.
    - Hop summary ([HopSummary]): the key is injective; after a merge the
      entry of every key is determined by the old entry and the hops of
      that key; absent keys keep their entry; keys are never removed;
      totals are exact and do not decrease unless they overflow; merging
      in either order gives equivalent maps.
    - Scheduler ([Scheduler], applied in [Targets]): invariants of the
      control state and of the token channel, by induction on [reachable];
      at most [MaxConcurrentJobs] ping cycles run at once, the channel
      holding one token for each and one more between the send and the
      [go] statement, and no bound holds without a token channel; [Stop]
      returns only after the loop has exited, and no cycle is started
      after that; cycles in flight publish after [Stop] has returned; a
      second [Stop] panics, and so does an interval that is not positive;
      a well-formed target (for [MTR]: with a collaborator that never
      returns nil) panics for no other reason; a loop blocked on a full
      token channel does not see the stop signal; every cycle goroutine
      terminates within four steps of its own; and [Stop] can always
      return within nine steps of one cycle, of the loop and of the
      caller.

    ** Abstractions, bounds and what is not modelled

    - [int] and [time.Duration] are 64-bit: every addition and
      multiplication of the engine is written with [wrap64]; the theorems
      that need it assume that [count * timeout] fits in 63 bits and prove
      that no wrap-around happens.
    - [float64] is modelled by exact rationals ([Qc]) with an explicit NaN
      for 0/0; the rounding of binary64 is not modelled.  Square roots are
      taken after truncation to nanoseconds ([Z.sqrt]).  The conversion
      of a [float64] outside the 64-bit range to [time.Duration] is left
      to the implementation by Go; the model takes the value of amd64,
      the smallest integer, and no theorem but the example that exhibits
      it depends on the choice.
    - The transport, IP comparison, MTR path discovery, logging and JSON
      marshalling are external: the first two are parameters of the model,
      the others are left out.  The theorems of the engine that bound the
      latencies assume the law [Icmp_elapsed] of the transport, that a
      successful reply took between zero and the timeout; [runPing] does
      not check it.  The allocator is not under [src/]: its period 2^16
      and its start are read from the specification.
    - The measurement of a cycle ([ping.Ping], [mtr.Mtr]) is one step of
      the scheduler.  The theorems of the scheduler use of a measurement
      only that it keeps the target well formed and returns a valid
      datum.  For [ping.Ping] the finer model is [Interleave], where the
      echo requests of overlapping cycles alternate in every possible
      order and each cycle still meets the specification of the engine; a
      call of [icmp.Icmp] itself stays one step.  [mtr.Mtr] is a single
      call of a collaborator that is not under [src/].
    - Readers are not goroutines of the scheduler: [Compute] and the
      accessors are functions of the target, and the read lock is not
      modelled; the write lock is the atomicity of the critical section.
    - Loops need no fuel: [runPing] makes exactly [Z.to_nat count]
      iterations and the merge of [mtr] is a fold over the hops.  The
      loop of [run] does not terminate by itself; it is a step relation,
      and what is proved of it are invariants of the reachable states and
      the existence of runs.
    - Time is not measured in the scheduler: the ticker and the startup
      timer are actions that are enabled whenever the code could receive
      from them, so every interleaving of a real execution is a run of
      the model, and durations (how long a cycle lasts, whether cycles of
      one target overlap in practice) are not stated.  Fairness is not
      assumed: progress is stated as the existence of a bounded run.
    - A panic ends the process: no action is enabled after one.  The
      package constant [MaxConcurrentJobs] is declared outside [src/] and
      is a parameter. *)

From Stdlib Require Export ZArith Lia.
From stdpp Require Export base tactics option list numbers strings gmap relations.

#[global] Open Scope Z_scope.

(** ** 64-bit integers of Go *)

Definition min_int64 : Z := - 2 ^ 63.
Definition max_int64 : Z := 2 ^ 63 - 1.

(** [int64 z]: [z] is representable as a Go [int64] (and as an [int] on the
    64-bit platforms the exporter runs on). *)
Definition int64 (z : Z) : Prop := min_int64 ≤ z ≤ max_int64.

#[global] Instance int64_dec z : Decision (int64 z).
Proof. unfold int64. apply _. Defined.

(** Two's complement wrap-around of an ideal integer to 64 bits. *)
Definition wrap64 (z : Z) : Z := (z + 2 ^ 63) `mod` 2 ^ 64 - 2 ^ 63.

Declare Scope go_scope.
Delimit Scope go_scope with go.
Notation "x ⊕ y" := (wrap64 (x + y)) (at level 50, left associativity) : go_scope.
Notation "x ⊖ y" := (wrap64 (x - y)) (at level 50, left associativity) : go_scope.
Notation "x ⊗ y" := (wrap64 (x * y)) (at level 40, left associativity) : go_scope.
(** Go's [/] on integers truncates toward zero. *)
Notation "x ⊘ y" := (Z.quot x y) (at level 40, left associativity) : go_scope.
#[global] Open Scope go_scope.

(** ** [time.Duration]: an [int64] count of nanoseconds *)

Abbreviation Duration := Z (only parsing).
Definition Nanosecond : Duration := 1.
Definition Microsecond : Duration := 1000.
Definition Millisecond : Duration := 1000000.
Definition Second : Duration := 1000000000.

(** ** Pointers: addresses of heap objects; [None] is [nil] *)

Abbreviation loc := positive (only parsing).

(** ** Aggregates of lists of integers *)

Definition sumZ (l : list Z) : Z := foldr Z.add 0 l.

(** Maximum and minimum with a default for the empty list. *)
Definition maxZ (d : Z) (l : list Z) : Z :=
  match l with [] => d | x :: l' => foldr Z.max x l' end.
Definition minZ (d : Z) (l : list Z) : Z :=
  match l with [] => d | x :: l' => foldr Z.min x l' end.

(** ** Tactics *)

(** Unfold the 64-bit bounds so that [lia] sees numerals. *)
Ltac unfold_int64 :=
  unfold int64, min_int64, max_int64, wrap64 in *.

Ltac solve_int64 := unfold_int64; lia.

(** Case analysis on the boolean tests of guards. *)
Ltac case_test :=
  repeat match goal with
  | |- context [bool_decide ?P] => destruct (bool_decide_reflect P)
  | |- context [Z.ltb ?a ?b] => destruct (Z.ltb_spec a b)
  | |- context [Z.leb ?a ?b] => destruct (Z.leb_spec a b)
  | |- context [Z.eqb ?a ?b] => destruct (Z.eqb_spec a b)
  end.

Create HintDb go discriminated.
Create Rewrite HintDb go_rw.

(** ** Lemmas on 64-bit arithmetic *)

Section int64.
Implicit Types x y z : Z.

Lemma wrap64_int64 z : int64 (wrap64 z).
Proof.
  unfold_int64. pose proof (Z.mod_pos_bound (z + 2 ^ 63) (2 ^ 64)). lia.
Qed.

Lemma wrap64_id z : int64 z → wrap64 z = z.
Proof. intros Hz. unfold_int64. rewrite Z.mod_small; lia. Qed.

Lemma wrap64_idemp z : wrap64 (wrap64 z) = wrap64 z.
Proof. apply wrap64_id, wrap64_int64. Qed.

(** Wrap-around is the identity exactly on the representable integers. *)
Lemma wrap64_fix_iff z : wrap64 z = z ↔ int64 z.
Proof.
  split; [|apply wrap64_id]. intros <-. apply wrap64_int64.
Qed.

(** Wrap-around changes an integer by a multiple of 2^64. *)
Lemma wrap64_congr z : ∃ k, wrap64 z = z + k * 2 ^ 64.
Proof.
  exists (- ((z + 2 ^ 63) `div` 2 ^ 64)). unfold wrap64.
  pose proof (Z.div_mod (z + 2 ^ 63) (2 ^ 64)). lia.
Qed.

Lemma int64_0 : int64 0.
Proof. solve_int64. Qed.

Lemma int64_bounds x lo hi :
  lo ≤ x ≤ hi → int64 lo → int64 hi → int64 x.
Proof. solve_int64. Qed.

Lemma add64_exact x y : int64 (x + y) → x ⊕ y = x + y.
Proof. apply wrap64_id. Qed.

Lemma sub64_exact x y : int64 (x - y) → x ⊖ y = x - y.
Proof. apply wrap64_id. Qed.

Lemma mul64_exact x y : int64 (x * y) → x ⊗ y = x * y.
Proof. apply wrap64_id. Qed.

(** The largest [int64] plus one wraps to the smallest. *)
Lemma wrap64_overflow : max_int64 ⊕ 1 = min_int64.
Proof. reflexivity. Qed.

(** Wrapped additions accumulate: only the last wrap-around counts. *)
Lemma wrap64_add_l x y : wrap64 x ⊕ y = x ⊕ y.
Proof.
  unfold wrap64. f_equal.
  replace ((x + 2 ^ 63) `mod` 2 ^ 64 - 2 ^ 63 + y + 2 ^ 63)
    with ((x + 2 ^ 63) `mod` 2 ^ 64 + y) by lia.
  rewrite Zplus_mod_idemp_l. f_equal. lia.
Qed.

End int64.

#[export] Hint Resolve wrap64_int64 int64_0 : go.
#[export] Hint Rewrite wrap64_idemp : go_rw.

(** ** Truncating division *)

Section quot.
Implicit Types x y : Z.

Lemma quot_nonneg x y : 0 ≤ x → 0 < y → 0 ≤ x ⊘ y ≤ x.
Proof.
  intros Hx Hy. rewrite Z.quot_div_nonneg by lia. split.
  - apply Z.div_pos; lia.
  - apply Z.div_le_upper_bound; nia.
Qed.

(** Dividing by a unit and multiplying back truncates to a multiple of it. *)
Lemma quot_mul_trunc x u : 0 ≤ x → 0 < u → (x ⊘ u) * u = x - x `mod` u.
Proof.
  intros Hx Hu. rewrite Z.quot_div_nonneg by lia.
  rewrite (Z.mul_comm _ u). pose proof (Z.div_mod x u ltac:(lia)). lia.
Qed.

Lemma quot_mul_le x u : 0 ≤ x → 0 < u → 0 ≤ (x ⊘ u) * u ≤ x.
Proof.
  intros Hx Hu. rewrite quot_mul_trunc by done.
  pose proof (Z.mod_pos_bound x u Hu). pose proof (Z.mod_le x u Hx Hu). lia.
Qed.

(** The mean of [n] copies of [x], taken after a division by [u], is [x]
    divided by [u]. *)
Lemma quot_quot_mul n x u : 0 < n → 0 ≤ x → 0 < u → (n * x ⊘ u) ⊘ n = x ⊘ u.
Proof.
  intros Hn Hx Hu. assert (0 ≤ n * x) by nia.
  rewrite (Z.quot_div_nonneg (n * x)), (Z.quot_div_nonneg x) by lia.
  rewrite Z.quot_div_nonneg by (try apply Z.div_pos; lia).
  rewrite Z.div_div, (Z.mul_comm u n), <-Z.div_div by lia.
  by rewrite (Z.mul_comm n x), Z.div_mul by lia.
Qed.

End quot.

(** ** Lemmas on sums, maxima and minima *)

Section aggregates.
Implicit Types (l : list Z) (x d : Z).

Lemma sumZ_nil : sumZ [] = 0.
Proof. reflexivity. Qed.

Lemma sumZ_cons x l : sumZ (x :: l) = x + sumZ l.
Proof. reflexivity. Qed.

Lemma sumZ_app l1 l2 : sumZ (l1 ++ l2) = sumZ l1 + sumZ l2.
Proof.
  induction l1 as [|x l1 IH]; [done|].
  rewrite <-app_comm_cons, !sumZ_cons, IH. lia.
Qed.

Lemma sumZ_snoc l x : sumZ (l ++ [x]) = sumZ l + x.
Proof. rewrite sumZ_app, sumZ_cons, sumZ_nil. lia. Qed.

(** A sum of terms between [lo] and [hi] lies between [n * lo] and [n * hi]. *)
Lemma sumZ_bounds lo hi l :
  Forall (λ x, lo ≤ x ≤ hi) l →
  Z.of_nat (length l) * lo ≤ sumZ l ≤ Z.of_nat (length l) * hi.
Proof.
  induction 1 as [|x l Hx _ IH]; [done|].
  rewrite sumZ_cons. cbn [length]. lia.
Qed.

Lemma sumZ_nonneg l : Forall (λ x, 0 ≤ x) l → 0 ≤ sumZ l.
Proof. induction 1 as [|x l Hx _ IH]; [done|]. rewrite sumZ_cons. lia. Qed.

Lemma sumZ_replicate n x : sumZ (replicate n x) = Z.of_nat n * x.
Proof.
  induction n as [|n IH]; [done|].
  cbn [replicate]. rewrite sumZ_cons, IH. lia.
Qed.

(** A sum does not depend on the order of its terms. *)
#[export] Instance sumZ_perm : Proper ((≡ₚ) ==> (=)) sumZ.
Proof.
  induction 1 as [|x l l' _ IH|x y l|l1 l2 l3 _ IH1 _ IH2];
    rewrite ?sumZ_cons; lia.
Qed.

Lemma maxZ_cons d x l : maxZ d (x :: l) = foldr Z.max x l.
Proof. reflexivity. Qed.

Lemma minZ_cons d x l : minZ d (x :: l) = foldr Z.min x l.
Proof. reflexivity. Qed.

Lemma foldr_max_snoc y l x : foldr Z.max y (l ++ [x]) = Z.max (foldr Z.max y l) x.
Proof. induction l as [|z l IH]; cbn [foldr app]; [|rewrite IH]; lia. Qed.

Lemma foldr_min_snoc y l x : foldr Z.min y (l ++ [x]) = Z.min (foldr Z.min y l) x.
Proof. induction l as [|z l IH]; cbn [foldr app]; [|rewrite IH]; lia. Qed.

(** Appending a sample to a non-empty list updates the maximum and the
    minimum by one comparison: this is what a running maximum computes. *)
Lemma maxZ_snoc d l x : l ≠ [] → maxZ d (l ++ [x]) = Z.max (maxZ d l) x.
Proof. destruct l as [|y l]; [done|]. intros _. apply foldr_max_snoc. Qed.

Lemma minZ_snoc d l x : l ≠ [] → minZ d (l ++ [x]) = Z.min (minZ d l) x.
Proof. destruct l as [|y l]; [done|]. intros _. apply foldr_min_snoc. Qed.

Lemma foldr_max_ge y l x : x = y ∨ x ∈ l → x ≤ foldr Z.max y l.
Proof.
  induction l as [|z l IH]; cbn [foldr].
  - intros [->|?%elem_of_nil]; [lia|done].
  - rewrite elem_of_cons. intros [Hx|[Hx|Hin]]; [..|pose proof (IH (or_intror Hin))];
      [pose proof (IH (or_introl Hx))|..]; lia.
Qed.

Lemma foldr_min_le y l x : x = y ∨ x ∈ l → foldr Z.min y l ≤ x.
Proof.
  induction l as [|z l IH]; cbn [foldr].
  - intros [->|?%elem_of_nil]; [lia|done].
  - rewrite elem_of_cons. intros [Hx|[Hx|Hin]]; [..|pose proof (IH (or_intror Hin))];
      [pose proof (IH (or_introl Hx))|..]; lia.
Qed.

Lemma maxZ_ge d l x : x ∈ l → x ≤ maxZ d l.
Proof.
  destruct l as [|y l]; [by intros ?%elem_of_nil|].
  rewrite elem_of_cons. apply foldr_max_ge.
Qed.

Lemma minZ_le d l x : x ∈ l → minZ d l ≤ x.
Proof.
  destruct l as [|y l]; [by intros ?%elem_of_nil|].
  rewrite elem_of_cons. apply foldr_min_le.
Qed.

Lemma foldr_max_elem y l : foldr Z.max y l = y ∨ foldr Z.max y l ∈ l.
Proof.
  induction l as [|z l IH]; cbn [foldr]; [by left|].
  destruct (Z.max_spec z (foldr Z.max y l)) as [[_ ->]|[_ ->]].
  - destruct IH as [->|?]; [by left|]. right. by apply list_elem_of_further.
  - right. apply list_elem_of_here.
Qed.

Lemma foldr_min_elem y l : foldr Z.min y l = y ∨ foldr Z.min y l ∈ l.
Proof.
  induction l as [|z l IH]; cbn [foldr]; [by left|].
  destruct (Z.min_spec z (foldr Z.min y l)) as [[_ ->]|[_ ->]].
  - right. apply list_elem_of_here.
  - destruct IH as [->|?]; [by left|]. right. by apply list_elem_of_further.
Qed.

(** The maximum and the minimum of a non-empty list are elements of it. *)
Lemma maxZ_elem d l : l ≠ [] → maxZ d l ∈ l.
Proof.
  destruct l as [|y l]; [done|]. intros _. rewrite maxZ_cons, elem_of_cons.
  apply foldr_max_elem.
Qed.

Lemma minZ_elem d l : l ≠ [] → minZ d l ∈ l.
Proof.
  destruct l as [|y l]; [done|]. intros _. rewrite minZ_cons, elem_of_cons.
  apply foldr_min_elem.
Qed.

Lemma minZ_le_maxZ d l : minZ d l ≤ maxZ d l.
Proof.
  destruct l as [|y l]; [done|].
  etrans; [apply (minZ_le d (y :: l) y)|apply (maxZ_ge d (y :: l) y)];
    apply list_elem_of_here.
Qed.

Lemma maxZ_replicate d n x : maxZ d (replicate (S n) x) = x.
Proof.
  change (foldr Z.max x (replicate n x) = x). induction n as [|n IH]; [done|].
  cbn [replicate foldr]. rewrite IH. lia.
Qed.

Lemma minZ_replicate d n x : minZ d (replicate (S n) x) = x.
Proof.
  change (foldr Z.min x (replicate n x) = x). induction n as [|n IH]; [done|].
  cbn [replicate foldr]. rewrite IH. lia.
Qed.

End aggregates.

(** ** Lemmas on filters *)

Section filter.
Context {A : Type} (P : A → Prop) `{!∀ x, Decision (P x)}.
Implicit Types l : list A.

Lemma filter_none l : Forall (λ x, ¬ P x) l → filter P l = [].
Proof.
  induction 1 as [|x l Hx _ IH]; [done|]. by rewrite filter_cons_False.
Qed.

Lemma filter_all l : Forall P l → filter P l = l.
Proof.
  induction 1 as [|x l Hx _ IH]; [done|]. rewrite filter_cons_True by done. by rewrite IH.
Qed.

Lemma filter_snoc l x :
  filter P (l ++ [x]) = filter P l ++ (if decide (P x) then [x] else []).
Proof.
  rewrite filter_app. f_equal.
Qed.

End filter.

#[export] Hint Rewrite sumZ_nil sumZ_cons sumZ_snoc sumZ_app : go_rw.
#[export] Hint Resolve maxZ_ge minZ_le minZ_le_maxZ : go.
