(* ===== verification/Transport.v ===== *)
(** * Transport: the contract of the external echo transport

    [runPing] reaches the network only through [icmp.Icmp] and compares
    addresses only through [common.IsEqualIP].  Neither is part of the
    modelled sources, so both are operations of the class [EchoTransport];
    what the engine may assume of them is the class [EchoTransportOk].
    The scripted transport at the end answers from a list of prepared
    replies; it is the instance on which the engine is run on concrete
    inputs. *)

From S2P Require Import Prelude.

(** Go's [error] values: only the message matters here. *)
Definition error : Type := string.

(** [common.IcmpReturn]: the reply to one echo request. *)
Record IcmpReturn : Type := mkIcmpReturn {
  icmp_Success : bool;
  icmp_Addr : string;
  icmp_Elapsed : Duration;
}.

#[global] Instance IcmpReturn_eq_dec : EqDecision IcmpReturn.
Proof. solve_decision. Defined.

(** The arguments of one call [icmp.Icmp(ip, srcAddr, ttl, pid, timeout, seq)]. *)
Record IcmpCall : Type := mkIcmpCall {
  call_ip : string;
  call_srcAddr : string;
  call_ttl : Z;
  call_pid : Z;
  call_timeout : Duration;
  call_seq : Z;
}.

#[global] Instance IcmpCall_eq_dec : EqDecision IcmpCall.
Proof. solve_decision. Defined.

(** The outside world as the engine sees it: a state [world] that every
    call of [Icmp] advances, the reply and error of the call, the address
    comparison and the package constant [defaultTTL]. *)
Class EchoTransport : Type := {
  world : Type;
  Icmp : IcmpCall → world → IcmpReturn * option error * world;
  IsEqualIP : string → string → bool;
  defaultTTL : Z;
}.

(** What the specification promises of the transport: on a set of worlds
    closed under calls, a successful reply took a non-negative time no
    longer than the timeout of the call. *)
Class EchoTransportOk `{EchoTransport} : Type := {
  world_ok : world → Prop;
  Icmp_world_ok c w : world_ok w → world_ok (Icmp c w).2;
  Icmp_elapsed c w :
    world_ok w →
    (Icmp c w).1.2 = None →
    icmp_Success (Icmp c w).1.1 = true →
    0 ≤ icmp_Elapsed (Icmp c w).1.1 ≤ call_timeout c;
}.

(** [accepted ip r]: the reply [r] counts as a success for destination
    [ip].  This is the negation of the guard of [runPing] that skips an
    attempt. *)
Definition accepted `{EchoTransport} (ip : string) (r : IcmpReturn * option error) : bool :=
  negb (bool_decide (r.2 ≠ None) || negb (icmp_Success r.1) || negb (IsEqualIP ip (icmp_Addr r.1))).

(** ** The scripted transport *)

(** A reply that reports a timeout. *)
Definition timeout_reply : IcmpReturn * option error :=
  (mkIcmpReturn false "" 0, Some "timeout"%string).

(** One call against a script: the next prepared reply is consumed; a
    reply that would take longer than the timeout of the call, and a call
    after the script has run out, report a timeout. *)
Definition script_Icmp (c : IcmpCall) (w : list (IcmpReturn * option error)) :
    IcmpReturn * option error * list (IcmpReturn * option error) :=
  match w with
  | [] => (timeout_reply, [])
  | r :: w' =>
      if bool_decide (icmp_Elapsed r.1 ≤ call_timeout c) then (r, w') else (timeout_reply, w')
  end.

#[global] Instance script_transport : EchoTransport := {|
  world := list (IcmpReturn * option error);
  Icmp := script_Icmp;
  IsEqualIP := String.eqb;
  defaultTTL := 128;
|}.

(** A successful prepared reply from [addr] after [d] nanoseconds, and a
    lost one. *)
Definition ok_reply (addr : string) (d : Duration) : IcmpReturn * option error :=
  (mkIcmpReturn true addr d, None).
Definition lost_reply : IcmpReturn * option error := timeout_reply.

Section script.
Implicit Types (w : list (IcmpReturn * option error)) (c : IcmpCall).

Lemma script_Icmp_nil c : script_Icmp c [] = (timeout_reply, []).
Proof. reflexivity. Qed.

Lemma script_Icmp_world c w : (script_Icmp c w).2 = tail w.
Proof. destruct w as [|r w]; [done|]. simpl. by case_bool_decide. Qed.

Lemma script_Icmp_reply c r w :
  icmp_Elapsed r.1 ≤ call_timeout c → script_Icmp c (r :: w) = (r, w).
Proof. intros. simpl. by rewrite bool_decide_eq_true_2. Qed.

Lemma script_Icmp_late c r w :
  call_timeout c < icmp_Elapsed r.1 → script_Icmp c (r :: w) = (timeout_reply, w).
Proof. intros. simpl. rewrite bool_decide_eq_false_2; [done|lia]. Qed.

(** A script is well formed when no prepared reply has a negative time. *)
Definition script_ok w : Prop := Forall (λ r, 0 ≤ icmp_Elapsed r.1) w.

#[global] Instance script_ok_dec w : Decision (script_ok w).
Proof. unfold script_ok. apply _. Defined.

Lemma script_ok_tail w : script_ok w → script_ok (tail w).
Proof. destruct 1; [constructor|done]. Qed.

Lemma script_elapsed c w :
  script_ok w →
  (script_Icmp c w).1.2 = None →
  0 ≤ icmp_Elapsed (script_Icmp c w).1.1 ≤ call_timeout c.
Proof.
  destruct 1 as [|r w Hr _]; [done|]. simpl.
  case_bool_decide; simpl; [lia|done].
Qed.

End script.

(** The scripted transport keeps the promises of the specification. *)
#[global] Program Instance script_transport_ok : EchoTransportOk := {|
  world_ok := script_ok;
|}.
Next Obligation.
  intros c w Hw. change (script_ok (script_Icmp c w).2).
  rewrite script_Icmp_world. by apply script_ok_tail.
Qed.
Next Obligation. intros c w Hw Herr _. by apply script_elapsed. Qed.
