(* ===== verification/Stats.v ===== *)
(** * Stats: floating-point values and the dispersion statistics

    [runPing] divides two integers converted to [float64] and passes its
    samples to four functions of [pkg/common].  This file holds the model
    of the [float64] values that arise (exact rationals, infinities and
    NaN; rounding and signed zeros are not modelled) and the statistics,
    which are modelled from the specification because [pkg/common] is not
    among the sources: population variance, its square root, the
    Bessel-corrected square root and the range.  A statistic of no sample
    is zero, and the corrected deviation of fewer than two samples is
    zero.

    [runPing] converts each statistic with [time.Duration(...)].  The
    conversion has two parts: the truncation toward zero of the real
    value, which is folded into the four functions below (they return an
    unbounded integer, because the square root of a rational is kept only
    through its integer part), and the fit into 64 bits,
    [Duration_of_trunc], which [build_result] applies.  The bounds at the
    end of the file say when the second part changes nothing. *)

From Stdlib Require Import QArith Qcanon Qround Psatz.
From S2P Require Import Prelude.

#[local] Open Scope Z_scope.

(** ** [float64] *)

Inductive float64 : Type :=
| FNaN
| FInf (neg : bool)
| FVal (q : Qc).

#[global] Instance float64_eq_dec : EqDecision float64.
Proof. solve_decision. Defined.

(** [float64(n)] for an integer [n]. *)
Definition float64_of_int (n : Z) : float64 := FVal (Qc_of_Z n).

Definition Qc_neg (q : Qc) : bool := bool_decide (q < 0)%Qc.

(** IEEE division on the values above: 0/0 and Inf/Inf are NaN, a non-zero
    finite value over zero is an infinity, a finite value over an infinity
    is zero. *)
Definition float64_div (a b : float64) : float64 :=
  match a, b with
  | FNaN, _ | _, FNaN => FNaN
  | FInf _, FInf _ => FNaN
  | FInf s, FVal y => FInf (xorb s (Qc_neg y))
  | FVal _, FInf _ => FVal 0%Qc
  | FVal x, FVal y =>
      if decide (y = 0%Qc)
      then if decide (x = 0%Qc) then FNaN else FInf (Qc_neg x)
      else FVal (x / y)%Qc
  end.

(** The quotient of two integers as [runPing] computes it. *)
Definition int_ratio (a b : Z) : float64 :=
  float64_div (float64_of_int a) (float64_of_int b).

(** ** Conversion of a real to [time.Duration] *)

(** [time.Duration(x)] truncates toward zero. *)
Definition trunc_Qc (q : Qc) : Z :=
  if Qc_neg q then Qceiling q else Qfloor q.

(** [time.Duration(x)] for a [float64] whose truncation toward zero is
    [z].  When [z] is not a 64-bit integer Go leaves the value of the
    conversion to the implementation; the one modelled is that of amd64,
    whose conversion instruction returns the smallest 64-bit integer. *)
Definition Duration_of_trunc (z : Z) : Duration :=
  if bool_decide (int64 z) then z else min_int64.

(** The truncated square root of a non-negative rational: the integer [r]
    with [r * r ≤ q < (r + 1) * (r + 1)]. *)
Definition sqrt_trunc (q : Qc) : Z := Z.sqrt (Qfloor q).

(** ** The statistics of a list of samples *)

Definition mean (l : list Z) : Qc :=
  (Qc_of_Z (sumZ l) / Qc_of_Z (Z.of_nat (length l)))%Qc.

(** The sum of the squared deviations from the mean. *)
Definition sq_dev_sum (l : list Z) : Qc :=
  foldr (λ x acc, ((Qc_of_Z x - mean l) * (Qc_of_Z x - mean l) + acc)%Qc) 0%Qc l.

(** Population variance: the mean of the squared deviations. *)
Definition variance (l : list Z) : Qc :=
  (sq_dev_sum l / Qc_of_Z (Z.of_nat (length l)))%Qc.

(** Sample variance: Bessel's correction divides by [N - 1]. *)
Definition corrected_variance (l : list Z) : Qc :=
  (sq_dev_sum l / Qc_of_Z (Z.of_nat (length l) - 1))%Qc.

(** [common.TimeSquaredDeviation(l)], truncated toward zero. *)
Definition TimeSquaredDeviation (l : list Duration) : Duration :=
  match l with [] => 0 | _ => trunc_Qc (variance l) end.

(** [common.TimeUncorrectedDeviation(l)], truncated toward zero. *)
Definition TimeUncorrectedDeviation (l : list Duration) : Duration :=
  match l with [] => 0 | _ => sqrt_trunc (variance l) end.

(** [common.TimeCorrectedDeviation(l)], truncated toward zero. *)
Definition TimeCorrectedDeviation (l : list Duration) : Duration :=
  match l with [] | [_] => 0 | _ => sqrt_trunc (corrected_variance l) end.

(** [common.TimeRange(l)], truncated toward zero. *)
Definition TimeRange (l : list Duration) : Duration :=
  match l with [] => 0 | _ => maxZ 0 l - minZ 0 l end.

(** ** Lemmas on [float64] *)

Section float64.
Implicit Types a b n : Z.

Lemma Qc_of_Z_eq_0 n : Qc_of_Z n = 0%Qc ↔ n = 0.
Proof. rewrite <-Z2Qc_inj_0. apply Z2Qc_inj_iff. Qed.

(** Proving an equation between closed rationals by evaluation. *)
Lemma Qc_eq_by_compute (x y : Qc) : bool_decide (x = y) = true → x = y.
Proof. apply bool_decide_eq_true_1. Qed.

Lemma int_ratio_0_0 : int_ratio 0 0 = FNaN.
Proof. reflexivity. Qed.

(** A non-zero integer divided by zero is the infinity of its sign. *)
Lemma int_ratio_zero_den a : a ≠ 0 → int_ratio a 0 = FInf (bool_decide (a < 0)).
Proof.
  intros Ha. unfold int_ratio, float64_of_int, float64_div, Qc_neg.
  rewrite decide_True by by apply Qc_of_Z_eq_0.
  rewrite decide_False by by rewrite Qc_of_Z_eq_0.
  f_equal. apply bool_decide_ext. rewrite <-Z2Qc_inj_0. symmetry. apply Z2Qc_inj_lt.
Qed.

Lemma int_ratio_nonzero a b :
  b ≠ 0 → int_ratio a b = FVal (Qc_of_Z a / Qc_of_Z b)%Qc.
Proof.
  intros Hb. unfold int_ratio, float64_of_int, float64_div.
  destruct (decide (Qc_of_Z b = 0%Qc)) as [?%Qc_of_Z_eq_0|]; done.
Qed.

Lemma int_ratio_self b : b ≠ 0 → int_ratio b b = FVal 1%Qc.
Proof.
  intros Hb. rewrite int_ratio_nonzero by done. f_equal.
  apply Qcmult_inv_r. by rewrite Qc_of_Z_eq_0.
Qed.

Lemma int_ratio_0_l b : b ≠ 0 → int_ratio 0 b = FVal 0%Qc.
Proof.
  intros Hb. rewrite int_ratio_nonzero by done. f_equal.
  unfold Qcdiv. rewrite Z2Qc_inj_0. apply Qcmult_0_l.
Qed.

(** A ratio of a part to a positive whole lies between 0 and 1. *)
Lemma Qc_ratio_bounds a b :
  0 ≤ a ≤ b → 0 < b →
  (0 ≤ Qc_of_Z a / Qc_of_Z b)%Qc ∧ (Qc_of_Z a / Qc_of_Z b ≤ 1)%Qc.
Proof.
  intros [Ha Hab] Hb.
  assert (0 < Qc_of_Z b)%Qc as Hb'.
  { rewrite <-Z2Qc_inj_0. by apply (proj1 (Z2Qc_inj_lt 0 b)). }
  assert (Qc_of_Z b ≠ 0%Qc) as Hb0 by (rewrite Qc_of_Z_eq_0; lia).
  split; apply (Qcmult_le_mono_pos_r _ _ _ Hb').
  - rewrite Qcmult_0_l, test_field by done. rewrite <-Z2Qc_inj_0.
    by apply (proj1 (Z2Qc_inj_le 0 a)).
  - rewrite Qcmult_1_l, test_field by done. by apply (proj1 (Z2Qc_inj_le a b)).
Qed.

End float64.

(** ** Lemmas on the statistics *)

Section stats.
Implicit Types (l : list Z) (x : Z).

Lemma sqrt_trunc_nonneg q : 0 ≤ sqrt_trunc q.
Proof. apply Z.sqrt_nonneg. Qed.

(** [sqrt_trunc q] is the truncation of the real square root of [q]. *)
Lemma sqrt_trunc_spec (q : Qc) :
  (0 ≤ q)%Qc →
  let r := sqrt_trunc q in
  (Qc_of_Z (r * r) ≤ q)%Qc ∧ (q < Qc_of_Z ((r + 1) * (r + 1)))%Qc.
Proof.
  intros Hq r.
  assert (0 ≤ Qfloor q) as Hfl.
  { rewrite <-(Qfloor_Z 0). by apply Qfloor_resp_le. }
  destruct (Z.sqrt_spec (Qfloor q) Hfl) as [Hlo Hhi]. fold (sqrt_trunc q) in Hlo, Hhi.
  fold r in Hlo, Hhi. split.
  - unfold Qcle. simpl. eapply Qle_trans; [|apply Qfloor_le].
    by rewrite <-Zle_Qle.
  - unfold Qclt. simpl. eapply Qlt_le_trans; [apply Qlt_floor|].
    rewrite <-Zle_Qle. lia.
Qed.

Lemma TimeRange_nonneg l : 0 ≤ TimeRange l.
Proof.
  destruct l as [|x l]; [done|]. unfold TimeRange.
  pose proof (minZ_le_maxZ 0 (x :: l)). lia.
Qed.

(** The range of samples within [lo, hi] is at most [hi - lo]. *)
Lemma TimeRange_le lo hi l :
  lo ≤ hi → Forall (λ x, lo ≤ x ≤ hi) l → TimeRange l ≤ hi - lo.
Proof.
  intros Hlh Hl. destruct l as [|x l]; [simpl; lia|]. unfold TimeRange.
  rewrite Forall_forall in Hl.
  pose proof (Hl _ (maxZ_elem 0 (x :: l) ltac:(done))).
  pose proof (Hl _ (minZ_elem 0 (x :: l) ltac:(done))). simpl in *. lia.
Qed.

Lemma mean_replicate n x : mean (replicate (S n) x) = Qc_of_Z x.
Proof.
  unfold mean. rewrite sumZ_replicate, length_replicate, Z2Qc_inj_mul.
  rewrite Qcmult_comm. apply Qcdiv_mult_l. rewrite Qc_of_Z_eq_0. lia.
Qed.

Lemma sq_dev_sum_const (m : Qc) l :
  Forall (λ x, Qc_of_Z x = m) l →
  foldr (λ x acc, ((Qc_of_Z x - m) * (Qc_of_Z x - m) + acc)%Qc) 0%Qc l = 0%Qc.
Proof.
  induction 1 as [|x l Hx _ IH]; [done|]. cbn [foldr]. rewrite IH, Hx. ring.
Qed.

(** Equal samples have no dispersion. *)
Lemma sq_dev_sum_replicate n x : sq_dev_sum (replicate (S n) x) = 0%Qc.
Proof.
  unfold sq_dev_sum. rewrite mean_replicate. apply sq_dev_sum_const.
  apply Forall_forall. by intros y [-> _]%elem_of_replicate.
Qed.

Lemma TimeRange_replicate n x : TimeRange (replicate n x) = 0.
Proof.
  destruct n as [|n]; [done|].
  change (maxZ 0 (replicate (S n) x) - minZ 0 (replicate (S n) x) = 0).
  rewrite maxZ_replicate, minZ_replicate. lia.
Qed.

Lemma TimeSquaredDeviation_replicate n x : TimeSquaredDeviation (replicate n x) = 0.
Proof.
  destruct n as [|n]; [done|].
  change (trunc_Qc (variance (replicate (S n) x)) = 0).
  unfold variance. by rewrite sq_dev_sum_replicate.
Qed.

Lemma TimeUncorrectedDeviation_replicate n x :
  TimeUncorrectedDeviation (replicate n x) = 0.
Proof.
  destruct n as [|n]; [done|].
  change (sqrt_trunc (variance (replicate (S n) x)) = 0).
  unfold variance. by rewrite sq_dev_sum_replicate.
Qed.

Lemma TimeCorrectedDeviation_replicate n x :
  TimeCorrectedDeviation (replicate n x) = 0.
Proof.
  destruct n as [|[|n]]; [done..|].
  change (sqrt_trunc (corrected_variance (replicate (S (S n)) x)) = 0).
  unfold corrected_variance. by rewrite sq_dev_sum_replicate.
Qed.

End stats.

(** ** Bounds of the statistics, and when the conversion is exact *)

Section bounds.
Implicit Types (l : list Z) (x M z : Z) (a b m q : Qc).

Lemma Duration_of_trunc_int64 z : int64 (Duration_of_trunc z).
Proof.
  unfold Duration_of_trunc. case_bool_decide; [done|].
  unfold int64, min_int64, max_int64. lia.
Qed.

Lemma Duration_of_trunc_id z : int64 z → Duration_of_trunc z = z.
Proof. intros. unfold Duration_of_trunc. by rewrite bool_decide_eq_true_2. Qed.

(** Out of range the conversion does not saturate: it yields the smallest
    integer, whatever the sign of the value. *)
Lemma Duration_of_trunc_overflow z : ¬ int64 z → Duration_of_trunc z = min_int64.
Proof. intros. unfold Duration_of_trunc. by rewrite bool_decide_eq_false_2. Qed.

Lemma Qc_sq_le a b : (- b ≤ a)%Qc → (a ≤ b)%Qc → (a * a ≤ b * b)%Qc.
Proof. unfold Qcle. simpl. rewrite !Qred_correct. intros. nra. Qed.

Lemma Qc_sq_nonneg a : (0 ≤ a * a)%Qc.
Proof. unfold Qcle. simpl. rewrite !Qred_correct. nra. Qed.

Lemma Qc_of_Z_le x y : x ≤ y → (Qc_of_Z x ≤ Qc_of_Z y)%Qc.
Proof. apply Z2Qc_inj_le. Qed.

Lemma Qc_of_Z_pos x : 0 < x → (0 < Qc_of_Z x)%Qc.
Proof. intros. rewrite <-Z2Qc_inj_0. by apply (proj1 (Z2Qc_inj_lt 0 x)). Qed.

(** A quotient by a positive integer lies between the bounds that its
    numerator lies between after multiplication. *)
Lemma Qc_div_bounds q a b n :
  0 < n → (a * Qc_of_Z n ≤ q)%Qc → (q ≤ b * Qc_of_Z n)%Qc →
  (a ≤ q / Qc_of_Z n)%Qc ∧ (q / Qc_of_Z n ≤ b)%Qc.
Proof.
  intros Hn%Qc_of_Z_pos.
  assert (q / Qc_of_Z n * Qc_of_Z n = q)%Qc as Heq.
  { field. intros E. rewrite E in Hn. by apply Qclt_not_eq in Hn. }
  intros Ha Hb. split; apply (Qcmult_lt_0_le_reg_r _ _ _ Hn); by rewrite Heq.
Qed.

Lemma mean_bounds M l :
  l ≠ [] → Forall (λ x, 0 ≤ x ≤ M) l → (0 ≤ mean l)%Qc ∧ (mean l ≤ Qc_of_Z M)%Qc.
Proof.
  intros Hne Hl. pose proof (sumZ_bounds 0 M l Hl) as Hs.
  apply Qc_div_bounds; [destruct l; simpl; [done|lia]|..].
  - rewrite Qcmult_0_l, <-Z2Qc_inj_0. apply Qc_of_Z_le. lia.
  - rewrite <-Z2Qc_inj_mul. apply Qc_of_Z_le. lia.
Qed.

Lemma sq_dev_foldr_bounds m M l :
  (0 ≤ m)%Qc → (m ≤ Qc_of_Z M)%Qc → Forall (λ x, 0 ≤ x ≤ M) l →
  (0 ≤ foldr (λ x acc, ((Qc_of_Z x - m) * (Qc_of_Z x - m) + acc)%Qc) 0%Qc l)%Qc ∧
  (foldr (λ x acc, ((Qc_of_Z x - m) * (Qc_of_Z x - m) + acc)%Qc) 0%Qc l
     ≤ Qc_of_Z (M * M) * Qc_of_Z (Z.of_nat (length l)))%Qc.
Proof.
  intros Hm0 HmM. induction 1 as [|x l [Hx0 HxM] _ [IH0 IH1]].
  { cbn [foldr length]. change (Z.of_nat 0) with 0.
    rewrite Z2Qc_inj_0, Qcmult_0_r. split; apply Qcle_refl. }
  cbn [foldr length]. rewrite Nat2Z.inj_succ, <-Z.add_1_l, Z2Qc_inj_add, Z2Qc_inj_mul.
  apply Qc_of_Z_le in Hx0, HxM. rewrite Z2Qc_inj_0 in Hx0.
  revert Hm0 HmM IH0 IH1 Hx0 HxM. rewrite Z2Qc_inj_1, Z2Qc_inj_mul.
  generalize (foldr (λ x acc, ((Qc_of_Z x - m) * (Qc_of_Z x - m) + acc)%Qc) 0%Qc l).
  generalize (Qc_of_Z (Z.of_nat (length l))) (Qc_of_Z x) (Qc_of_Z M).
  intros n y B s Hm0 HmM IH0 IH1 Hy0 HyB.
  assert ((y - m) * (y - m) ≤ B * B)%Qc as Hsq.
  { apply Qc_sq_le; revert Hm0 HmM Hy0 HyB; unfold Qcle; simpl; rewrite ?Qred_correct; intros; lra. }
  pose proof (Qc_sq_nonneg (y - m)) as Hsq0.
  revert IH0 IH1 Hsq Hsq0. generalize ((y - m) * (y - m))%Qc. intros d.
  unfold Qcle. simpl. rewrite ?Qred_correct. intros. split; [lra|]. lra.
Qed.

Lemma sq_dev_sum_bounds M l :
  l ≠ [] → Forall (λ x, 0 ≤ x ≤ M) l →
  (0 ≤ sq_dev_sum l)%Qc ∧
  (sq_dev_sum l ≤ Qc_of_Z (M * M) * Qc_of_Z (Z.of_nat (length l)))%Qc.
Proof.
  intros Hne Hl. destruct (mean_bounds M l Hne Hl).
  unfold sq_dev_sum. apply sq_dev_foldr_bounds; assumption.
Qed.

(** The population variance of samples between 0 and [M] is at most
    [M * M]. *)
Lemma variance_bounds M l :
  l ≠ [] → Forall (λ x, 0 ≤ x ≤ M) l →
  (0 ≤ variance l)%Qc ∧ (variance l ≤ Qc_of_Z (M * M))%Qc.
Proof.
  intros Hne Hl. destruct (sq_dev_sum_bounds M l Hne Hl) as [H0 H1].
  apply Qc_div_bounds; [destruct l; simpl; [done|lia]|rewrite Qcmult_0_l; exact H0|exact H1].
Qed.

(** The sample variance of two or more such samples is at most
    [2 * M * M]. *)
Lemma corrected_variance_bounds M l :
  (2 ≤ length l)%nat → Forall (λ x, 0 ≤ x ≤ M) l →
  (0 ≤ corrected_variance l)%Qc ∧ (corrected_variance l ≤ Qc_of_Z (2 * M * M))%Qc.
Proof.
  intros Hlen Hl. destruct (sq_dev_sum_bounds M l) as [H0 H1]; [intros ->; simpl in Hlen; lia|done|].
  apply Qc_div_bounds; [lia|rewrite Qcmult_0_l; exact H0|].
  eapply Qcle_trans; [exact H1|]. rewrite <-!Z2Qc_inj_mul. apply Qc_of_Z_le.
  assert (0 ≤ M * M) by nia. nia.
Qed.

Lemma Qfloor_bounds q x y :
  (Qc_of_Z x ≤ q)%Qc → (q ≤ Qc_of_Z y)%Qc → x ≤ Qfloor q ≤ y.
Proof.
  unfold Qcle, Qc_of_Z. cbn [this]. intros Hx Hy. split.
  - rewrite <-(Qfloor_Z x). by apply Qfloor_resp_le.
  - rewrite <-(Qfloor_Z y). by apply Qfloor_resp_le.
Qed.

Lemma trunc_Qc_nonneg q : (0 ≤ q)%Qc → trunc_Qc q = Qfloor q.
Proof.
  intros Hq. unfold trunc_Qc, Qc_neg. rewrite bool_decide_eq_false_2; [done|].
  by apply Qcle_not_lt.
Qed.

Lemma sqrt_le_of_sq_le z M : 0 ≤ M → z ≤ M * M → Z.sqrt z ≤ M.
Proof.
  intros HM Hz. rewrite <-(Z.sqrt_square M) by done. by apply Z.sqrt_le_mono.
Qed.

Lemma TimeSquaredDeviation_bounds M l :
  Forall (λ x, 0 ≤ x ≤ M) l → 0 ≤ TimeSquaredDeviation l ≤ M * M.
Proof.
  intros Hl. destruct l as [|x l]; [simpl; nia|]. unfold TimeSquaredDeviation.
  destruct (variance_bounds M (x :: l) ltac:(done) Hl) as [H0 H1].
  rewrite trunc_Qc_nonneg by done. apply Qfloor_bounds; [by rewrite Z2Qc_inj_0|done].
Qed.

Lemma TimeUncorrectedDeviation_bounds M l :
  0 ≤ M → Forall (λ x, 0 ≤ x ≤ M) l → 0 ≤ TimeUncorrectedDeviation l ≤ M.
Proof.
  intros HM Hl. destruct l as [|x l]; [done|]. unfold TimeUncorrectedDeviation.
  split; [apply sqrt_trunc_nonneg|]. apply sqrt_le_of_sq_le; [done|].
  destruct (variance_bounds M (x :: l) ltac:(done) Hl) as [H0 H1].
  apply (Qfloor_bounds _ 0); [by rewrite Z2Qc_inj_0|done].
Qed.

Lemma TimeCorrectedDeviation_bounds M l :
  0 ≤ M → Forall (λ x, 0 ≤ x ≤ M) l → 0 ≤ TimeCorrectedDeviation l ≤ 2 * M.
Proof.
  intros HM Hl. destruct l as [|x [|y l]]; [unfold TimeCorrectedDeviation; lia..|].
  unfold TimeCorrectedDeviation.
  split; [apply sqrt_trunc_nonneg|]. apply sqrt_le_of_sq_le; [lia|].
  destruct (corrected_variance_bounds M (x :: y :: l)) as [H0 H1]; [simpl; lia|done|].
  assert (Qfloor (corrected_variance (x :: y :: l)) ≤ 2 * M * M)
    by (apply (Qfloor_bounds _ 0); [by rewrite Z2Qc_inj_0|done]).
  nia.
Qed.
End bounds.
