(* ===== verification/PingEngine.v ===== *)
(** * PingEngine: the statistical ping engine of [src/pkg/ping/ping.go]

    [runPing] makes [count] attempts.  Each attempt calls the transport
    with the current sequence number; a failed, unsuccessful or foreign
    reply is skipped by [continue]; an accepted reply is appended to the
    samples, updates the running count, worst, best, sum and average,
    advances the sequence number and is followed by [time.Sleep].  After
    the loop the running values and the dispersion statistics of the
    samples are stored in a [PingResult].

    The loop body is [runPing_step], the loop [runPing_loop] (a structural
    recursion on the number of attempts, so it needs no fuel), the whole
    function [runPing].  The state of the loop carries the world of the
    transport and a log of the calls of [icmp.Icmp] and [time.Sleep], so
    that the order and the arguments of the effects can be stated. *)

From Stdlib Require Import QArith Qcanon.
From S2P Require Import Prelude Transport Stats.

#[local] Open Scope Z_scope.

(** ** Data *)

(** [PingOptions]: the options [Ping] builds with [SetCount],
    [SetTimeout] and [SetInterval] and [runPing] reads back. *)
Record PingOptions : Type := mkPingOptions {
  Count : Z;
  Timeout : Duration;
  Interval : Duration;
}.

(** [PingReturn]: the running values of the loop. *)
Record PingReturn : Type := mkPingReturn {
  allTime : list Duration;
  succSum : Z;
  worstTime : Duration;
  bestTime : Duration;
  sumTime : Duration;
  avgTime : Duration;
  success : bool;
}.

(** [PingResult]: what a cycle reports. *)
Record PingResult : Type := mkPingResult {
  DestAddr : string;
  DestIp : string;
  Success : bool;
  DropRate : float64;
  SumTime : Duration;
  BestTime : Duration;
  AvgTime : Duration;
  WorstTime : Duration;
  SquaredDeviationTime : Duration;
  UncorrectedSDTime : Duration;
  CorrectedSDTime : Duration;
  RangeTime : Duration;
  SntSummary : Z;
  SntFailSummary : Z;
  SntTimeSummary : Duration;
}.

#[global] Instance PingReturn_eq_dec : EqDecision PingReturn.
Proof. solve_decision. Defined.
#[global] Instance PingResult_eq_dec : EqDecision PingResult.
Proof. solve_decision. Defined.

(** The zero value [PingReturn{}] and [PingResult{}]. *)
Definition PingReturn_zero : PingReturn := mkPingReturn [] 0 0 0 0 0 false.
Definition PingResult_zero : PingResult :=
  mkPingResult "" "" false (FVal 0%Qc) 0 0 0 0 0 0 0 0 0 0 0.

(** The effects of the engine, in the order they happen: a call of
    [icmp.Icmp] with what it returned, and a call of [time.Sleep]. *)
Inductive event : Type :=
| EvIcmp (c : IcmpCall) (r : IcmpReturn * option error)
| EvSleep (d : Duration).

#[global] Instance event_eq_dec : EqDecision event.
Proof. solve_decision. Defined.

Section engine.
Context `{EchoTransport}.

(** The variables of the loop of [runPing] that change: the sequence
    number, the running values, the world and the log. *)
Record loop_state : Type := mkLoop {
  ls_seq : Z;
  ls_ret : PingReturn;
  ls_world : world;
  ls_log : list event;
}.

(** ** The loop body *)

(** The update of the running values by an accepted reply that took [e]. *)
Definition record_sample (r : PingReturn) (e : Duration) : PingReturn :=
  let succ := succSum r ⊕ 1 in
  let worst :=
    if bool_decide (worstTime r = 0) || bool_decide (worstTime r < e)
    then e else worstTime r in
  let best :=
    if bool_decide (bestTime r = 0) || bool_decide (e < bestTime r)
    then e else bestTime r in
  let sum := sumTime r ⊕ e in
  let avg := wrap64 (wrap64 (sum ⊘ Microsecond) ⊘ succ) ⊗ Microsecond in
  {| allTime := allTime r ++ [e];
     succSum := succ;
     worstTime := worst;
     bestTime := best;
     sumTime := sum;
     avgTime := avg;
     success := true |}.

(** One iteration of the loop. *)
Definition runPing_step (ip srcAddr : string) (pid : Z) (timeout interval : Duration)
    (st : loop_state) : loop_state :=
  let c := mkIcmpCall ip srcAddr defaultTTL pid timeout (ls_seq st) in
  let '(icmpReturn, err, w) := Icmp c (ls_world st) in
  if bool_decide (err ≠ None) || negb (icmp_Success icmpReturn)
     || negb (IsEqualIP ip (icmp_Addr icmpReturn))
  then
    {| ls_seq := ls_seq st;
       ls_ret := ls_ret st;
       ls_world := w;
       ls_log := ls_log st ++ [EvIcmp c (icmpReturn, err)] |}
  else
    {| ls_seq := ls_seq st ⊕ 1;
       ls_ret := record_sample (ls_ret st) (icmp_Elapsed icmpReturn);
       ls_world := w;
       ls_log := ls_log st ++ [EvIcmp c (icmpReturn, err); EvSleep interval] |}.

(** [n] iterations of the loop. *)
Fixpoint runPing_loop (n : nat) (ip srcAddr : string) (pid : Z)
    (timeout interval : Duration) (st : loop_state) : loop_state :=
  match n with
  | O => st
  | S n' =>
      runPing_loop n' ip srcAddr pid timeout interval
        (runPing_step ip srcAddr pid timeout interval st)
  end.

(** ** The result built after the loop *)

(** The four statistics are converted with [time.Duration(...)]; the two
    counters and the running values are stored as they are. *)
Definition build_result (ipAddr ip : string) (count : Z) (r : PingReturn) : PingResult :=
  {| DestAddr := ipAddr;
     DestIp := ip;
     Success := success r;
     DropRate := int_ratio (count ⊖ succSum r) count;
     SumTime := sumTime r;
     AvgTime := avgTime r;
     BestTime := bestTime r;
     WorstTime := worstTime r;
     SquaredDeviationTime := Duration_of_trunc (TimeSquaredDeviation (allTime r));
     UncorrectedSDTime := Duration_of_trunc (TimeUncorrectedDeviation (allTime r));
     CorrectedSDTime := Duration_of_trunc (TimeCorrectedDeviation (allTime r));
     RangeTime := Duration_of_trunc (TimeRange (allTime r));
     SntSummary := count;
     SntFailSummary := count ⊖ succSum r;
     SntTimeSummary := Duration_of_trunc (TimeRange (allTime r)) |}.

(** The state in which the loop starts. *)
Definition loop_init (w : world) : loop_state :=
  {| ls_seq := 0; ls_ret := PingReturn_zero; ls_world := w; ls_log := [] |}.

(** The state in which the loop of [runPing] ends. *)
Definition runPing_final (ip srcAddr : string) (icmpID : Z) (opt : PingOptions)
    (w : world) : loop_state :=
  runPing_loop (Z.to_nat (Count opt)) ip srcAddr icmpID
    (Timeout opt) (Interval opt) (loop_init w).

(** [runPing]: the result, the error (always [nil]), the world after the
    cycle and the log of its effects. *)
Definition runPing (ipAddr ip srcAddr : string) (icmpID : Z) (opt : PingOptions)
    (w : world) : PingResult * option error * world * list event :=
  let st := runPing_final ip srcAddr icmpID opt w in
  (build_result ipAddr ip (Count opt) (ls_ret st), None, ls_world st, ls_log st).

(** [if err != nil { return out, err }; return out, nil]: the test of
    the error that ends [Ping] and [PingString]. *)
Definition return_checked {A : Type} (out : A) (err : option error) : A * option error :=
  match err with
  | Some e => (out, Some e)
  | None => (out, None)
  end.

(** [Ping]: builds the options and returns what [runPing] returns, on both
    branches of its test of the error. *)
Definition Ping (addr ip srcAddr : string) (count : Z) (interval timeout : Duration)
    (icmpID : Z) (w : world) : PingResult * option error * world * list event :=
  let pingOptions := mkPingOptions count timeout interval in
  let '(out, err, w', log) := runPing addr ip srcAddr icmpID pingOptions w in
  (return_checked out err, w', log).

(** What [PingString] prints after "rtt min/avg/max =": three fields of
    the result of [runPing], in this order. *)
Record rtt_line : Type := mkRtt {
  rtt_min : Duration;
  rtt_avg : Duration;
  rtt_max : Duration;
}.

(** The part of [PingString] that depends on the cycle: the number of
    packets and the drop rate of the first line, the round-trip times of
    the second, and the error.  The time stamps and the formatting of the
    numbers are left out. *)
Definition PingString (addr ip srcAddr : string) (count : Z) (timeout interval : Duration)
    (icmpID : Z) (w : world) : Z * float64 * rtt_line * option error * world :=
  let pingOptions := mkPingOptions count timeout interval in
  let '(pingResult, err, w', _) := runPing addr ip srcAddr icmpID pingOptions w in
  (return_checked
     (count, DropRate pingResult,
      mkRtt (WorstTime pingResult) (AvgTime pingResult) (BestTime pingResult))
     err, w').

End engine.

Arguments loop_state {_}.
Arguments mkLoop {_}.

(** ** The abstract specification: statistics as functions of the samples *)

(** The best time as the loop keeps it: zero means "no sample yet", so a
    sample of zero nanoseconds is forgotten by the next one. *)
Definition best_step (b e : Duration) : Duration :=
  if bool_decide (b = 0) || bool_decide (e < b) then e else b.
Definition best_ref (l : list Duration) : Duration := foldl best_step 0 l.

(** The average: the sum in whole microseconds divided by the number of
    samples, in nanoseconds again. *)
Definition avg_ref (l : list Duration) : Duration :=
  (sumZ l ⊘ Microsecond ⊘ Z.of_nat (length l)) * Microsecond.

(** The running values that [PingReturn] must hold for the samples [l]. *)
Definition return_spec (l : list Duration) : PingReturn :=
  {| allTime := l;
     succSum := Z.of_nat (length l);
     worstTime := maxZ 0 l;
     bestTime := best_ref l;
     sumTime := sumZ l;
     avgTime := avg_ref l;
     success := bool_decide (l ≠ []) |}.

(** The result of a cycle of [count] attempts whose accepted replies took
    the times [l], in unbounded arithmetic.  The squared deviation alone
    keeps the conversion of the code: it is a time squared, and exceeds 64
    bits for samples that are well within the bounds of the other fields
    (see [SquaredDeviation_exact] and [runPing_SquaredDeviation_overflow]). *)
Definition result_spec (ipAddr ip : string) (count : Z) (l : list Duration) : PingResult :=
  {| DestAddr := ipAddr;
     DestIp := ip;
     Success := bool_decide (l ≠ []);
     DropRate := int_ratio (count - Z.of_nat (length l)) count;
     SumTime := sumZ l;
     AvgTime := avg_ref l;
     BestTime := best_ref l;
     WorstTime := maxZ 0 l;
     SquaredDeviationTime := Duration_of_trunc (TimeSquaredDeviation l);
     UncorrectedSDTime := TimeUncorrectedDeviation l;
     CorrectedSDTime := TimeCorrectedDeviation l;
     RangeTime := TimeRange l;
     SntSummary := count;
     SntFailSummary := count - Z.of_nat (length l);
     SntTimeSummary := TimeRange l |}.

(** Samples of a cycle: between zero and the timeout [T]. *)
Definition samples_ok (T : Duration) (l : list Duration) : Prop :=
  Forall (λ e, 0 ≤ e ≤ T) l.

#[global] Instance samples_ok_dec T l : Decision (samples_ok T l).
Proof. unfold samples_ok. apply _. Defined.

(** ** Lemmas on the reference statistics *)

Section reference.
Implicit Types (l : list Duration) (e b T : Duration).

Lemma best_ref_snoc l e : best_ref (l ++ [e]) = best_step (best_ref l) e.
Proof. unfold best_ref. by rewrite foldl_app. Qed.

Lemma best_step_pos b e : 0 ≤ b → 0 < e → best_step b e = if bool_decide (b = 0) then e else Z.min b e.
Proof. intros. unfold best_step. repeat case_bool_decide; simpl; lia. Qed.

(** With samples that are all positive the sentinel is never met and the
    best time is the minimum. *)
Lemma best_ref_min l : Forall (λ e, 0 < e) l → best_ref l = minZ 0 l ∧ (l ≠ [] → 0 < best_ref l).
Proof.
  induction l as [|e l IH] using rev_ind; [done|].
  rewrite Forall_app, Forall_singleton. intros [Hl He].
  destruct (IH Hl) as [IH1 IH2]. rewrite best_ref_snoc.
  destruct l as [|x l].
  - simpl. unfold best_step. simpl. split; [done|lia].
  - specialize (IH2 ltac:(done)). rewrite minZ_snoc by done. rewrite <-IH1.
    rewrite best_step_pos by lia. rewrite bool_decide_eq_false_2 by lia. split; lia.
Qed.

Lemma maxZ_nonneg l : Forall (λ e, 0 ≤ e) l → 0 ≤ maxZ 0 l.
Proof.
  intros Hl. destruct l as [|x l]; [done|].
  rewrite Forall_forall in Hl. apply Hl, maxZ_elem. done.
Qed.

(** The running maximum with the zero sentinel is the maximum of the
    samples when no sample is negative. *)
Lemma maxZ_step l e :
  Forall (λ x, 0 ≤ x) l → 0 ≤ e →
  (if bool_decide (maxZ 0 l = 0) || bool_decide (maxZ 0 l < e) then e else maxZ 0 l)
  = maxZ 0 (l ++ [e]).
Proof.
  intros Hl He. destruct l as [|x l]; [done|].
  rewrite maxZ_snoc by done. pose proof (maxZ_nonneg _ Hl).
  set (m := maxZ 0 (x :: l)) in *. repeat case_bool_decide; cbn [orb]; lia.
Qed.

Lemma samples_ok_snoc T l e : samples_ok T l → 0 ≤ e ≤ T → samples_ok T (l ++ [e]).
Proof. intros. apply Forall_app. split; [done|]. by apply Forall_singleton. Qed.

Lemma samples_ok_nonneg T l : samples_ok T l → Forall (λ x, 0 ≤ x) l.
Proof. intros Hl. eapply Forall_impl; [exact Hl|]. simpl. lia. Qed.

Lemma samples_ok_sum T l : samples_ok T l → 0 ≤ sumZ l ≤ Z.of_nat (length l) * T.
Proof. intros Hl. pose proof (sumZ_bounds 0 T l Hl). lia. Qed.

Lemma avg_ref_bounds l : 0 ≤ sumZ l → 0 ≤ avg_ref l ≤ sumZ l.
Proof.
  intros Hs. unfold avg_ref, Microsecond. destruct l as [|x l].
  - rewrite sumZ_nil. done.
  - set (n := Z.of_nat (length (x :: l))). assert (0 < n) by (unfold n; simpl; lia).
    pose proof (quot_nonneg (sumZ (x :: l)) 1000 Hs ltac:(lia)) as [H1 H2].
    pose proof (quot_nonneg _ n H1 ltac:(lia)) as [H3 H4].
    pose proof (quot_mul_le (sumZ (x :: l)) 1000 Hs ltac:(lia)). nia.
Qed.

End reference.

(** ** The effects recorded in the log *)

(** The sequence numbers of the echo requests, in the order sent. *)
Definition seqs_of (log : list event) : list Z :=
  omap (λ e, match e with EvIcmp c _ => Some (call_seq c) | EvSleep _ => None end) log.

(** The replies to the echo requests, in the order received. *)
Definition replies_of (log : list event) : list (IcmpReturn * option error) :=
  omap (λ e, match e with EvIcmp _ r => Some r | EvSleep _ => None end) log.

(** The echo requests, in the order sent. *)
Definition calls_of (log : list event) : list IcmpCall :=
  omap (λ e, match e with EvIcmp c _ => Some c | EvSleep _ => None end) log.

(** The pauses of [time.Sleep], in the order taken. *)
Definition sleeps_of (log : list event) : list Duration :=
  omap (λ e, match e with EvSleep d => Some d | EvIcmp _ _ => None end) log.

(** ** The loop, step by step *)

Section loop_facts.
Context `{EchoTransport}.
Context (ip srcAddr : string) (pid : Z) (timeout interval : Duration).
Implicit Types (st : loop_state) (n : nat).

#[local] Abbreviation step := (runPing_step ip srcAddr pid timeout interval).
#[local] Abbreviation loop n := (runPing_loop n ip srcAddr pid timeout interval).

(** The call an iteration makes in state [st] and what the transport
    answers. *)
Definition call_at st : IcmpCall :=
  mkIcmpCall ip srcAddr defaultTTL pid timeout (ls_seq st).
Definition answer_at st : IcmpReturn * option error * world :=
  Icmp (call_at st) (ls_world st).

(** The two branches of the loop body, by the outcome of the guard. *)
Lemma runPing_step_unfold st :
  step st =
  if accepted ip (answer_at st).1 then
    mkLoop (ls_seq st ⊕ 1)
      (record_sample (ls_ret st) (icmp_Elapsed (answer_at st).1.1))
      (answer_at st).2
      (ls_log st ++ [EvIcmp (call_at st) (answer_at st).1; EvSleep interval])
  else
    mkLoop (ls_seq st) (ls_ret st) (answer_at st).2
      (ls_log st ++ [EvIcmp (call_at st) (answer_at st).1]).
Proof.
  unfold runPing_step, accepted, answer_at, call_at.
  destruct (Icmp _ _) as [[r err] w]. simpl.
  by destruct (bool_decide _), (icmp_Success r), (IsEqualIP _ _).
Qed.

Lemma runPing_step_accepted st :
  accepted ip (answer_at st).1 = true →
  step st = mkLoop (ls_seq st ⊕ 1)
      (record_sample (ls_ret st) (icmp_Elapsed (answer_at st).1.1))
      (answer_at st).2
      (ls_log st ++ [EvIcmp (call_at st) (answer_at st).1; EvSleep interval]).
Proof. intros Ha. by rewrite runPing_step_unfold, Ha. Qed.

Lemma runPing_step_rejected st :
  accepted ip (answer_at st).1 = false →
  step st = mkLoop (ls_seq st) (ls_ret st) (answer_at st).2
      (ls_log st ++ [EvIcmp (call_at st) (answer_at st).1]).
Proof. intros Ha. by rewrite runPing_step_unfold, Ha. Qed.

Lemma runPing_loop_S n st : loop (S n) st = loop n (step st).
Proof. reflexivity. Qed.

Lemma runPing_loop_S_r n st : loop (S n) st = step (loop n st).
Proof. revert st. induction n as [|n IH]; intros st; [done|]. by rewrite runPing_loop_S, IH. Qed.

Lemma runPing_loop_add n m st : loop (n + m) st = loop m (loop n st).
Proof. revert st. induction n as [|n IH]; intros st; [done|]. apply IH. Qed.

(** An invariant of the loop body is an invariant of the loop. *)
Lemma runPing_loop_ind (P : loop_state → Prop) n st :
  (∀ st', P st' → P (step st')) → P st → P (loop n st).
Proof. intros Hstep. revert st. induction n as [|n IH]; intros st Hst; [done|]. by apply IH, Hstep. Qed.

(** The samples only grow, by at most one per iteration. *)
Lemma runPing_step_allTime st :
  allTime (ls_ret (step st)) =
  allTime (ls_ret st) ++
    (if accepted ip (answer_at st).1 then [icmp_Elapsed (answer_at st).1.1] else []).
Proof. rewrite runPing_step_unfold. destruct (accepted _ _); simpl; by rewrite ?app_nil_r. Qed.

Lemma runPing_step_length st :
  (length (allTime (ls_ret st)) ≤ length (allTime (ls_ret (step st))) ≤
   S (length (allTime (ls_ret st))))%nat.
Proof.
  rewrite runPing_step_allTime, length_app. destruct (accepted _ _); simpl; lia.
Qed.

Lemma runPing_loop_length n st :
  (length (allTime (ls_ret st)) ≤ length (allTime (ls_ret (loop n st))) ≤
   n + length (allTime (ls_ret st)))%nat.
Proof.
  revert st. induction n as [|n IH]; intros st; [simpl; lia|].
  rewrite runPing_loop_S. specialize (IH (step st)).
  pose proof (runPing_step_length st). lia.
Qed.

(** Every iteration sends one echo request, with the current sequence
    number. *)
Lemma runPing_step_seqs st :
  seqs_of (ls_log (step st)) = seqs_of (ls_log st) ++ [ls_seq st].
Proof.
  rewrite runPing_step_unfold. unfold seqs_of.
  destruct (accepted _ _); simpl; by rewrite omap_app.
Qed.

Lemma runPing_step_calls st :
  calls_of (ls_log (step st)) = calls_of (ls_log st) ++ [call_at st].
Proof.
  rewrite runPing_step_unfold. unfold calls_of.
  destruct (accepted _ _); simpl; by rewrite omap_app.
Qed.

Lemma runPing_step_replies st :
  replies_of (ls_log (step st)) = replies_of (ls_log st) ++ [(answer_at st).1].
Proof.
  rewrite runPing_step_unfold. unfold replies_of.
  destruct (accepted _ _); simpl; by rewrite omap_app.
Qed.

(** An iteration sleeps exactly when the reply is accepted. *)
Lemma runPing_step_sleeps st :
  sleeps_of (ls_log (step st)) =
  sleeps_of (ls_log st) ++ (if accepted ip (answer_at st).1 then [interval] else []).
Proof.
  rewrite runPing_step_unfold. unfold sleeps_of.
  destruct (accepted _ _); simpl; rewrite omap_app; simpl; by rewrite ?app_nil_r.
Qed.

(** The times of the accepted replies among [rs], in order. *)
Definition accepted_times (rs : list (IcmpReturn * option error)) : list Duration :=
  (λ r, icmp_Elapsed r.1) <$> filter (λ r, accepted ip r) rs.

(** The sequence number each request must carry: the number of accepted
    replies before it. *)
Definition sent_seqs (rs : list (IcmpReturn * option error)) : list Z :=
  (λ i, Z.of_nat (length (accepted_times (take i rs)))) <$> seq 0 (length rs).

Lemma accepted_times_snoc rs r :
  accepted_times (rs ++ [r]) =
  accepted_times rs ++ (if accepted ip r then [icmp_Elapsed r.1] else []).
Proof.
  unfold accepted_times. rewrite filter_app, fmap_app. f_equal.
  destruct (accepted ip r) eqn:E.
  - by rewrite filter_cons_True by (by apply Is_true_true_2).
  - by rewrite filter_cons_False by (by apply Is_true_false_2).
Qed.

Lemma sent_seqs_snoc rs r :
  sent_seqs (rs ++ [r]) = sent_seqs rs ++ [Z.of_nat (length (accepted_times rs))].
Proof.
  unfold sent_seqs. rewrite length_app, Nat.add_1_r, seq_S, fmap_app. simpl.
  rewrite take_app_length. f_equal.
  apply list_fmap_ext. intros i j [-> Hj]%lookup_seq.
  by rewrite take_app_le by (simpl; lia).
Qed.

(** What the log and the counters say after [n] iterations: [n] requests
    were sent; the samples are the times of the accepted replies; every
    request carried the number of replies accepted before it; the
    sequence number and the success counter are the number of samples;
    there was one sleep of [interval] per sample; the success flag tells
    whether there is a sample. *)
Record log_inv (n : nat) (st : loop_state) : Prop := mkLogInv {
  lg_replies : length (replies_of (ls_log st)) = n;
  lg_samples : allTime (ls_ret st) = accepted_times (replies_of (ls_log st));
  lg_seqs : seqs_of (ls_log st) = sent_seqs (replies_of (ls_log st));
  lg_seq : ls_seq st = Z.of_nat (length (allTime (ls_ret st)));
  lg_succ : succSum (ls_ret st) = Z.of_nat (length (allTime (ls_ret st)));
  lg_sleeps : sleeps_of (ls_log st) = replicate (length (allTime (ls_ret st))) interval;
  lg_success : success (ls_ret st) = bool_decide (allTime (ls_ret st) ≠ []);
  lg_zero : allTime (ls_ret st) = [] → ls_ret st = PingReturn_zero;
  lg_calls : calls_of (ls_log st) =
             mkIcmpCall ip srcAddr defaultTTL pid timeout <$> seqs_of (ls_log st);
}.

Lemma log_inv_init w : log_inv 0 (loop_init w).
Proof. by split. Qed.

Lemma log_inv_length n st : log_inv n st → (length (allTime (ls_ret st)) ≤ n)%nat.
Proof.
  intros [Hn Hs _ _ _ _ _ _ _]. rewrite Hs, <-Hn. unfold accepted_times.
  rewrite length_fmap. apply length_filter.
Qed.

Lemma log_inv_step n st :
  Z.of_nat (S n) ≤ max_int64 → log_inv n st → log_inv (S n) (step st).
Proof.
  intros Hn Hinv. pose proof (log_inv_length n st Hinv) as Hlen.
  destruct Hinv as [Hr Hs Hseqs Hseq Hsucc Hsl Hsuccess Hzero Hcalls].
  split; rewrite ?runPing_step_calls, ?runPing_step_replies, ?runPing_step_seqs,
    ?runPing_step_sleeps,
    ?runPing_step_allTime, ?accepted_times_snoc, ?sent_seqs_snoc, ?length_app.
  - simpl. lia.
  - by rewrite Hs.
  - by rewrite Hseqs, Hseq, Hs.
  - rewrite runPing_step_unfold. destruct (accepted _ _); simpl.
    + rewrite Hseq. rewrite wrap64_id by solve_int64. lia.
    + rewrite Hseq. f_equal. lia.
  - rewrite runPing_step_unfold. destruct (accepted _ _); simpl.
    + rewrite Hsucc. rewrite wrap64_id by solve_int64. lia.
    + rewrite Hsucc. f_equal. lia.
  - rewrite Hsl. destruct (accepted _ _); simpl.
    + by rewrite Nat.add_1_r, replicate_S_end.
    + by rewrite app_nil_r, Nat.add_0_r.
  - rewrite runPing_step_unfold. destruct (accepted _ _); simpl.
    + symmetry. apply bool_decide_eq_true_2. by destruct (allTime _).
    + by rewrite app_nil_r.
  - rewrite runPing_step_unfold. destruct (accepted _ _); simpl.
    + by intros ?%app_nil_r_inv.
    + by rewrite app_nil_r.
  - by rewrite Hcalls, fmap_app.
Qed.

Lemma log_inv_loop m n st :
  Z.of_nat (m + n) ≤ max_int64 → log_inv m st → log_inv (n + m) (loop n st).
Proof.
  revert m st. induction n as [|n IH]; intros m st Hmn Hinv; [done|].
  rewrite runPing_loop_S. replace (S n + m)%nat with (n + S m)%nat by lia.
  apply IH; [lia|]. apply log_inv_step; [lia|done].
Qed.

(** The log that requests and their replies leave: every request with
    its reply, followed at once by a pause when the reply is accepted. *)
Definition log_of (crs : list (IcmpCall * (IcmpReturn * option error))) : list event :=
  crs ≫= λ cr, EvIcmp cr.1 cr.2 :: (if accepted ip cr.2 then [EvSleep interval] else []).

(** The log holds nothing but these requests and pauses, in this order. *)
Record shape_inv (st : loop_state) : Prop := mkShapeInv {
  lp_len : length (calls_of (ls_log st)) = length (replies_of (ls_log st));
  lp_log : ls_log st = log_of (zip (calls_of (ls_log st)) (replies_of (ls_log st)));
}.

Lemma shape_inv_step st : shape_inv st → shape_inv (step st).
Proof.
  intros [Hlen Hlog]. split; rewrite runPing_step_calls, runPing_step_replies.
  - rewrite !length_app. simpl. lia.
  - rewrite zip_with_app by done. unfold log_of in *. rewrite bind_app, <-Hlog.
    rewrite runPing_step_unfold. simpl. by destruct (accepted _ _).
Qed.

Lemma shape_inv_loop n w : shape_inv (loop n (loop_init w)).
Proof. apply runPing_loop_ind; [apply shape_inv_step|by split]. Qed.

End loop_facts.

(** ** The running values are the reference statistics *)

Section record_sample.
Implicit Types (l : list Duration) (e T s n : Z).

(** The average computed in 64 bits is the average in unbounded
    arithmetic when the sum and the count are representable. *)
Lemma avg_wrap_exact s n :
  0 ≤ s ≤ max_int64 → 0 < n ≤ max_int64 →
  wrap64 (wrap64 (s ⊘ Microsecond) ⊘ n) ⊗ Microsecond = (s ⊘ Microsecond ⊘ n) * Microsecond.
Proof.
  intros Hs Hn. unfold Microsecond.
  pose proof (quot_nonneg s 1000 ltac:(lia) ltac:(lia)) as [H1 H2].
  pose proof (quot_nonneg (s ⊘ 1000) n H1 ltac:(lia)) as [H3 H4].
  pose proof (quot_mul_le s 1000 ltac:(lia) ltac:(lia)).
  rewrite (wrap64_id (s ⊘ 1000)) by solve_int64.
  rewrite (wrap64_id (s ⊘ 1000 ⊘ n)) by solve_int64.
  apply wrap64_id. unfold_int64. nia.
Qed.

(** One accepted reply takes the reference values of the samples [l] to
    those of [l ++ [e]], provided no 64-bit operation overflows: the
    samples lie between 0 and [T] and one more than their number, times
    [T], is representable. *)
Lemma record_sample_spec T l e :
  samples_ok T l → 0 ≤ e ≤ T →
  (Z.of_nat (length l) + 1) * T ≤ max_int64 →
  Z.of_nat (length l) + 1 ≤ max_int64 →
  record_sample (return_spec l) e = return_spec (l ++ [e]).
Proof.
  intros Hl He HT Hn.
  pose proof (samples_ok_sum T l Hl) as Hsum.
  assert (Z.of_nat (length (l ++ [e])) = Z.of_nat (length l) + 1) as Hlen
    by (rewrite length_app; simpl; lia).
  assert (sumZ l ⊕ e = sumZ (l ++ [e])) as Hs.
  { rewrite sumZ_snoc. apply wrap64_id. unfold_int64. nia. }
  unfold record_sample, return_spec.
  cbn [allTime succSum worstTime bestTime sumTime avgTime success].
  rewrite Hs, Hlen. f_equal.
  - apply wrap64_id. solve_int64.
  - apply maxZ_step; [by eapply samples_ok_nonneg|lia].
  - by rewrite best_ref_snoc.
  - rewrite (wrap64_id (_ + 1)) by solve_int64. unfold avg_ref. rewrite Hlen.
    apply avg_wrap_exact; [|lia]. rewrite sumZ_snoc. nia.
  - symmetry. apply bool_decide_eq_true_2. by destruct l.
Qed.

End record_sample.

Section refinement.
Context `{EchoTransportOk}.
Context (ip srcAddr : string) (pid : Z) (timeout interval : Duration).
Implicit Types (st : loop_state) (n N : nat).

#[local] Abbreviation step := (runPing_step ip srcAddr pid timeout interval).
#[local] Abbreviation loop n := (runPing_loop n ip srcAddr pid timeout interval).
#[local] Abbreviation answer st := (answer_at ip srcAddr pid timeout st).
#[local] Abbreviation samples st := (allTime (ls_ret st)).

(** The invariant of the loop: the running values are the reference
    values of the samples, the samples are within the timeout, the
    sequence number is their number, and the world is one the transport
    keeps its promises in. *)
Record loop_inv (st : loop_state) : Prop := mkLoopInv {
  li_ret : ls_ret st = return_spec (samples st);
  li_samples : samples_ok timeout (samples st);
  li_seq : ls_seq st = Z.of_nat (length (samples st));
  li_world : world_ok (ls_world st);
}.

Lemma loop_inv_init w : world_ok w → loop_inv (loop_init w).
Proof. intros. split; [done|constructor|done|done]. Qed.

(** An accepted reply is a successful one without error, so its time is
    within the timeout. *)
Lemma accepted_elapsed st :
  world_ok (ls_world st) → accepted ip (answer st).1 = true →
  0 ≤ icmp_Elapsed (answer st).1.1 ≤ timeout.
Proof.
  unfold accepted. intros Hw Ha.
  apply negb_true_iff, orb_false_iff in Ha as [[Herr Hs]%orb_false_iff _].
  apply bool_decide_eq_false_1 in Herr. apply negb_false_iff in Hs.
  apply (Icmp_elapsed (call_at ip srcAddr pid timeout st) _ Hw); [|done].
  by destruct ((answer st).1.2) eqn:E; [destruct Herr|].
Qed.

Lemma loop_inv_step N st :
  Z.of_nat N * timeout ≤ max_int64 → Z.of_nat N ≤ max_int64 →
  (length (samples st) < N)%nat →
  loop_inv st → loop_inv (step st).
Proof.
  intros HT HN Hlt [Hret Hs Hseq Hw].
  assert (world_ok (ls_world (step st))) as Hw'.
  { rewrite runPing_step_unfold. destruct (accepted _ _); by apply Icmp_world_ok. }
  destruct (accepted ip (answer st).1) eqn:Ha.
  - pose proof (accepted_elapsed st Hw Ha) as He.
    rewrite runPing_step_accepted in * by done. cbn [ls_ret ls_seq allTime ls_world] in *.
    rewrite Hret, (record_sample_spec timeout) by (done || nia || lia).
    split; cbn [ls_ret ls_seq allTime ls_world return_spec];
      [done|by apply samples_ok_snoc| |done].
    rewrite Hseq, length_app. simpl. rewrite wrap64_id by solve_int64. lia.
  - rewrite runPing_step_rejected in * by done. by split.
Qed.

Lemma loop_inv_loop N n st :
  Z.of_nat N * timeout ≤ max_int64 → Z.of_nat N ≤ max_int64 →
  (n + length (samples st) ≤ N)%nat →
  loop_inv st → loop_inv (loop n st).
Proof.
  intros HT HN. revert st. induction n as [|n IH]; intros st Hn Hinv; [done|].
  rewrite runPing_loop_S. pose proof (runPing_step_length ip srcAddr pid timeout interval st).
  apply IH; [lia|]. apply (loop_inv_step N); [done..|lia|done].
Qed.

End refinement.

(** ** [runPing] implements the abstract specification *)

Section runPing_correct.
Context `{Hok : EchoTransportOk}.
Implicit Types (ipAddr ip srcAddr : string) (icmpID count : Z) (opt : PingOptions) (w : world).

(** The samples a cycle records: the times of its accepted replies. *)
Definition runPing_samples ip srcAddr icmpID opt w : list Duration :=
  allTime (ls_ret (runPing_final ip srcAddr icmpID opt w)).

Lemma runPing_samples_length ip srcAddr icmpID opt w :
  (length (runPing_samples ip srcAddr icmpID opt w) ≤ Z.to_nat (Count opt))%nat.
Proof.
  unfold runPing_samples, runPing_final.
  pose proof (runPing_loop_length ip srcAddr icmpID (Timeout opt) (Interval opt)
                (Z.to_nat (Count opt)) (loop_init w)) as Hlen.
  simpl in Hlen. lia.
Qed.

(** The deviations and the range of samples within the timeout [T] fit
    in 64 bits when [count * T] does, so their conversion is exact. *)
Lemma dispersion_int64 T count l :
  samples_ok T l → (length l ≤ Z.to_nat count)%nat → count * T ≤ max_int64 →
  int64 (TimeUncorrectedDeviation l) ∧ int64 (TimeCorrectedDeviation l) ∧
  int64 (TimeRange l).
Proof.
  intros Hl Hlen HT. destruct l as [|x l]; [done|].
  assert (0 ≤ T) by (inversion Hl; lia).
  pose proof (TimeUncorrectedDeviation_bounds T _ ltac:(done) Hl).
  pose proof (TimeCorrectedDeviation_bounds T _ ltac:(done) Hl) as Hcd.
  pose proof (TimeRange_nonneg (x :: l)).
  pose proof (TimeRange_le 0 T (x :: l) ltac:(done) Hl).
  simpl in Hlen. split_and!; unfold_int64; try nia.
  destruct l as [|y l]; [simpl; lia|]. simpl in Hlen. nia.
Qed.

(** The result built from reference values is the specified result when
    the number of failures is representable and [count * T] fits. *)
Lemma build_result_spec ipAddr ip count T l :
  int64 count → (length l ≤ Z.to_nat count)%nat →
  samples_ok T l → count * T ≤ max_int64 →
  build_result ipAddr ip count (return_spec l) = result_spec ipAddr ip count l.
Proof.
  intros Hc Hlen Hl HT. destruct (dispersion_int64 T count l) as (?&?&?); [done..|].
  unfold build_result, result_spec.
  cbn [allTime succSum worstTime bestTime sumTime avgTime success return_spec].
  rewrite (wrap64_id (count - _)) by solve_int64.
  by rewrite !(Duration_of_trunc_id (TimeUncorrectedDeviation l)),
    !(Duration_of_trunc_id (TimeCorrectedDeviation l)),
    !(Duration_of_trunc_id (TimeRange l)).
Qed.

(** The whole loop keeps the invariant when [count * timeout] fits. *)
Lemma runPing_final_inv ip srcAddr icmpID opt w :
  world_ok w → int64 (Count opt) → Count opt * Timeout opt ≤ max_int64 →
  loop_inv (Timeout opt) (runPing_final ip srcAddr icmpID opt w).
Proof.
  intros Hw Hc HT. unfold runPing_final.
  apply (loop_inv_loop _ _ _ _ _ (Z.to_nat (Count opt))); simpl;
    [unfold_int64; nia|solve_int64|lia|by apply loop_inv_init].
Qed.

(** The result of a cycle is the specified result of its samples, which
    lie within the timeout. *)
Lemma runPing_result_spec ipAddr ip srcAddr icmpID opt w :
  world_ok w → int64 (Count opt) → Count opt * Timeout opt ≤ max_int64 →
  (runPing ipAddr ip srcAddr icmpID opt w).1.1.1 =
    result_spec ipAddr ip (Count opt) (runPing_samples ip srcAddr icmpID opt w) ∧
  samples_ok (Timeout opt) (runPing_samples ip srcAddr icmpID opt w).
Proof.
  intros Hw Hc HT.
  destruct (runPing_final_inv ip srcAddr icmpID opt w Hw Hc HT) as [Hret Hs _ _].
  pose proof (runPing_samples_length ip srcAddr icmpID opt w) as Hlen.
  split; [|done]. unfold runPing. cbn [fst].
  rewrite Hret. by apply (build_result_spec _ _ _ (Timeout opt)).
Qed.

(** C1.  Refinement.  When the count is a 64-bit integer and
    [count * timeout] does not exceed the largest one, the [PingResult]
    that [runPing] returns is the specified result [result_spec] of the
    samples it recorded: success flag, exact drop rate, sum, truncated
    average, best, worst, the two standard deviations, the range and the
    counters are the reference statistics computed in unbounded
    arithmetic, so no 64-bit operation of the loop wrapped around and no
    conversion of these statistics left the 64-bit range; the squared
    deviation is the reference value converted as the code converts it;
    the error is [nil], every sample lies between zero and the timeout,
    and there are at most [count] of them. *)
Theorem runPing_refines ipAddr ip srcAddr icmpID opt w :
  world_ok w → int64 (Count opt) → Count opt * Timeout opt ≤ max_int64 →
  let samples := runPing_samples ip srcAddr icmpID opt w in
  (runPing ipAddr ip srcAddr icmpID opt w).1.1 =
    (result_spec ipAddr ip (Count opt) samples, None) ∧
  samples_ok (Timeout opt) samples ∧
  (length samples ≤ Z.to_nat (Count opt))%nat.
Proof.
  intros Hw Hc HT samples.
  destruct (runPing_result_spec ipAddr ip srcAddr icmpID opt w Hw Hc HT) as [Hres Hs].
  split_and!; [|done|apply runPing_samples_length].
  subst samples. rewrite <-Hres. by unfold runPing.
Qed.

(** The average lies at most one microsecond below the smallest sample
    and never above the largest. *)
Lemma avg_ref_between l :
  l ≠ [] → Forall (λ e, 0 ≤ e) l →
  minZ 0 l - Microsecond < avg_ref l ≤ maxZ 0 l.
Proof.
  intros Hne Hpos. unfold avg_ref, Microsecond.
  set (n := Z.of_nat (length l)). set (S := sumZ l).
  assert (0 < n) by (unfold n; destruct l; simpl; [done|lia]).
  assert (n * minZ 0 l ≤ S ≤ n * maxZ 0 l) as [Hlo Hhi].
  { apply sumZ_bounds, Forall_forall. intros x Hx.
    split; [by apply minZ_le|by apply maxZ_ge]. }
  assert (0 ≤ S) by (by apply sumZ_nonneg).
  rewrite (Z.quot_div_nonneg S), Z.quot_div_nonneg by (try apply Z.div_pos; lia).
  rewrite Z.div_div by lia. set (q := S `div` (1000 * n)).
  pose proof (Z.div_mod S (1000 * n) ltac:(lia)) as Hdm.
  pose proof (Z.mod_pos_bound S (1000 * n) ltac:(lia)) as Hmod.
  fold q in Hdm. split; nia.
Qed.

(** The latencies of the specified result of positive samples. *)
Lemma result_spec_order ipAddr ip count l :
  l ≠ [] → Forall (λ e, 0 < e) l →
  let res := result_spec ipAddr ip count l in
  BestTime res = minZ 0 l ∧ WorstTime res = maxZ 0 l ∧ SumTime res = sumZ l ∧
  BestTime res - Microsecond < AvgTime res ≤ WorstTime res ∧
  BestTime res ≤ WorstTime res.
Proof.
  intros Hne Hpos. cbn [BestTime WorstTime SumTime AvgTime result_spec].
  destruct (best_ref_min l Hpos) as [-> _].
  pose proof (avg_ref_between l Hne) as Havg. pose proof (minZ_le_maxZ 0 l).
  split_and!; try done; apply Havg; eapply Forall_impl; [exact Hpos| |exact Hpos|]; simpl; lia.
Qed.

(** C8.  With samples that are all positive, the best time of the result
    is the smallest sample, the worst time the largest, the sum their
    sum, and the average lies between the best time less one microsecond
    and the worst time. *)
Theorem runPing_latency_order ipAddr ip srcAddr icmpID opt w :
  world_ok w → int64 (Count opt) → Count opt * Timeout opt ≤ max_int64 →
  let samples := runPing_samples ip srcAddr icmpID opt w in
  let res := (runPing ipAddr ip srcAddr icmpID opt w).1.1.1 in
  samples ≠ [] → Forall (λ e, 0 < e) samples →
  BestTime res = minZ 0 samples ∧ WorstTime res = maxZ 0 samples ∧
  SumTime res = sumZ samples ∧
  BestTime res - Microsecond < AvgTime res ≤ WorstTime res ∧
  BestTime res ≤ WorstTime res.
Proof.
  intros Hw Hc HT samples res Hne Hpos.
  destruct (runPing_result_spec ipAddr ip srcAddr icmpID opt w Hw Hc HT) as [Hres _].
  unfold res. rewrite Hres. by apply result_spec_order.
Qed.

(** The zero value [PingResult{}], which a target holds before its
    first cycle: no address, no success, zero in every numeric field. *)
Lemma PingResult_zero_fields :
  let r := PingResult_zero in
  (DestAddr r, DestIp r, Success r, DropRate r) = ("", "", false, FVal 0%Qc) ∧
  Forall (λ z, z = 0)
    [SumTime r; BestTime r; AvgTime r; WorstTime r; SquaredDeviationTime r;
     UncorrectedSDTime r; CorrectedSDTime r; RangeTime r; SntSummary r;
     SntFailSummary r; SntTimeSummary r].
Proof. split; [done|]. by repeat constructor. Qed.

(** Both branches of the test of the error return the value and the
    error they were given: an error of the callee reaches the caller. *)
Lemma return_checked_spec {A : Type} (out : A) (err : option error) :
  return_checked out err = (out, err).
Proof. by destruct err. Qed.

(** What [PingString] prints is read off the result of [runPing]: the
    count it was given, the drop rate, and the worst, average and best
    time in that order; its error is that of [runPing]. *)
Lemma PingString_runPing addr ip srcAddr count timeout interval icmpID w :
  let out := runPing addr ip srcAddr icmpID (mkPingOptions count timeout interval) w in
  PingString addr ip srcAddr count timeout interval icmpID w =
    (count, DropRate out.1.1.1,
     mkRtt (WorstTime out.1.1.1) (AvgTime out.1.1.1) (BestTime out.1.1.1),
     out.1.1.2, out.1.2).
Proof. reflexivity. Qed.

(** C9.  [PingString] labels its round-trip times "min/avg/max" and prints
    the worst, the average and the best time in that order: with positive
    samples the time printed as minimum is the largest sample and the
    time printed as maximum the smallest.  Its first line carries the
    count it was given and the drop rate of the cycle, and it returns no
    error. *)
Theorem PingString_rtt_swapped addr ip srcAddr count timeout interval icmpID w :
  world_ok w → int64 count → count * timeout ≤ max_int64 →
  let samples := runPing_samples ip srcAddr icmpID (mkPingOptions count timeout interval) w in
  let out := PingString addr ip srcAddr count timeout interval icmpID w in
  let rtt := out.1.1.2 in
  samples ≠ [] → Forall (λ e, 0 < e) samples →
  rtt_min rtt = maxZ 0 samples ∧ rtt_max rtt = minZ 0 samples ∧
  rtt_max rtt ≤ rtt_min rtt ∧
  out.1.1.1 = (count, int_ratio (count - Z.of_nat (length samples)) count) ∧
  out.1.2 = None.
Proof.
  intros Hw Hc HT samples out rtt Hne Hpos.
  destruct (runPing_result_spec addr ip srcAddr icmpID
              (mkPingOptions count timeout interval) w Hw Hc HT) as [Hres _].
  destruct (result_spec_order addr ip count samples Hne Hpos) as (Hbest & Hworst & _ & _ & Hle).
  cbn [Count] in Hres. fold samples in Hres.
  unfold rtt, out. rewrite PingString_runPing. cbn [fst snd rtt_min rtt_max].
  rewrite Hres, Hbest, Hworst. split_and!; try done. by rewrite <-Hbest, <-Hworst.
Qed.

End runPing_correct.

(** ** What a cycle does, whatever the transport answers *)

Section runPing_behaviour.
Context `{EchoTransport}.
Implicit Types (ipAddr ip srcAddr : string) (icmpID count : Z) (opt : PingOptions) (w : world).

(** The log of a cycle and the replies it received. *)
Definition runPing_log ip srcAddr icmpID opt w : list event :=
  ls_log (runPing_final ip srcAddr icmpID opt w).
Definition runPing_replies ip srcAddr icmpID opt w : list (IcmpReturn * option error) :=
  replies_of (runPing_log ip srcAddr icmpID opt w).

Lemma runPing_final_log_inv ip srcAddr icmpID opt w :
  int64 (Count opt) →
  log_inv ip srcAddr icmpID (Timeout opt) (Interval opt) (Z.to_nat (Count opt)) (runPing_final ip srcAddr icmpID opt w).
Proof.
  intros Hc. unfold runPing_final.
  rewrite <-(Nat.add_0_r (Z.to_nat (Count opt))) at 1.
  apply log_inv_loop; [solve_int64|apply log_inv_init].
Qed.

(** The samples of a cycle are the times of its accepted replies. *)
Lemma runPing_samples_accepted ip srcAddr icmpID opt w :
  int64 (Count opt) →
  runPing_samples ip srcAddr icmpID opt w =
    accepted_times ip (runPing_replies ip srcAddr icmpID opt w).
Proof. intros Hc. by destruct (runPing_final_log_inv ip srcAddr icmpID opt w Hc). Qed.

(** C2.  Every one of the [count] attempts is made, none aborts the
    cycle, and the samples of the cycle are exactly the times of the
    accepted replies, in the order received: a reply with an error,
    without success or from another address leaves no sample. *)
Theorem runPing_records_accepted ip srcAddr icmpID opt w :
  int64 (Count opt) →
  length (runPing_replies ip srcAddr icmpID opt w) = Z.to_nat (Count opt) ∧
  runPing_samples ip srcAddr icmpID opt w =
    accepted_times ip (runPing_replies ip srcAddr icmpID opt w).
Proof.
  intros Hc. split; [|by apply runPing_samples_accepted].
  by destruct (runPing_final_log_inv ip srcAddr icmpID opt w Hc).
Qed.

(** C3.  Sequence numbers advance only on success: the request of every
    attempt carries the number of replies accepted before it, and the
    requests carry the destination, the source, the identifier and the
    timeout the cycle was given. *)
Theorem runPing_seq_numbers ip srcAddr icmpID opt w :
  int64 (Count opt) →
  seqs_of (runPing_log ip srcAddr icmpID opt w) =
    sent_seqs ip (runPing_replies ip srcAddr icmpID opt w) ∧
  calls_of (runPing_log ip srcAddr icmpID opt w) =
    mkIcmpCall ip srcAddr defaultTTL icmpID (Timeout opt) <$>
      seqs_of (runPing_log ip srcAddr icmpID opt w).
Proof.
  intros Hc. by destruct (runPing_final_log_inv ip srcAddr icmpID opt w Hc).
Qed.

(** C4.  The cycle sleeps once, for [interval], after every accepted
    reply and never after a lost one: it makes as many pauses as it has
    samples, and its log is the sequence of its requests, each with its
    reply and followed at once by the pause when the reply is accepted. *)
Theorem runPing_sleeps ip srcAddr icmpID opt w :
  int64 (Count opt) →
  sleeps_of (runPing_log ip srcAddr icmpID opt w) =
    replicate (length (runPing_samples ip srcAddr icmpID opt w)) (Interval opt) ∧
  runPing_log ip srcAddr icmpID opt w =
    log_of ip (Interval opt)
      (zip (calls_of (runPing_log ip srcAddr icmpID opt w))
           (runPing_replies ip srcAddr icmpID opt w)).
Proof.
  intros Hc. split; [by destruct (runPing_final_log_inv ip srcAddr icmpID opt w Hc)|].
  apply (shape_inv_loop ip srcAddr icmpID (Timeout opt) (Interval opt)).
Qed.

(** The number of failures and the drop rate, from the counters alone. *)
Lemma runPing_counters ipAddr ip srcAddr icmpID opt w :
  int64 (Count opt) →
  let res := (runPing ipAddr ip srcAddr icmpID opt w).1.1.1 in
  let K := Z.of_nat (length (runPing_samples ip srcAddr icmpID opt w)) in
  SntSummary res = Count opt ∧ SntFailSummary res = Count opt - K ∧
  DropRate res = int_ratio (Count opt - K) (Count opt) ∧
  Success res = bool_decide (0 < K).
Proof.
  intros Hc res K.
  pose proof (runPing_final_log_inv ip srcAddr icmpID opt w Hc) as Hinv.
  pose proof (log_inv_length _ _ _ _ _ _ _ Hinv) as Hlen.
  destruct Hinv as [_ _ _ _ Hsucc _ Hsuccess _ _].
  unfold res, K, runPing, runPing_samples, build_result. cbn [fst SntSummary SntFailSummary DropRate Success].
  rewrite Hsucc, Hsuccess, (wrap64_id (Count opt - _)) by solve_int64.
  split_and!; [done..|]. apply bool_decide_ext.
  destruct (allTime _); simpl; split; (done || lia).
Qed.

(** C5.  For a positive count the drop rate is exactly (N - K) / N, where
    K is the number of accepted replies; it lies between 0 and 1; the
    result counts N packets sent and N - K failed. *)
Theorem runPing_drop_rate ipAddr ip srcAddr icmpID opt w :
  0 < Count opt → int64 (Count opt) →
  let res := (runPing ipAddr ip srcAddr icmpID opt w).1.1.1 in
  let K := Z.of_nat (length (accepted_times ip (runPing_replies ip srcAddr icmpID opt w))) in
  let q := (Qc_of_Z (Count opt - K) / Qc_of_Z (Count opt))%Qc in
  DropRate res = FVal q ∧ (0 ≤ q)%Qc ∧ (q ≤ 1)%Qc ∧
  SntSummary res = Count opt ∧ SntFailSummary res = Count opt - K.
Proof.
  intros Hpos Hc res K q.
  pose proof (runPing_samples_accepted ip srcAddr icmpID opt w Hc) as Hs.
  destruct (runPing_counters ipAddr ip srcAddr icmpID opt w Hc) as (Hsnt & Hfail & Hdr & _).
  pose proof (runPing_samples_length ip srcAddr icmpID opt w) as Hlen.
  rewrite Hs in Hfail, Hdr, Hlen. fold K in Hfail, Hdr.
  destruct (Qc_ratio_bounds (Count opt - K) (Count opt)) as [H0 H1]; [unfold K; lia|done|].
  split_and!; [|done..]. unfold res. rewrite Hdr. apply int_ratio_nonzero. lia.
Qed.

(** C6.  A cycle in which no reply is accepted still returns normally:
    no error, success false, drop rate 1 for a positive count (NaN for a
    count of zero), every latency and dispersion field zero, all packets
    counted as failed. *)
Theorem runPing_no_success ipAddr ip srcAddr icmpID opt w :
  int64 (Count opt) →
  Forall (λ r, accepted ip r = false) (runPing_replies ip srcAddr icmpID opt w) →
  (runPing ipAddr ip srcAddr icmpID opt w).1.1 =
    (mkPingResult ipAddr ip false (int_ratio (Count opt) (Count opt)) 0 0 0 0 0 0 0 0
       (Count opt) (Count opt) 0, None) ∧
  (0 < Count opt → int_ratio (Count opt) (Count opt) = FVal 1%Qc) ∧
  (Count opt = 0 → int_ratio (Count opt) (Count opt) = FNaN).
Proof.
  intros Hc Hrej.
  pose proof (runPing_final_log_inv ip srcAddr icmpID opt w Hc) as [_ Hs _ _ _ _ _ Hz _].
  fold (runPing_log ip srcAddr icmpID opt w) in Hs.
  fold (runPing_replies ip srcAddr icmpID opt w) in Hs.
  assert (allTime (ls_ret (runPing_final ip srcAddr icmpID opt w)) = []) as Hnil.
  { rewrite Hs. unfold accepted_times. rewrite filter_none; [done|].
    eapply Forall_impl; [exact Hrej|]. simpl. intros r. apply Is_true_false_2. }
  split_and!.
  - unfold runPing. cbn [fst]. rewrite (Hz Hnil). unfold build_result. simpl.
    by rewrite Z.sub_0_r, wrap64_id.
  - intros. apply int_ratio_self. lia.
  - by intros ->.
Qed.

End runPing_behaviour.

(** ** Cycles against the scripted transport *)

Section scripted.
Implicit Types (ipAddr ip srcAddr : string) (icmpID : Z) (timeout interval L : Duration).
Implicit Types (w : @world script_transport) (n N : nat).

(** The answers of the scripted transport to [n] calls with the same
    timeout: the prepared replies, a timeout for a late one and after the
    script has run out. *)
Fixpoint script_answers timeout n w : list (IcmpReturn * option error) :=
  match n with
  | O => []
  | S n' =>
      (match w with
       | [] => timeout_reply
       | r :: _ => if bool_decide (icmp_Elapsed r.1 ≤ timeout) then r else timeout_reply
       end) :: script_answers timeout n' (tail w)
  end.

Lemma script_Icmp_answer c w :
  script_Icmp c w = (hd timeout_reply (script_answers (call_timeout c) 1 w), tail w).
Proof. destruct w as [|r w]; [done|]. simpl. by case_bool_decide. Qed.

Lemma script_loop_replies ip srcAddr icmpID timeout interval n (st : loop_state) :
  replies_of (ls_log (runPing_loop n ip srcAddr icmpID timeout interval st)) =
  replies_of (ls_log st) ++ script_answers timeout n (ls_world st).
Proof.
  revert st. induction n as [|n IH]; intros st; [by rewrite app_nil_r|].
  rewrite runPing_loop_S, IH, runPing_step_replies, <-app_assoc. f_equal.
  rewrite runPing_step_unfold. unfold answer_at. simpl.
  rewrite script_Icmp_answer. by destruct (accepted _ _).
Qed.

Lemma script_answers_replicate timeout n m (r : IcmpReturn * option error) :
  icmp_Elapsed r.1 ≤ timeout → (n ≤ m)%nat →
  script_answers timeout n (replicate m r) = replicate n r.
Proof.
  intros Hr. revert m. induction n as [|n IH]; intros [|m] Hm; [done..|lia|].
  simpl. rewrite bool_decide_eq_true_2 by done. f_equal. apply IH. lia.
Qed.

Lemma accepted_ok_reply ip L : accepted ip (ok_reply ip L) = true.
Proof. unfold accepted. simpl. by rewrite String.eqb_refl. Qed.

Lemma accepted_times_replicate ip n L :
  accepted_times ip (replicate n (ok_reply ip L)) = replicate n L.
Proof.
  unfold accepted_times. rewrite filter_all.
  - by rewrite fmap_replicate.
  - apply Forall_replicate. by rewrite accepted_ok_reply.
Qed.

Lemma best_ref_replicate n L : best_ref (replicate (S n) L) = L.
Proof.
  induction n as [|n IH].
  - unfold best_ref, best_step. simpl. done.
  - rewrite replicate_S_end, best_ref_snoc, IH. unfold best_step.
    repeat case_bool_decide; simpl; lia.
Qed.

Lemma avg_ref_replicate n L : 0 ≤ L → avg_ref (replicate (S n) L) = L - L `mod` 1000.
Proof.
  intros HL. unfold avg_ref, Microsecond. rewrite sumZ_replicate, length_replicate.
  rewrite <-(quot_mul_trunc L 1000) by lia. f_equal.
  apply quot_quot_mul; lia.
Qed.

(** C7.  When all [N] attempts are answered by the destination after the
    same time [L] within the timeout, the cycle reports success, a drop
    rate of 0, best and worst time [L], the sum [N * L], no dispersion and
    no range.  The average is [L] truncated to whole microseconds. *)
Theorem runPing_all_succeed ipAddr ip srcAddr icmpID N L timeout interval :
  (0 < N)%nat → Z.of_nat N ≤ max_int64 →
  0 ≤ L ≤ timeout → Z.of_nat N * timeout ≤ max_int64 →
  (runPing ipAddr ip srcAddr icmpID (mkPingOptions (Z.of_nat N) timeout interval)
     (replicate N (ok_reply ip L))).1.1.1 =
  mkPingResult ipAddr ip true (FVal 0%Qc) (Z.of_nat N * L) L (L - L `mod` 1000) L
    0 0 0 0 (Z.of_nat N) 0 0.
Proof.
  intros HN HN' HL HT. set (opt := mkPingOptions (Z.of_nat N) timeout interval).
  set (w := replicate N (ok_reply ip L) : @world script_transport).
  assert (int64 (Count opt)) as Hc by (simpl; solve_int64).
  assert (script_ok w) as Hw by (apply Forall_replicate; simpl; lia).
  assert (runPing_samples ip srcAddr icmpID opt w = replicate N L) as Hs.
  { rewrite (runPing_samples_accepted ip srcAddr icmpID opt w Hc).
    unfold runPing_replies, runPing_log, runPing_final.
    rewrite script_loop_replies. simpl. rewrite Nat2Z.id.
    unfold w. rewrite script_answers_replicate by (simpl; lia).
    apply accepted_times_replicate. }
  destruct (runPing_result_spec (Hok := script_transport_ok)
              ipAddr ip srcAddr icmpID opt w Hw Hc HT) as [Hres _].
  rewrite Hs in Hres. rewrite Hres. unfold result_spec.
  destruct N as [|n]; [lia|]. simpl Count.
  rewrite length_replicate, Z.sub_diag, int_ratio_0_l by lia.
  rewrite sumZ_replicate, avg_ref_replicate, best_ref_replicate, maxZ_replicate by lia.
  rewrite TimeSquaredDeviation_replicate, TimeUncorrectedDeviation_replicate,
    TimeCorrectedDeviation_replicate, TimeRange_replicate.
  done.
Qed.

End scripted.

(** ** Runs on the scripted transport *)

(** Four attempts at 10.0.0.1: lost, answered after 5 µs, lost, answered
    after 7 µs; timeout 1 ms, interval 10 ns. *)
Definition script4 : @world script_transport :=
  [lost_reply; ok_reply "10.0.0.1" 5000; lost_reply; ok_reply "10.0.0.1" 7000].
Definition opt4 : PingOptions := mkPingOptions 4 1000000 10.

Lemma script4_ok : script_ok script4.
Proof. repeat constructor; simpl; lia. Defined.

Lemma runPing_refines_witness :
  let samples := runPing_samples "10.0.0.1" "" 7 opt4 script4 in
  (runPing "host" "10.0.0.1" "" 7 opt4 script4).1.1 =
    (result_spec "host" "10.0.0.1" (Count opt4) samples, None) ∧
  samples_ok (Timeout opt4) samples ∧
  (length samples ≤ Z.to_nat (Count opt4))%nat.
Proof.
  apply (runPing_refines "host" "10.0.0.1" "" 7 opt4 script4);
    [exact script4_ok|vm_compute; split; discriminate|vm_compute; discriminate].
Defined.

Lemma opt4_int64 : int64 (Count opt4).
Proof. vm_compute. split; discriminate. Defined.

Lemma opt4_fits : Count opt4 * Timeout opt4 ≤ max_int64.
Proof. vm_compute. discriminate. Defined.

Lemma runPing_records_accepted_witness :
  length (runPing_replies "10.0.0.1" "" 7 opt4 script4) = Z.to_nat (Count opt4) ∧
  runPing_samples "10.0.0.1" "" 7 opt4 script4 =
    accepted_times "10.0.0.1" (runPing_replies "10.0.0.1" "" 7 opt4 script4).
Proof. apply (runPing_records_accepted "10.0.0.1" "" 7 opt4 script4), opt4_int64. Defined.

Lemma runPing_seq_numbers_witness :
  seqs_of (runPing_log "10.0.0.1" "" 7 opt4 script4) =
    sent_seqs "10.0.0.1" (runPing_replies "10.0.0.1" "" 7 opt4 script4) ∧
  calls_of (runPing_log "10.0.0.1" "" 7 opt4 script4) =
    mkIcmpCall "10.0.0.1" "" defaultTTL 7 (Timeout opt4) <$>
      seqs_of (runPing_log "10.0.0.1" "" 7 opt4 script4).
Proof. apply (runPing_seq_numbers "10.0.0.1" "" 7 opt4 script4), opt4_int64. Defined.

Lemma runPing_sleeps_witness :
  sleeps_of (runPing_log "10.0.0.1" "" 7 opt4 script4) =
    replicate (length (runPing_samples "10.0.0.1" "" 7 opt4 script4)) (Interval opt4) ∧
  runPing_log "10.0.0.1" "" 7 opt4 script4 =
    log_of "10.0.0.1" (Interval opt4)
      (zip (calls_of (runPing_log "10.0.0.1" "" 7 opt4 script4))
           (runPing_replies "10.0.0.1" "" 7 opt4 script4)).
Proof. apply (runPing_sleeps "10.0.0.1" "" 7 opt4 script4), opt4_int64. Defined.

Lemma runPing_drop_rate_witness :
  let res := (runPing "host" "10.0.0.1" "" 7 opt4 script4).1.1.1 in
  let K := Z.of_nat (length (accepted_times "10.0.0.1"
                               (runPing_replies "10.0.0.1" "" 7 opt4 script4))) in
  let q := (Qc_of_Z (Count opt4 - K) / Qc_of_Z (Count opt4))%Qc in
  DropRate res = FVal q ∧ (0 ≤ q)%Qc ∧ (q ≤ 1)%Qc ∧
  SntSummary res = Count opt4 ∧ SntFailSummary res = Count opt4 - K.
Proof.
  apply (runPing_drop_rate "host" "10.0.0.1" "" 7 opt4 script4); [reflexivity|exact opt4_int64].
Defined.

(** Two attempts, both lost. *)
Definition script_lost : @world script_transport := [lost_reply; lost_reply].
Definition opt2 : PingOptions := mkPingOptions 2 1000000 10.

Lemma runPing_no_success_witness :
  (runPing "host" "10.0.0.1" "" 7 opt2 script_lost).1.1 =
    (mkPingResult "host" "10.0.0.1" false (int_ratio (Count opt2) (Count opt2))
       0 0 0 0 0 0 0 0 (Count opt2) (Count opt2) 0, None) ∧
  (0 < Count opt2 → int_ratio (Count opt2) (Count opt2) = FVal 1%Qc) ∧
  (Count opt2 = 0 → int_ratio (Count opt2) (Count opt2) = FNaN).
Proof.
  apply (runPing_no_success "host" "10.0.0.1" "" 7 opt2 script_lost).
  - vm_compute. split; discriminate.
  - vm_compute. repeat constructor.
Defined.

Lemma runPing_all_succeed_witness :
  (runPing "host" "10.0.0.1" "" 7 (mkPingOptions (Z.of_nat 3) 1000000 10)
     (replicate 3 (ok_reply "10.0.0.1" 2500))).1.1.1 =
  mkPingResult "host" "10.0.0.1" true (FVal 0%Qc) (Z.of_nat 3 * 2500) 2500
    (2500 - 2500 `mod` 1000) 2500 0 0 0 0 (Z.of_nat 3) 0 0.
Proof.
  apply (runPing_all_succeed "host" "10.0.0.1" "" 7 3 2500 1000000 10);
    [lia|vm_compute; discriminate|lia|vm_compute; discriminate].
Defined.

Lemma samples4_positive :
  runPing_samples "10.0.0.1" "" 7 opt4 script4 ≠ [] ∧
  Forall (λ e, 0 < e) (runPing_samples "10.0.0.1" "" 7 opt4 script4).
Proof. vm_compute. split; [discriminate|repeat constructor]. Defined.

Lemma runPing_latency_order_witness :
  let samples := runPing_samples "10.0.0.1" "" 7 opt4 script4 in
  let res := (runPing "host" "10.0.0.1" "" 7 opt4 script4).1.1.1 in
  BestTime res = minZ 0 samples ∧ WorstTime res = maxZ 0 samples ∧
  SumTime res = sumZ samples ∧
  BestTime res - Microsecond < AvgTime res ≤ WorstTime res ∧
  BestTime res ≤ WorstTime res.
Proof.
  apply (runPing_latency_order (Hok := script_transport_ok)
           "host" "10.0.0.1" "" 7 opt4 script4 script4_ok
           opt4_int64 opt4_fits (proj1 samples4_positive) (proj2 samples4_positive)).
Defined.

Lemma PingString_rtt_swapped_witness :
  let samples := runPing_samples "10.0.0.1" "" 7 (mkPingOptions 4 1000000 10) script4 in
  let out := PingString "host" "10.0.0.1" "" 4 1000000 10 7 script4 in
  let rtt := out.1.1.2 in
  rtt_min rtt = maxZ 0 samples ∧ rtt_max rtt = minZ 0 samples ∧
  rtt_max rtt ≤ rtt_min rtt ∧
  out.1.1.1 = (4, int_ratio (4 - Z.of_nat (length samples)) 4) ∧
  out.1.2 = None.
Proof.
  apply (PingString_rtt_swapped (Hok := script_transport_ok)
           "host" "10.0.0.1" "" 4 1000000 10 7 script4 script4_ok
           opt4_int64 opt4_fits (proj1 samples4_positive) (proj2 samples4_positive)).
Defined.

(** Attempts fail, succeed, fail, succeed: the sequence numbers sent are
    0, 0, 1, 1, and the cycle sleeps twice. *)
Example runPing_seq_example :
  seqs_of (runPing_log "10.0.0.1" "" 7 opt4 script4) = [0; 0; 1; 1] ∧
  sleeps_of (runPing_log "10.0.0.1" "" 7 opt4 script4) = [10; 10].
Proof. by vm_compute. Qed.

(** The printed line of that cycle: "min" 7 µs, "avg" 6 µs, "max" 5 µs. *)
Example PingString_example :
  (PingString "host" "10.0.0.1" "" 4 1000000 10 7 script4).1.1.2 = mkRtt 7000 6000 5000.
Proof. by vm_compute. Qed.

(** Samples of 10, 20 and 30 ms: the average is 20 ms, the population
    variance 66.67 ms² (truncated, in ns²), its root 8.16 ms, the
    corrected deviation 10 ms and the range 20 ms. *)
Example runPing_dispersion_example :
  let w : @world script_transport :=
    [ok_reply "h" 10000000; ok_reply "h" 20000000; ok_reply "h" 30000000] in
  let res := (runPing "h" "h" "" 1 (mkPingOptions 3 1000000000 0) w).1.1.1 in
  (AvgTime res, SquaredDeviationTime res, UncorrectedSDTime res, CorrectedSDTime res,
   RangeTime res) = (20000000, 66666666666666, 8164965, 10000000, 20000000).
Proof. by vm_compute. Qed.

(** The squared deviation is a time squared: with one reply after 1 ns
    and one after 10 s, within a timeout of 10 s, it is about 2.5 * 10^19
    ns², which no 64-bit integer holds; the field reports the smallest
    integer although every other field is exact. *)
Example runPing_SquaredDeviation_overflow :
  let w : @world script_transport := [ok_reply "h" 1; ok_reply "h" (10 * Second)] in
  let opt := mkPingOptions 2 (10 * Second) 0 in
  let res := (runPing "h" "h" "" 1 opt w).1.1.1 in
  Count opt * Timeout opt ≤ max_int64 ∧
  TimeSquaredDeviation (runPing_samples "h" "" 1 opt w) = 24999999995000000000 ∧
  SquaredDeviationTime res = min_int64 ∧ UncorrectedSDTime res = 4999999999.
Proof. by vm_compute. Qed.

(** Without the bound on [count * timeout] the sum wraps around: two
    samples of 2^62 ns give a negative sum. *)
Example runPing_sum_overflow :
  let w : @world script_transport := [ok_reply "h" (2 ^ 62); ok_reply "h" (2 ^ 62)] in
  let res := (runPing "h" "h" "" 1 (mkPingOptions 2 (2 ^ 62) 0) w).1.1.1 in
  SumTime res = - 2 ^ 63.
Proof. by vm_compute. Qed.

(** ** Well-formed results *)

(** What every field of a result that depends on the samples satisfies
    for a cycle of [count] attempts with the timeout [timeout]. *)
Record PingResult_wf (count : Z) (timeout : Duration) (res : PingResult) : Prop := {
  wf_sent : SntSummary res = count;
  wf_failed : 0 ≤ SntFailSummary res ≤ count;
  wf_success : Success res = true ↔ SntFailSummary res < count;
  wf_best : 0 ≤ BestTime res ≤ WorstTime res;
  wf_worst : WorstTime res ≤ Z.max 0 timeout;
  wf_avg : 0 ≤ AvgTime res ≤ WorstTime res;
  wf_sum : 0 ≤ SumTime res ≤ (count - SntFailSummary res) * WorstTime res;
  wf_range : 0 ≤ RangeTime res ≤ WorstTime res;
  wf_time : SntTimeSummary res = RangeTime res;
  wf_usd : 0 ≤ UncorrectedSDTime res ≤ WorstTime res;
  wf_csd : 0 ≤ CorrectedSDTime res ≤ 2 * WorstTime res;
  wf_sqd : WorstTime res * WorstTime res ≤ max_int64 →
           0 ≤ SquaredDeviationTime res ≤ WorstTime res * WorstTime res;
  wf_int64 : Forall int64
    [SumTime res; BestTime res; AvgTime res; WorstTime res; SquaredDeviationTime res;
     UncorrectedSDTime res; CorrectedSDTime res; RangeTime res; SntSummary res;
     SntFailSummary res; SntTimeSummary res];
}.

Section result_wf.
Implicit Types (l : list Duration) (e b T : Duration).

Lemma best_ref_bounds l : Forall (λ e, 0 ≤ e) l → 0 ≤ best_ref l ≤ maxZ 0 l.
Proof.
  induction l as [|e l IH] using rev_ind; [done|].
  rewrite Forall_app, Forall_singleton. intros [Hl He]. specialize (IH Hl).
  rewrite best_ref_snoc, <-(maxZ_step l e) by done. unfold best_step.
  repeat case_bool_decide; cbn [orb]; lia.
Qed.

Lemma maxZ_le_timeout T l : samples_ok T l → maxZ 0 l ≤ Z.max 0 T.
Proof.
  intros Hl. destruct l as [|x l]; [simpl; lia|].
  unfold samples_ok in Hl. rewrite Forall_forall in Hl.
  pose proof (Hl _ (maxZ_elem 0 (x :: l) ltac:(done))). lia.
Qed.

Lemma avg_ref_le_max l : Forall (λ e, 0 ≤ e) l → 0 ≤ avg_ref l ≤ maxZ 0 l.
Proof.
  intros Hl. destruct l as [|x l]; [done|].
  pose proof (avg_ref_between (x :: l) ltac:(done) Hl).
  pose proof (avg_ref_bounds (x :: l) (sumZ_nonneg _ Hl)). lia.
Qed.

(** Samples that are not negative lie between zero and the largest. *)
Lemma samples_ok_max l : Forall (λ e, 0 ≤ e) l → samples_ok (maxZ 0 l) l.
Proof.
  intros Hl. rewrite Forall_forall in Hl. apply Forall_forall. intros x Hx.
  split; [by apply Hl|by apply maxZ_ge].
Qed.

Lemma sumZ_le_max l : Forall (λ e, 0 ≤ e) l → 0 ≤ sumZ l ≤ Z.of_nat (length l) * maxZ 0 l.
Proof. intros Hl. pose proof (sumZ_bounds 0 (maxZ 0 l) l (samples_ok_max l Hl)). lia. Qed.

(** The squared deviation is converted exactly when the square of the
    largest sample fits in 64 bits. *)
Lemma SquaredDeviation_exact l :
  Forall (λ e, 0 ≤ e) l → maxZ 0 l * maxZ 0 l ≤ max_int64 →
  Duration_of_trunc (TimeSquaredDeviation l) = TimeSquaredDeviation l ∧
  0 ≤ TimeSquaredDeviation l ≤ maxZ 0 l * maxZ 0 l.
Proof.
  intros Hl Hsq. pose proof (TimeSquaredDeviation_bounds _ _ (samples_ok_max l Hl)).
  split; [|done]. apply Duration_of_trunc_id. solve_int64.
Qed.

Lemma TimeRange_le_max l : Forall (λ e, 0 ≤ e) l → 0 ≤ TimeRange l ≤ maxZ 0 l.
Proof.
  intros Hl. split; [apply TimeRange_nonneg|]. destruct l as [|x l]; [done|].
  unfold TimeRange. rewrite Forall_forall in Hl.
  pose proof (Hl _ (minZ_elem 0 (x :: l) ltac:(done))). lia.
Qed.

(** The specified result of samples within the timeout is well formed. *)
Lemma result_spec_wf ipAddr ip count T l :
  0 ≤ count → count * T ≤ max_int64 → int64 count →
  samples_ok T l → (length l ≤ Z.to_nat count)%nat →
  PingResult_wf count T (result_spec ipAddr ip count l).
Proof.
  intros Hc HT Hi Hl Hlen. pose proof (samples_ok_nonneg _ _ Hl) as Hpos.
  pose proof (best_ref_bounds l Hpos). pose proof (avg_ref_le_max l Hpos).
  pose proof (sumZ_le_max l Hpos). pose proof (TimeRange_le_max l Hpos).
  pose proof (maxZ_le_timeout T l Hl). pose proof (samples_ok_sum T l Hl).
  pose proof (maxZ_nonneg l Hpos) as Hmax.
  pose proof (TimeUncorrectedDeviation_bounds _ l Hmax (samples_ok_max l Hpos)).
  pose proof (TimeCorrectedDeviation_bounds _ l Hmax (samples_ok_max l Hpos)).
  destruct (dispersion_int64 T count l) as (?&?&?); [done..|].
  pose proof (Duration_of_trunc_int64 (TimeSquaredDeviation l)).
  pose proof (Z2Nat.id count Hc) as Hid.
  assert (Z.of_nat (length l) * T ≤ max_int64 ∧ maxZ 0 l ≤ max_int64) as [??].
  { destruct l as [|x l]; [done|]. assert (0 ≤ T) by (inversion Hl; lia).
    assert (1 ≤ Z.of_nat (length (x :: l)) ≤ count) by (simpl in *; lia).
    split; nia. }
  split; cbn [result_spec SntSummary SntFailSummary Success BestTime WorstTime AvgTime
              SumTime RangeTime SntTimeSummary UncorrectedSDTime CorrectedSDTime
              SquaredDeviationTime]; try done; try lia.
  - rewrite bool_decide_eq_true. destruct l; simpl in *; split; intros; try done; lia.
  - intros Hsq. by destruct (SquaredDeviation_exact l Hpos Hsq) as [-> ?].
  - repeat (apply Forall_cons; split); first [done|solve_int64].
Qed.
End result_wf.

Section runPing_wf.
Context `{Hok : EchoTransportOk}.

(** C38: the result of a cycle is well formed: it counts [count] packets
    sent and between none and [count] failed, reports success exactly
    when fewer than [count] failed; its best, average and worst time, its
    range, its sum and its two standard deviations are ordered and bounded
    by the timeout and by the number of replies; every integer field is a
    64-bit value, and none has wrapped around except, possibly, the
    squared deviation, which is exact and below the square of the worst
    time whenever that square fits in 64 bits. *)
Theorem runPing_result_wf ipAddr ip srcAddr icmpID opt w :
  world_ok w → 0 ≤ Count opt → int64 (Count opt) → Count opt * Timeout opt ≤ max_int64 →
  PingResult_wf (Count opt) (Timeout opt) (runPing ipAddr ip srcAddr icmpID opt w).1.1.1.
Proof.
  intros Hw H0 Hc HT.
  destruct (runPing_final_inv ip srcAddr icmpID opt w Hw Hc HT) as [Hret Hs _ _].
  pose proof (runPing_samples_length ip srcAddr icmpID opt w) as Hlen.
  unfold runPing. cbn [fst]. rewrite Hret, (build_result_spec _ _ _ (Timeout opt)) by done.
  by apply result_spec_wf.
Qed.
End runPing_wf.

Lemma runPing_result_wf_witness :
  PingResult_wf 4 1000000 (runPing "10.0.0.1" "10.0.0.1" "" 1 opt4 script4).1.1.1.
Proof.
  apply (runPing_result_wf (Hok := script_transport_ok) "10.0.0.1" "10.0.0.1" "" 1 opt4 script4);
    [exact script4_ok|done|exact opt4_int64|exact opt4_fits].
Defined.

(** ** The sentinel of the best time *)

(** The samples recorded since the last sample of zero nanoseconds. *)
Definition since_zero (l : list Duration) : list Duration :=
  foldl (λ acc e, if bool_decide (e = 0) then [] else acc ++ [e]) [] l.

Section sentinel.
Implicit Types (l : list Duration) (e : Duration).

Lemma since_zero_snoc l e :
  since_zero (l ++ [e]) = if bool_decide (e = 0) then [] else since_zero l ++ [e].
Proof. unfold since_zero. by rewrite foldl_app. Qed.

Lemma since_zero_pos l : Forall (λ e, 0 ≤ e) l → Forall (λ e, 0 < e) (since_zero l).
Proof.
  induction l as [|e l IH] using rev_ind; [constructor|].
  rewrite Forall_app, Forall_singleton, since_zero_snoc. intros [Hl He].
  case_bool_decide; [constructor|]. apply Forall_app. split; [by apply IH|].
  apply Forall_singleton. lia.
Qed.

Lemma since_zero_subseteq l : since_zero l ⊆ l.
Proof.
  induction l as [|e l IH] using rev_ind; [done|].
  rewrite since_zero_snoc. case_bool_decide; [by intros x ?%elem_of_nil|].
  intros x. rewrite !elem_of_app. intros [?|?]; [left; by apply IH|by right].
Qed.

Lemma since_zero_nil l : since_zero l = [] ↔ l = [] ∨ last l = Some 0.
Proof.
  destruct l as [|e l _] using rev_ind; [by split; [left|]|].
  rewrite since_zero_snoc, last_snoc. case_bool_decide; subst.
  - by split; [right|].
  - split; [by intros ?%app_nil_r_inv|]. by intros [?%app_nil_r_inv|[=]].
Qed.

Lemma since_zero_id l : 0 ∉ l → since_zero l = l.
Proof.
  induction l as [|e l IH] using rev_ind; [done|].
  rewrite not_elem_of_app, not_elem_of_cons, since_zero_snoc. intros [Hl [He _]].
  rewrite bool_decide_eq_false_2 by done. by rewrite IH.
Qed.

(** The best time the loop keeps is the smallest sample since the last
    sample of zero. *)
Lemma best_ref_since_zero l :
  Forall (λ e, 0 ≤ e) l → best_ref l = minZ 0 (since_zero l).
Proof.
  intros Hl. rewrite <-(proj1 (best_ref_min _ (since_zero_pos l Hl))).
  induction l as [|e l IH] using rev_ind; [done|].
  apply Forall_app in Hl as [Hl He%Forall_singleton].
  rewrite best_ref_snoc, since_zero_snoc. pose proof (best_ref_bounds l Hl).
  case_bool_decide; subst.
  - change (best_ref []) with 0. unfold best_step.
    repeat case_bool_decide; simpl; lia.
  - by rewrite best_ref_snoc, IH.
Qed.

Lemma minZ_zero l : Forall (λ e, 0 ≤ e) l → 0 ∈ l → minZ 0 l = 0.
Proof.
  intros Hl H0. pose proof (minZ_le 0 l 0 H0).
  assert (l ≠ []) as Hne by (by intros ->; apply elem_of_nil in H0).
  rewrite Forall_forall in Hl. pose proof (Hl _ (minZ_elem 0 l Hne)). lia.
Qed.

Lemma best_ref_ge_min l : Forall (λ e, 0 ≤ e) l → minZ 0 l ≤ best_ref l.
Proof.
  intros Hl. rewrite best_ref_since_zero by done.
  destruct (decide (since_zero l = [])) as [E|Hne].
  - rewrite E. apply since_zero_nil in E as [->|E%last_Some_elem_of]; [done|].
    by rewrite (minZ_zero l).
  - by apply minZ_le, since_zero_subseteq, minZ_elem.
Qed.

(** The best time is the smallest sample exactly when no sample is zero
    or the last one is. *)
Lemma best_ref_eq_min l :
  Forall (λ e, 0 ≤ e) l → best_ref l = minZ 0 l ↔ 0 ∉ l ∨ last l = Some 0.
Proof.
  intros Hl. rewrite best_ref_since_zero by done. split.
  - intros Heq. destruct (decide (0 ∈ l)) as [H0|]; [right|by left].
    rewrite (minZ_zero l) in Heq by done.
    destruct (decide (since_zero l = [])) as [E|Hne].
    + apply since_zero_nil in E as [->|]; [by apply elem_of_nil in H0|done].
    + pose proof (since_zero_pos l Hl) as Hpos. rewrite Forall_forall in Hpos.
      pose proof (Hpos _ (minZ_elem 0 _ Hne)). lia.
  - intros [H0|Hlast]; [by rewrite since_zero_id|].
    rewrite (proj2 (since_zero_nil l)) by (by right).
    by rewrite (minZ_zero l) by (done || by apply last_Some_elem_of).
Qed.

End sentinel.

Section runPing_sentinel.
Context `{Hok : EchoTransportOk}.

(** C37: the best time uses zero for "no sample yet", so a reply after
    zero nanoseconds is forgotten by the next sample: the best time of a
    cycle is the smallest of the samples recorded since the last sample of
    zero; it is never below the smallest sample, and it is the smallest
    sample exactly when no sample is zero or the last one is. *)
Theorem runPing_best_sentinel ipAddr ip srcAddr icmpID opt w :
  world_ok w → int64 (Count opt) → Count opt * Timeout opt ≤ max_int64 →
  let samples := runPing_samples ip srcAddr icmpID opt w in
  let res := (runPing ipAddr ip srcAddr icmpID opt w).1.1.1 in
  BestTime res = minZ 0 (since_zero samples) ∧
  minZ 0 samples ≤ BestTime res ∧
  (BestTime res = minZ 0 samples ↔ 0 ∉ samples ∨ last samples = Some 0).
Proof.
  intros Hw Hc HT samples res.
  destruct (runPing_result_spec ipAddr ip srcAddr icmpID opt w Hw Hc HT)
    as [Hres Hs%samples_ok_nonneg].
  unfold res. rewrite Hres. cbn [BestTime result_spec]. fold samples.
  split_and!; [by apply best_ref_since_zero|by apply best_ref_ge_min|by apply best_ref_eq_min].
Qed.

End runPing_sentinel.

(** Two attempts answered after 0 ns and after 5 µs. *)
Definition script_zero : @world script_transport := [ok_reply "h" 0; ok_reply "h" 5000].
Definition opt_zero : PingOptions := mkPingOptions 2 1000000 0.

Lemma runPing_best_sentinel_witness :
  let samples := runPing_samples "h" "" 1 opt_zero script_zero in
  let res := (runPing "h" "h" "" 1 opt_zero script_zero).1.1.1 in
  BestTime res = minZ 0 (since_zero samples) ∧
  minZ 0 samples ≤ BestTime res ∧
  (BestTime res = minZ 0 samples ↔ 0 ∉ samples ∨ last samples = Some 0).
Proof.
  apply (runPing_best_sentinel (Hok := script_transport_ok) "h" "h" "" 1 opt_zero script_zero);
    [repeat constructor; simpl; lia|vm_compute; split; discriminate|vm_compute; discriminate].
Defined.

(** In that cycle the best time reported is 5 µs, above the smallest
    sample. *)
Example runPing_best_sentinel_example :
  let res := (runPing "h" "h" "" 1 opt_zero script_zero).1.1.1 in
  BestTime res = 5000 ∧ minZ 0 (runPing_samples "h" "" 1 opt_zero script_zero) = 0.
Proof. by vm_compute. Qed.
