(* ===== verification/Interleave.v ===== *)
(** * Interleave: concurrent cycles on one network

    The loop of [run] starts a cycle at every tick without waiting for the
    previous one, so several calls of [ping.Ping] can be inside the loop
    of [runPing] at the same time.  Each call has its own local variables
    (sequence number, running values, samples); all of them share the
    network.  [Scheduler] treats the measurement of a cycle as one step;
    this file runs the loops attempt by attempt: a schedule names, turn by
    turn, the cycle that makes its next call of [icmp.Icmp] on the shared
    world.

    The theorems show that the step of [Scheduler] loses nothing of what
    [PingEngine] proves: under every schedule each cycle returns the
    specified result of the samples it recorded itself, its samples are
    the accepted replies among those it received, its requests carry its
    own identifier and sequence numbers, and it is done after as many
    turns as it has attempts; a cycle scheduled alone is [Ping]. *)

From S2P Require Import Prelude Transport Stats PingEngine.

(** ** Cycles in flight *)

Section cycles.
Context `{EchoTransport}.

(** A call of [ping.Ping] in flight: its arguments, the iterations of the
    loop still to run, and the variables of the loop.  The world among
    the variables is the one its last call left; the next call is made
    on the shared one. *)
Record cycle : Type := mkCycle {
  cy_addr : string;
  cy_ip : string;
  cy_src : string;
  cy_id : Z;
  cy_opt : PingOptions;
  cy_left : nat;
  cy_vars : loop_state;
}.

(** The variables [st] of a loop about to make its call on [w]. *)
Definition on_world (w : world) (st : loop_state) : loop_state :=
  mkLoop (ls_seq st) (ls_ret st) w (ls_log st).

(** [ping.Ping] up to the loop of [runPing]: the options are built and
    the variables of the loop initialised. *)
Definition Ping_start (addr ip srcAddr : string) (count : Z) (interval timeout : Duration)
    (icmpID : Z) (w : world) : cycle :=
  let pingOptions := mkPingOptions count timeout interval in
  mkCycle addr ip srcAddr icmpID pingOptions (Z.to_nat (Count pingOptions)) (loop_init w).

(** One iteration of the loop of a cycle, on the shared world [w]; a
    cycle that has left the loop does nothing. *)
Definition attempt (c : cycle) (w : world) : cycle * world :=
  match cy_left c with
  | O => (c, w)
  | S n =>
      let st := runPing_step (cy_ip c) (cy_src c) (cy_id c) (Timeout (cy_opt c))
                  (Interval (cy_opt c)) (on_world w (cy_vars c)) in
      (mkCycle (cy_addr c) (cy_ip c) (cy_src c) (cy_id c) (cy_opt c) n st, ls_world st)
  end.

(** What [ping.Ping] returns once the loop is left. *)
Definition Ping_finish (c : cycle) : PingResult * option error :=
  return_checked (build_result (cy_addr c) (cy_ip c) (Count (cy_opt c)) (ls_ret (cy_vars c)))
    None.

(** The cycles in flight and the network they share. *)
Definition net : Type := list cycle * world.

(** A turn of cycle [i]. *)
Definition turn (s : net) (i : nat) : net :=
  match s.1 !! i with
  | Some c => let '(c', w') := attempt c s.2 in (<[i := c']> s.1, w')
  | None => s
  end.

(** A schedule: the cycles in the order of their turns. *)
Definition attempts (sched : list nat) (s : net) : net := foldl turn s sched.

(** The samples a cycle has recorded, and its log. *)
Definition cy_samples (c : cycle) : list Duration := allTime (ls_ret (cy_vars c)).
Definition cy_log (c : cycle) : list event := ls_log (cy_vars c).

End cycles.

(** ** Facts that need no assumption on the transport *)

Section turns.
Context `{EchoTransport}.
Implicit Types (c : cycle) (w : world) (s : net) (i j : nat) (sched : list nat).

Lemma on_world_id w (st : loop_state) : ls_world st = w → on_world w st = st.
Proof. intros <-. by destruct st. Qed.

(** A turn changes neither the arguments of a cycle nor the number of
    cycles. *)
Definition cy_args c := (cy_addr c, cy_ip c, cy_src c, cy_id c, cy_opt c).

Lemma attempt_args c w : cy_args (attempt c w).1 = cy_args c.
Proof. unfold attempt. by destruct (cy_left c). Qed.

Lemma attempt_left c w : cy_left (attempt c w).1 = pred (cy_left c).
Proof. unfold attempt. by destruct (cy_left c) eqn:E. Qed.

Lemma turn_length s i : length (turn s i).1 = length s.1.
Proof.
  unfold turn. destruct (s.1 !! i) as [c|]; [|done].
  destruct (attempt c s.2). simpl. apply length_insert.
Qed.

(** A turn of [i] is a step of cycle [i] on the shared world, and leaves
    the other cycles as they are. *)
Lemma turn_lookup s i c :
  s.1 !! i = Some c →
  (turn s i).1 !! i = Some (attempt c s.2).1 ∧ (turn s i).2 = (attempt c s.2).2 ∧
  ∀ j, j ≠ i → (turn s i).1 !! j = s.1 !! j.
Proof.
  intros Hi. unfold turn. rewrite Hi. destruct (attempt c s.2) as [c' w'] eqn:E. simpl.
  split_and!; [|done|].
  - apply list_lookup_insert_eq. by eapply lookup_lt_Some.
  - intros j Hj. by apply list_lookup_insert_ne.
Qed.

Lemma turn_absent s i : s.1 !! i = None → turn s i = s.
Proof. intros Hi. unfold turn. by rewrite Hi. Qed.

Lemma attempts_snoc sched i s : attempts (sched ++ [i]) s = turn (attempts sched s) i.
Proof. unfold attempts. by rewrite foldl_app. Qed.

(** A property of the network kept by every turn holds after every
    schedule. *)
Lemma attempts_ind (P : net → Prop) sched s :
  P s → (∀ s i, P s → P (turn s i)) → P (attempts sched s).
Proof.
  intros Hs Hturn. induction sched as [|i sched IH] using rev_ind; [done|].
  rewrite attempts_snoc. by apply Hturn.
Qed.

(** The iterations a cycle has left after a schedule: one fewer for each
    of its turns. *)
Lemma attempts_left sched s i c :
  s.1 !! i = Some c →
  ∃ c', (attempts sched s).1 !! i = Some c' ∧ cy_args c' = cy_args c ∧
        cy_left c' = (cy_left c - length (filter (i =.) sched))%nat.
Proof.
  intros Hi. induction sched as [|j sched IH] using rev_ind.
  { exists c. simpl. split_and!; [done..|lia]. }
  destruct IH as (c' & Hc' & Hargs & Hleft). rewrite attempts_snoc, filter_app, length_app.
  destruct (decide (i = j)) as [<-|Hne].
  - destruct (turn_lookup _ _ _ Hc') as (Hi' & _ & _).
    eexists. split; [exact Hi'|]. rewrite attempt_args, attempt_left, Hleft.
    split; [done|]. rewrite filter_cons_True by done. simpl. lia.
  - exists c'. rewrite filter_cons_False, filter_nil by done. simpl.
    split_and!; [|done|lia].
    destruct ((attempts sched s).1 !! j) as [cj|] eqn:Hj.
    + destruct (turn_lookup _ _ _ Hj) as (_ & _ & Hother). by rewrite Hother.
    + by rewrite turn_absent.
Qed.

(** Termination: a cycle that had as many turns as it has attempts has
    left its loop, whatever the other cycles did in between. *)
Theorem attempts_terminate sched s i c :
  s.1 !! i = Some c → (cy_left c ≤ length (filter (i =.) sched))%nat →
  ∃ c', (attempts sched s).1 !! i = Some c' ∧ cy_args c' = cy_args c ∧ cy_left c' = 0%nat.
Proof.
  intros Hi Hn. destruct (attempts_left sched s i c Hi) as (c' & ? & ? & Hleft).
  exists c'. split_and!; [done..|lia].
Qed.

(** A cycle that runs alone: its turns are the iterations of [runPing]. *)
Lemma attempt_alone n c :
  cy_left c = n →
  Nat.iter n (λ cw : cycle * world, attempt cw.1 cw.2) (c, ls_world (cy_vars c)) =
    let st := runPing_loop n (cy_ip c) (cy_src c) (cy_id c) (Timeout (cy_opt c))
                (Interval (cy_opt c)) (cy_vars c) in
    (mkCycle (cy_addr c) (cy_ip c) (cy_src c) (cy_id c) (cy_opt c) 0 st, ls_world st).
Proof.
  revert c. induction n as [|n IH]; intros c Hn.
  { simpl. by destruct c; simpl in *; subst. }
  rewrite Nat.iter_succ_r. cbn [fst snd]. unfold attempt at 2. rewrite Hn.
  rewrite on_world_id by done.
  set (st := runPing_step _ _ _ _ _ _).
  pose proof (IH (mkCycle (cy_addr c) (cy_ip c) (cy_src c) (cy_id c) (cy_opt c) n st)
                eq_refl) as IH'.
  cbn [cy_addr cy_ip cy_src cy_id cy_opt cy_vars] in IH'. cbn [fst snd]. by rewrite IH'.
Qed.

(** What [Ping] returns is what a cycle started on [w] returns after
    [count] turns of its own with no turn of another cycle in between. *)
Theorem Ping_alone addr ip srcAddr count interval timeout icmpID w :
  let c := Ping_start addr ip srcAddr count interval timeout icmpID w in
  let end_ := Nat.iter (cy_left c) (λ cw : cycle * world, attempt cw.1 cw.2) (c, w) in
  cy_left end_.1 = 0%nat ∧
  Ping addr ip srcAddr count interval timeout icmpID w =
    (Ping_finish end_.1, end_.2, cy_log end_.1).
Proof.
  intros c end_. subst end_.
  change (c, w) with (c, ls_world (cy_vars c)). by rewrite attempt_alone.
Qed.

End turns.

(** ** Every cycle meets its specification under every schedule *)

Section refinement.
Context `{Hok : EchoTransportOk}.
Implicit Types (c : cycle) (w : world) (s : net) (i : nat) (sched : list nat).

(** The invariant of a cycle in flight: its options fit in 64 bits, the
    invariants of the loop hold of its variables after the iterations it
    has made, and it has room for the iterations left. *)
Record cycle_ok (c : cycle) : Prop := mkCycleOk {
  co_count : int64 (Count (cy_opt c));
  co_fits : Count (cy_opt c) * Timeout (cy_opt c) ≤ max_int64;
  co_left : (cy_left c ≤ Z.to_nat (Count (cy_opt c)))%nat;
  co_loop : loop_inv (Timeout (cy_opt c)) (cy_vars c);
  co_log : log_inv (cy_ip c) (cy_src c) (cy_id c) (Timeout (cy_opt c)) (Interval (cy_opt c))
             (Z.to_nat (Count (cy_opt c)) - cy_left c) (cy_vars c);
}.

(** The invariant of the network: the world is one in which the transport
    keeps its promises, and every cycle is well formed. *)
Definition net_ok (s : net) : Prop := world_ok s.2 ∧ Forall cycle_ok s.1.

Lemma loop_inv_on_world T w (st : loop_state) :
  world_ok w → loop_inv T st → loop_inv T (on_world w st).
Proof. intros Hw [? ? ? _]. by split. Qed.

Lemma log_inv_on_world ip srcAddr pid T itv n w (st : loop_state) :
  log_inv ip srcAddr pid T itv n st → log_inv ip srcAddr pid T itv n (on_world w st).
Proof. by intros []. Qed.

Lemma Ping_start_ok addr ip srcAddr count interval timeout icmpID w :
  world_ok w → int64 count → count * timeout ≤ max_int64 →
  cycle_ok (Ping_start addr ip srcAddr count interval timeout icmpID w).
Proof.
  intros Hw Hc HT. split; simpl; [done..|by apply loop_inv_init|].
  rewrite Nat.sub_diag. apply log_inv_init.
Qed.

Lemma attempt_ok c w :
  world_ok w → cycle_ok c → cycle_ok (attempt c w).1 ∧ world_ok (attempt c w).2.
Proof.
  intros Hw [Hc HT Hleft Hloop Hlog]. unfold attempt.
  destruct (cy_left c) as [|n] eqn:Hn; [by rewrite <-Hn in *|]. cbn [fst snd].
  pose proof (log_inv_length _ _ _ _ _ _ _ Hlog) as Hlen.
  assert (loop_inv (Timeout (cy_opt c))
            (runPing_step (cy_ip c) (cy_src c) (cy_id c) (Timeout (cy_opt c))
               (Interval (cy_opt c)) (on_world w (cy_vars c)))) as Hloop'.
  { apply (loop_inv_step _ _ _ _ _ (Z.to_nat (Count (cy_opt c))));
      [unfold_int64; nia|solve_int64|simpl; lia|by apply loop_inv_on_world]. }
  split; [|by destruct Hloop'].
  split; cbn [cy_opt cy_left cy_vars cy_ip cy_src cy_id]; [done|done|lia|done|].
  replace (Z.to_nat (Count (cy_opt c)) - n)%nat
    with (S (Z.to_nat (Count (cy_opt c)) - S n)) by lia.
  apply log_inv_step; [solve_int64|by apply log_inv_on_world].
Qed.

Lemma turn_ok s i : net_ok s → net_ok (turn s i).
Proof.
  intros [Hw Hcs]. unfold turn. destruct (s.1 !! i) as [c|] eqn:Hi; [|done].
  destruct (attempt_ok c s.2 Hw) as [Hc' Hw']; [by eapply Forall_lookup_1|].
  destruct (attempt c s.2) as [c' w']. split; [done|]. simpl.
  by apply Forall_insert.
Qed.

Lemma attempts_ok sched s : net_ok s → net_ok (attempts sched s).
Proof. intros Hs. apply attempts_ind; [done|]. intros. by apply turn_ok. Qed.

(** Refinement under interleaving.  Whatever the schedule, the result of
    each cycle is the specified result of the samples that cycle recorded,
    with no error; the samples lie within its timeout, and they are the
    times of the accepted replies among those the cycle itself received;
    every request of the cycle carried its own identifier, addresses and
    timeout and the number of replies it had accepted before. *)
Theorem attempts_refine sched s i c :
  net_ok s → (attempts sched s).1 !! i = Some c →
  Ping_finish c = (result_spec (cy_addr c) (cy_ip c) (Count (cy_opt c)) (cy_samples c), None) ∧
  samples_ok (Timeout (cy_opt c)) (cy_samples c) ∧
  cy_samples c = accepted_times (cy_ip c) (replies_of (cy_log c)) ∧
  calls_of (cy_log c) =
    mkIcmpCall (cy_ip c) (cy_src c) defaultTTL (cy_id c) (Timeout (cy_opt c)) <$>
      sent_seqs (cy_ip c) (replies_of (cy_log c)).
Proof.
  intros Hs Hi. destruct (attempts_ok sched s Hs) as [_ Hcs].
  destruct (Forall_lookup_1 _ _ _ _ Hcs Hi) as [Hc HT Hleft [Hret Hsam _ _] Hlog].
  pose proof (log_inv_length _ _ _ _ _ _ _ Hlog) as Hlen.
  unfold Ping_finish. rewrite return_checked_spec. split_and!.
  - rewrite Hret. f_equal.
    apply (build_result_spec _ _ _ (Timeout (cy_opt c))); [done|unfold cy_samples; lia|done..].
  - done.
  - apply Hlog.
  - destruct Hlog as [_ _ Hseqs _ _ _ _ _ Hcalls]. unfold cy_log. by rewrite Hcalls, Hseqs.
Qed.

(** The result of each cycle is well formed under every schedule. *)
Theorem attempts_result_wf sched s i c :
  net_ok s → (attempts sched s).1 !! i = Some c → 0 ≤ Count (cy_opt c) →
  PingResult_wf (Count (cy_opt c)) (Timeout (cy_opt c)) (Ping_finish c).1.
Proof.
  intros Hs Hi H0. destruct (attempts_ok sched s Hs) as [_ Hcs].
  destruct (Forall_lookup_1 _ _ _ _ Hcs Hi) as [Hc HT Hleft [Hret Hsam _ _] Hlog].
  pose proof (log_inv_length _ _ _ _ _ _ _ Hlog) as Hlen.
  unfold Ping_finish. rewrite return_checked_spec. cbn [fst].
  rewrite Hret. fold (cy_samples c) in *.
  rewrite (build_result_spec _ _ _ (Timeout (cy_opt c))) by (done || lia).
  apply result_spec_wf; [done..|lia].
Qed.

End refinement.

(** ** Two cycles on a scripted network *)

(** Two cycles of one attempt each, to different hosts, on a network that
    has one reply of each host ready. *)
Definition two_cycles : @net script_transport :=
  let w := [ok_reply "a" 5000; ok_reply "b" 7000] in
  ([Ping_start "a" "a" "" 1 10 1000000 1 w; Ping_start "b" "b" "" 1 10 1000000 2 w], w).

Lemma two_cycles_script_ok : script_ok two_cycles.2.
Proof. repeat constructor; simpl; lia. Qed.

Lemma two_cycles_ok : net_ok two_cycles.
Proof.
  split; [exact two_cycles_script_ok|].
  apply Forall_cons; split; [|apply Forall_singleton];
    (apply Ping_start_ok; [exact two_cycles_script_ok|solve_int64|by vm_compute]).
Qed.

(** In the order of the replies each cycle gets its own reply; in the
    other order each gets the reply of the other host, which the test of
    the address rejects: both report a loss.  Either way every result is
    the specified result of what the cycle saw. *)
Example two_cycles_in_order :
  (λ c, (Success (Ping_finish c).1, cy_samples c)) <$> (attempts [0; 1]%nat two_cycles).1 =
    [(true, [5000]); (true, [7000])].
Proof. reflexivity. Qed.

Example two_cycles_crossed :
  (λ c, (Success (Ping_finish c).1, cy_samples c)) <$> (attempts [1; 0]%nat two_cycles).1 =
    [(false, []); (false, [])].
Proof. reflexivity. Qed.

(** The crossed run meets the specification all the same: the first
    cycle returns the specified result of no sample. *)
Example two_cycles_crossed_refine :
  ∃ c, (attempts [1; 0]%nat two_cycles).1 !! 0%nat = Some c ∧
       Ping_finish c = (result_spec "a" "a" 1 [], None) ∧
       length (replies_of (cy_log c)) = 1%nat.
Proof.
  eexists. split; [reflexivity|].
  split; [|reflexivity].
  by destruct (attempts_refine [1; 0]%nat two_cycles 0 _ two_cycles_ok eq_refl) as [-> _].
Qed.
