(* ===== verification/IcmpID.v ===== *)
(** * IcmpID: the identifier allocator

    Every cycle of every target calls [t.icmpID.Get()] on one shared
    [common.IcmpID] and passes the value to the transport, which uses it to
    match replies to requests.  The type is declared in [pkg/common], which
    is not among the sources; it is modelled from the specification: one
    counter over a 16-bit space that advances by one on every call and
    wraps around. *)

From S2P Require Import Prelude.

(** The size of the identifier space. *)
Definition id_space : Z := 2 ^ 16.

(** [common.IcmpID]: the last identifier handed out. *)
Record IcmpID : Type := mkIcmpID { icmpID : Z }.

#[global] Instance IcmpID_eq_dec : EqDecision IcmpID.
Proof. solve_decision. Defined.

(** [Get]: advance and wrap; the new value is returned and stored. *)
Definition Get (c : IcmpID) : Z * IcmpID :=
  let n := (icmpID c + 1) `mod` id_space in (n, mkIcmpID n).

(** The identifiers returned by [k] successive calls, and the allocator
    after them. *)
Fixpoint Get_many (k : nat) (c : IcmpID) : list Z * IcmpID :=
  match k with
  | O => ([], c)
  | S k' => let '(n, c') := Get c in
            let '(ns, c'') := Get_many k' c' in (n :: ns, c'')
  end.

(** An allocator is well formed when its counter lies in the space. *)
Definition IcmpID_ok (c : IcmpID) : Prop := 0 ≤ icmpID c < id_space.

#[global] Instance IcmpID_ok_dec c : Decision (IcmpID_ok c).
Proof. unfold IcmpID_ok. apply _. Defined.

Section allocator.
Implicit Types (c : IcmpID) (k i j : nat).

Lemma Get_range c : 0 ≤ (Get c).1 < id_space.
Proof. apply Z.mod_pos_bound. reflexivity. Qed.

Lemma Get_ok c : IcmpID_ok (Get c).2.
Proof. apply Get_range. Qed.

Lemma Get_int64 c : int64 (Get c).1.
Proof. pose proof (Get_range c). unfold id_space in *. solve_int64. Qed.

Lemma Get_state c : icmpID (Get c).2 = (Get c).1.
Proof. reflexivity. Qed.

(** The [i]-th of the following calls returns the counter plus [i + 1],
    modulo the size of the space. *)
Lemma Get_many_lookup k c i :
  (i < k)%nat →
  (Get_many k c).1 !! i = Some ((icmpID c + Z.of_nat (S i)) `mod` id_space).
Proof.
  revert c i. induction k as [|k IH]; intros c i Hi; [lia|].
  cbn [Get_many]. destruct (Get c) as [n c'] eqn:E.
  specialize (IH c'). destruct (Get_many k c') as [ns c'']. cbn [fst] in *.
  assert (n = (icmpID c + 1) `mod` id_space ∧ icmpID c' = n) as [Hn Hc'].
  { unfold Get in E. by injection E as <- <-. }
  destruct i as [|i]; simpl.
  - by rewrite Hn.
  - rewrite IH by lia. f_equal. rewrite Hc', Hn.
    rewrite Zplus_mod_idemp_l. f_equal. lia.
Qed.

Lemma Get_many_length k c : length (Get_many k c).1 = k.
Proof.
  revert c. induction k as [|k IH]; intros c; [done|].
  cbn [Get_many]. destruct (Get c) as [n c']. specialize (IH c').
  destruct (Get_many k c') as [ns c'']. simpl in *. by rewrite IH.
Qed.

(** Identifiers handed out fewer than [id_space] calls apart differ. *)
Lemma Get_many_distinct k c i j x :
  Z.of_nat k ≤ id_space → i ≠ j →
  (Get_many k c).1 !! i = Some x → (Get_many k c).1 !! j = Some x → False.
Proof.
  intros Hk Hij Hi Hj.
  pose proof (lookup_lt_Some _ _ _ Hi) as Hik. pose proof (lookup_lt_Some _ _ _ Hj) as Hjk.
  rewrite Get_many_length in Hik, Hjk.
  rewrite Get_many_lookup in Hi, Hj by done.
  injection Hi as Hi. injection Hj as Hj. rewrite <-Hj in Hi. clear Hj.
  unfold id_space in *.
  apply (f_equal (λ z, (z - icmpID c) `mod` 2 ^ 16)) in Hi. simpl in Hi.
  rewrite !Zminus_mod_idemp_l in Hi.
  replace (icmpID c + Z.of_nat (S i) - icmpID c) with (Z.of_nat (S i)) in Hi by lia.
  replace (icmpID c + Z.of_nat (S j) - icmpID c) with (Z.of_nat (S j)) in Hi by lia.
  assert (Z.of_nat (S i) `mod` 2 ^ 16 = Z.of_nat (S j) `mod` 2 ^ 16 → False); [|done].
  destruct (decide (Z.of_nat (S i) = 2 ^ 16)) as [Ei|Ni];
    destruct (decide (Z.of_nat (S j) = 2 ^ 16)) as [Ej|Nj]; [lia|..].
  - rewrite Ei, Z.mod_same, Z.mod_small by lia. lia.
  - rewrite Ej, Z.mod_same, Z.mod_small by lia. lia.
  - rewrite !Z.mod_small by lia. lia.
Qed.

(** After exactly [id_space] calls the allocator is where it was: the
    next identifier repeats the one handed out [id_space] calls before. *)
Lemma Get_many_period c :
  IcmpID_ok c → (Get_many (Z.to_nat id_space) c).2 = c.
Proof.
  intros Hc.
  assert (∀ k c0, icmpID (Get_many k c0).2 =
                   if k is O then icmpID c0 else (icmpID c0 + Z.of_nat k) `mod` id_space) as Hst.
  { induction k as [|k IH]; intros c0; [done|].
    cbn [Get_many]. destruct (Get c0) as [n c'] eqn:E. specialize (IH c').
    destruct (Get_many k c') as [ns c'']. cbn [snd] in *. rewrite IH.
    assert (icmpID c' = (icmpID c0 + 1) `mod` id_space) as ->
      by (unfold Get in E; by injection E as <- <-).
    destruct k as [|k]; [done|]. rewrite Zplus_mod_idemp_l. f_equal. lia. }
  specialize (Hst (Z.to_nat id_space) c). destruct (Get_many _ c) as [ns [n]].
  destruct c as [m]. cbn [snd icmpID] in *. f_equal.
  unfold IcmpID_ok, id_space in *. simpl in Hc, Hst. rewrite Hst.
  rewrite Z2Nat.id by lia.
  replace (m + 2 ^ 16) with (m + 1 * 2 ^ 16) by lia.
  rewrite Z.mod_add, Z.mod_small; lia.
Qed.

End allocator.
