(* ===== verification/PingTarget.v ===== *)
(** * PingTarget: the [PING] target of [src/target/target_ping.go]

    A target holds its configuration and a pointer [result] to a
    [PingResult].  [NewPing] allocates an empty result; the method [ping]
    takes an identifier from the shared allocator, runs [ping.Ping], which
    returns a pointer to a new result, and then, under the write lock,
    adds the three counters of the new result to the object [t.result]
    points to and makes [t.result] point to the new result; [Compute]
    returns the pointer [t.result].

    Results are therefore objects of a heap ([sh_heap]) and the target
    and its readers hold addresses: what a reader sees through a pointer
    it got from [Compute] depends on later cycles.  The method is split
    at the points where other goroutines can run: [ping_start] (the
    allocator), [ping_probe] (the cycle of echo requests) and
    [ping_publish] (the critical section); [ping] is their composition.
    The goroutines, the lock and the channels are in [Scheduler]. *)

From S2P Require Import Prelude Transport Stats PingEngine IcmpID.

Module PING.

Section shared.
Context `{EchoTransport}.

(** The state shared by the goroutines: the heap of results, the
    identifier allocator and the network. *)
Record shared : Type := mkShared {
  sh_heap : gmap loc PingResult;
  sh_ids : IcmpID;
  sh_net : world;
}.

(** [new(PingResult)] with the given contents: the address is fresh. *)
Definition alloc (v : PingResult) (s : shared) : loc * shared :=
  let l := fresh (dom (sh_heap s)) in
  (l, mkShared (<[l := v]> (sh_heap s)) (sh_ids s) (sh_net s)).

End shared.

(** The fields of the struct [PING] that hold data.  The logger, the
    stop channel, the wait group and the lock are not data of the model:
    the last three are state of [Scheduler]. *)
Record PING : Type := mkPING {
  name : string;
  host : string;
  ip : string;
  srcAddr : string;
  interval : Duration;
  timeout : Duration;
  count : Z;
  labels : gmap string string;
  result : option loc;
}.

Definition set_result (t : PING) (r : option loc) : PING :=
  mkPING (name t) (host t) (ip t) (srcAddr t) (interval t) (timeout t) (count t)
    (labels t) r.

Section methods.
Context `{EchoTransport}.

(** [NewPing]: the target with an empty result.  The goroutine it starts
    is [run] of [Scheduler]; the error returned is always [nil]. *)
Definition NewPing (startupDelay : Duration) (name host ip srcAddr : string)
    (interval timeout : Duration) (count : Z) (labels : gmap string string)
    (s : shared) : PING * option error * shared :=
  let '(l, s') := alloc PingResult_zero s in
  (mkPING name host ip srcAddr interval timeout count labels (Some l), None, s').

(** [icmpID := int(t.icmpID.Get())] *)
Definition ping_start (t : PING) (s : shared) : Z * shared :=
  let '(id, ids) := Get (sh_ids s) in
  (id, mkShared (sh_heap s) ids (sh_net s)).

(** [data, err := ping.Ping(...)]: the cycle, and the new result object
    [data] points to. *)
Definition ping_probe (t : PING) (icmpID : Z) (s : shared) :
    loc * option error * list event * shared :=
  let '(out, err, w, log) :=
    Ping (host t) (ip t) (srcAddr t) (count t) (interval t) (timeout t) icmpID (sh_net s) in
  let '(data, s') := alloc out (mkShared (sh_heap s) (sh_ids s) w) in
  (data, err, log, s').

(** The three additions of the critical section, on the object [old]. *)
Definition add_summary (old data : PingResult) : PingResult :=
  mkPingResult (DestAddr old) (DestIp old) (Success old) (DropRate old)
    (SumTime old) (BestTime old) (AvgTime old) (WorstTime old)
    (SquaredDeviationTime old) (UncorrectedSDTime old) (CorrectedSDTime old)
    (RangeTime old)
    (SntSummary old ⊕ SntSummary data)
    (SntFailSummary old ⊕ SntFailSummary data)
    (SntTimeSummary old ⊕ SntTimeSummary data).

(** The critical section of [ping]: the counters of [data] are added to
    the object [t.result] points to, then [t.result] is set to [data].
    [None] is the panic of a nil pointer. *)
Definition ping_publish (t : PING) (data : loc) (s : shared) : option (PING * shared) :=
  r ← result t;
  old ← sh_heap s !! r;
  d ← sh_heap s !! data;
  Some (set_result t (Some data),
        mkShared (<[r := add_summary old d]> (sh_heap s)) (sh_ids s) (sh_net s)).

(** The method [ping]. *)
Definition ping (t : PING) (s : shared) : option (PING * shared) :=
  let '(icmpID, s1) := ping_start t s in
  let '(data, _, _, s2) := ping_probe t icmpID s1 in
  ping_publish t data s2.

(** [Compute]: the pointer to the current result. *)
Definition Compute (t : PING) : option loc :=
  match result t with
  | None => None
  | Some r => Some r
  end.

Definition Name (t : PING) : string := name t.
Definition Host (t : PING) : string := host t.
Definition Ip (t : PING) : string := ip t.
Definition Labels (t : PING) : gmap string string := labels t.

(** The fields of a result that the critical section does not assign. *)
Definition latencies (res : PingResult) :=
  (DestAddr res, DestIp res, Success res, DropRate res, SumTime res, BestTime res,
   AvgTime res, WorstTime res, SquaredDeviationTime res, UncorrectedSDTime res,
   CorrectedSDTime res, RangeTime res).

(** What a reader sees through the pointer [Compute] gave it. *)
Definition read (s : shared) (p : option loc) : option PingResult :=
  l ← p; sh_heap s !! l.

(** A target is well formed in a state when its result pointer is the
    address of an object. *)
Definition PING_ok (t : PING) (s : shared) : Prop :=
  ∃ r, result t = Some r ∧ is_Some (sh_heap s !! r).

(** [k] cycles of the target, one after the other. *)
Fixpoint ping_many (k : nat) (t : PING) (s : shared) : option (PING * shared) :=
  match k with
  | O => Some (t, s)
  | S k' => '(t', s') ← ping t s; ping_many k' t' s'
  end.

(** The identifiers used by [k] cycles, one after the other. *)
Fixpoint ping_ids (k : nat) (t : PING) (s : shared) : list Z :=
  match k with
  | O => []
  | S k' =>
      (ping_start t s).1 ::
      match ping t s with
      | Some (t', s') => ping_ids k' t' s'
      | None => []
      end
  end.

(** ** What one cycle computes *)

(** The result and the log of the cycle that [ping] runs in state [s],
    and the network after it. *)
Definition cycle_out (t : PING) (s : shared) : PingResult :=
  (Ping (host t) (ip t) (srcAddr t) (count t) (interval t) (timeout t)
     (Get (sh_ids s)).1 (sh_net s)).1.1.1.
Definition cycle_log (t : PING) (s : shared) : list event :=
  (Ping (host t) (ip t) (srcAddr t) (count t) (interval t) (timeout t)
     (Get (sh_ids s)).1 (sh_net s)).2.
Definition cycle_net (t : PING) (s : shared) : world :=
  (Ping (host t) (ip t) (srcAddr t) (count t) (interval t) (timeout t)
     (Get (sh_ids s)).1 (sh_net s)).1.2.

(** The state after a cycle of a target whose result is at [r]. *)
Definition after_ping (t : PING) (s : shared) (r : loc) (old : PingResult) : PING * shared :=
  let data := fresh (dom (sh_heap s)) in
  (set_result t (Some data),
   mkShared (<[r := add_summary old (cycle_out t s)]> (<[data := cycle_out t s]> (sh_heap s)))
     (Get (sh_ids s)).2 (cycle_net t s)).

End methods.

Section facts.
Context `{EchoTransport}.
Implicit Types (t : PING) (s : shared) (r p data : loc) (old out : PingResult).

Lemma alloc_fresh v s : sh_heap s !! (alloc v s).1 = None.
Proof. apply not_elem_of_dom, is_fresh. Qed.

Lemma alloc_lookup v s : sh_heap (alloc v s).2 !! (alloc v s).1 = Some v.
Proof. apply lookup_insert_eq. Qed.

Lemma alloc_lookup_old v s l x :
  sh_heap s !! l = Some x → sh_heap (alloc v s).2 !! l = Some x.
Proof.
  intros Hl. unfold alloc. simpl. rewrite lookup_insert_ne; [done|].
  intros <-. pose proof (alloc_fresh v s) as Hf. simpl in Hf. congruence.
Qed.

(** [Ping] is [runPing] with the options built from its arguments. *)
Lemma Ping_runPing addr i src n itv tmo id (w : world) :
  Ping addr i src n itv tmo id w = runPing addr i src id (mkPingOptions n tmo itv) w.
Proof. reflexivity. Qed.

(** One cycle of a well-formed target: the method does not panic and
    ends in [after_ping]. *)
Lemma ping_spec t s r old :
  result t = Some r → sh_heap s !! r = Some old →
  ping t s = Some (after_ping t s r old).
Proof.
  intros Hr Hold. unfold ping, ping_start, ping_probe, after_ping, cycle_out, cycle_net.
  destruct (Get (sh_ids s)) as [id ids] eqn:Eid. cbn [sh_net sh_heap sh_ids fst snd].
  destruct (Ping _ _ _ _ _ _ id (sh_net s)) as [[[out err] w] log] eqn:Eping.
  cbn [fst snd alloc sh_heap sh_ids sh_net]. unfold ping_publish. rewrite Hr. simpl.
  assert (fresh (dom (sh_heap s)) ≠ r) as Hne.
  { intros E. pose proof (is_fresh (dom (sh_heap s))) as Hf. rewrite E in Hf.
    apply Hf, elem_of_dom. eauto. }
  rewrite (lookup_insert_ne _ _ r) by exact Hne. rewrite Hold. simpl.
  by rewrite lookup_insert_eq.
Qed.

Lemma PING_ok_after t s r old :
  result t = Some r → sh_heap s !! r = Some old →
  PING_ok (after_ping t s r old).1 (after_ping t s r old).2.
Proof.
  intros Hr Hold. eexists. split; [reflexivity|]. simpl.
  destruct (decide (r = fresh (dom (sh_heap s)))) as [->|Hne].
  - rewrite lookup_insert_eq. eauto.
  - rewrite lookup_insert_ne, lookup_insert_eq by done. eauto.
Qed.

Lemma after_ping_read_new t s r old :
  sh_heap s !! r = Some old →
  read (after_ping t s r old).2 (Compute (after_ping t s r old).1) = Some (cycle_out t s).
Proof.
  intros Hold. simpl. rewrite lookup_insert_ne, lookup_insert_eq; [done|].
  intros ->. pose proof (is_fresh (dom (sh_heap s))) as Hf. apply Hf, elem_of_dom. eauto.
Qed.

Lemma after_ping_read_old t s r old :
  read (after_ping t s r old).2 (Some r) = Some (add_summary old (cycle_out t s)).
Proof. simpl. apply lookup_insert_eq. Qed.

(** A well-formed target has a result object, and its cycle ends in
    [after_ping] of it. *)
Lemma ping_ok_spec t s :
  PING_ok t s →
  ∃ r old, result t = Some r ∧ sh_heap s !! r = Some old ∧
           ping t s = Some (after_ping t s r old).
Proof. intros (r & Hr & [old Hold]). exists r, old. by rewrite (ping_spec t s r old). Qed.

(** The cycle reports the configured count as packets sent. *)
Lemma cycle_out_SntSummary t s : SntSummary (cycle_out t s) = count t.
Proof. reflexivity. Qed.

(** C10.  One cycle of a well-formed target does not panic and keeps the
    target well formed and its configuration unchanged; afterwards
    [Compute] returns the address of a new object, which holds exactly
    the result of this cycle, and the allocator has advanced by one
    call.  In particular the counters [SntSummary], [SntFailSummary] and
    [SntTimeSummary] that [Compute] exposes are those of the last cycle
    alone. *)
Theorem ping_publishes_cycle t s :
  PING_ok t s →
  ∃ t' s' data,
    ping t s = Some (t', s') ∧ PING_ok t' s' ∧
    Compute t' = Some data ∧ sh_heap s !! data = None ∧
    read s' (Compute t') = Some (cycle_out t s) ∧
    set_result t' None = set_result t None ∧
    sh_ids s' = (Get (sh_ids s)).2 ∧ sh_net s' = cycle_net t s.
Proof.
  intros (r & Hr & [old Hold]).
  exists (after_ping t s r old).1, (after_ping t s r old).2, (fresh (dom (sh_heap s))).
  split_and!; try done.
  - by rewrite <-surjective_pairing, <-(ping_spec t s r old).
  - by apply PING_ok_after.
  - apply not_elem_of_dom, is_fresh.
  - by apply after_ping_read_new.
Qed.

(** Cycles preserve well-formedness, so any number of them runs without
    panic, and the configuration never changes. *)
Lemma ping_many_ok k t s :
  PING_ok t s →
  ∃ t' s', ping_many k t s = Some (t', s') ∧ PING_ok t' s' ∧
           set_result t' None = set_result t None.
Proof.
  revert t s. induction k as [|k IH]; intros t s Hok; [by eauto|].
  destruct (ping_ok_spec t s Hok) as (r & old & Hr & Hold & Hp).
  pose proof (PING_ok_after t s r old Hr Hold) as Hok1.
  assert (set_result (after_ping t s r old).1 None = set_result t None) as Hcfg by done.
  destruct (after_ping t s r old) as [t1 s1].
  destruct (IH t1 s1 Hok1) as (t' & s' & Hm & Hok' & Hcfg').
  exists t', s'. cbn [ping_many]. rewrite Hp. simpl. by rewrite Hm, Hcfg', <-Hcfg.
Qed.

Lemma ping_many_S_r k t s :
  ping_many (S k) t s = '(t', s') ← ping_many k t s; ping t' s'.
Proof.
  revert t s. induction k as [|k IH]; intros t s.
  - simpl. destruct (ping t s) as [[??]|]; done.
  - change (ping_many (S (S k)) t s) with ('(t1, s1) ← ping t s; ping_many (S k) t1 s1).
    cbn [ping_many]. destruct (ping t s) as [[t1 s1]|]; [|done]. simpl. apply IH.
Qed.

(** C11.  The counters are not cumulative: after any number of cycles,
    at least one, the result that [Compute] exposes counts as sent only
    the attempts of the last cycle, [count], and as failed only those the
    last cycle lost. *)
Theorem ping_summary_not_cumulative k t s :
  PING_ok t s →
  ∃ tk sk t' s',
    ping_many k t s = Some (tk, sk) ∧ ping_many (S k) t s = Some (t', s') ∧
    read s' (Compute t') = Some (cycle_out tk sk) ∧
    SntSummary (cycle_out tk sk) = count t.
Proof.
  intros Hok. destruct (ping_many_ok k t s Hok) as (tk & sk & Hk & Hokk & Hcfg).
  destruct (ping_ok_spec tk sk Hokk) as (r & old & Hr & Hold & Hp).
  exists tk, sk, (after_ping tk sk r old).1, (after_ping tk sk r old).2. split_and!; [done| | |].
  - rewrite ping_many_S_r, Hk. cbn [mbind option_bind]. by rewrite Hp, <-surjective_pairing.
  - by apply after_ping_read_new.
  - rewrite cycle_out_SntSummary. by apply (f_equal count) in Hcfg.
Qed.

(** C12.  The object a reader obtained from [Compute] is modified by the
    next cycle: the three counters of that cycle are added to it, at 64
    bits, under the reader's hands, its other fields stay, and it is no
    longer the result of the target. *)
Theorem ping_mutates_snapshot t s p old :
  Compute t = Some p → read s (Some p) = Some old →
  ∃ t' s' new,
    ping t s = Some (t', s') ∧ read s' (Some p) = Some new ∧
    SntSummary new = SntSummary old ⊕ count t ∧
    SntFailSummary new = SntFailSummary old ⊕ SntFailSummary (cycle_out t s) ∧
    SntTimeSummary new = SntTimeSummary old ⊕ SntTimeSummary (cycle_out t s) ∧
    latencies new = latencies old ∧
    Compute t' ≠ Some p.
Proof.
  unfold Compute. intros Hp Hold. destruct (result t) as [r|] eqn:Hr; [|done].
  injection Hp as ->. simpl in Hold.
  exists (after_ping t s p old).1, (after_ping t s p old).2, (add_summary old (cycle_out t s)).
  split_and!; try done.
  - by rewrite <-surjective_pairing, <-(ping_spec t s p old).
  - apply after_ping_read_old.
  - simpl. intros [= E]. pose proof (is_fresh (dom (sh_heap s))) as Hf.
    rewrite E in Hf. apply Hf, elem_of_dom. eauto.
Qed.

(** C13.  [NewPing] returns no error and a well-formed target with the
    given configuration, which the accessors [Name], [Host], [Ip] and
    [Labels] return and which forgetting the result leaves as given;
    before the first cycle completes [Compute] yields a valid, empty
    result (no success, totals zero), and the objects
    already in the heap are untouched. *)
Theorem NewPing_ok startupDelay nm hst i src itv tmo n lbls s :
  ∃ t l,
    NewPing startupDelay nm hst i src itv tmo n lbls s =
      (t, None, mkShared (<[l := PingResult_zero]> (sh_heap s)) (sh_ids s) (sh_net s)) ∧
    sh_heap s !! l = None ∧
    t = mkPING nm hst i src itv tmo n lbls (Some l) ∧
    (Name t, Host t, Ip t, Labels t) = (nm, hst, i, lbls) ∧
    PING_ok t (mkShared (<[l := PingResult_zero]> (sh_heap s)) (sh_ids s) (sh_net s)) ∧
    set_result t None = mkPING nm hst i src itv tmo n lbls None ∧
    read (mkShared (<[l := PingResult_zero]> (sh_heap s)) (sh_ids s) (sh_net s))
      (Compute t) = Some PingResult_zero ∧
    (Success PingResult_zero, SntSummary PingResult_zero,
     SntFailSummary PingResult_zero, SntTimeSummary PingResult_zero) =
      (false, 0, 0, 0).
Proof.
  eexists _, (fresh (dom (sh_heap s))).
  split_and!; [reflexivity| |reflexivity..| |reflexivity| |reflexivity].
  - apply not_elem_of_dom, is_fresh.
  - eexists. split; [reflexivity|]. simpl. rewrite lookup_insert_eq. eauto.
  - simpl. apply lookup_insert_eq.
Qed.

(** The identifiers of successive cycles are those of successive calls
    of the allocator. *)
Lemma ping_ids_Get_many k t s :
  PING_ok t s → ping_ids k t s = (Get_many k (sh_ids s)).1.
Proof.
  revert t s. induction k as [|k IH]; intros t s Hok; [done|].
  destruct (ping_ok_spec t s Hok) as (r & old & Hr & Hold & Hp).
  pose proof (PING_ok_after t s r old Hr Hold) as Hok1.
  assert (sh_ids (after_ping t s r old).2 = (Get (sh_ids s)).2) as Hids by done.
  destruct (after_ping t s r old) as [t1 s1]. cbn [snd] in Hids.
  cbn [ping_ids Get_many]. rewrite Hp, (IH t1 s1 Hok1), Hids.
  unfold ping_start. destruct (Get (sh_ids s)) as [id ids]. simpl.
  by destruct (Get_many k ids).
Qed.

(** C14.  Up to 2^16 successive cycles of a target carry pairwise
    different identifiers, each in the 16-bit space. *)
Theorem ping_ids_distinct k t s :
  PING_ok t s → Z.of_nat k ≤ id_space →
  NoDup (ping_ids k t s) ∧ Forall (λ id, 0 ≤ id < id_space) (ping_ids k t s) ∧
  length (ping_ids k t s) = k.
Proof.
  intros Hok Hk. rewrite ping_ids_Get_many by done. split_and!.
  - apply NoDup_alt. intros i j x Hi Hj. destruct (decide (i = j)) as [|Hij]; [done|].
    destruct (Get_many_distinct k (sh_ids s) i j x Hk Hij Hi Hj).
  - apply Forall_lookup. intros i x Hi. pose proof (lookup_lt_Some _ _ _ Hi) as Hlt.
    rewrite Get_many_length in Hlt. rewrite Get_many_lookup in Hi by done.
    injection Hi as <-. apply Z.mod_pos_bound. done.
  - apply Get_many_length.
Qed.

End facts.

(** ** A target on the scripted transport *)

Section scripted_target.

(** A target of two attempts per cycle; the first cycle loses both, the
    second is answered after 5 and 7 µs. *)
Definition s_init : @shared script_transport :=
  mkShared ∅ (mkIcmpID 0)
    [lost_reply; lost_reply; ok_reply "10.0.0.1" 5000; ok_reply "10.0.0.1" 7000].
Definition t0 : PING :=
  (NewPing 0 "t" "host" "10.0.0.1" "" 10 1000000 2 ∅ s_init).1.1.
Definition s0 : @shared script_transport :=
  (NewPing 0 "t" "host" "10.0.0.1" "" 10 1000000 2 ∅ s_init).2.

Lemma t0_ok : PING_ok t0 s0.
Proof. eexists. split; [reflexivity|]. vm_compute. eauto. Defined.

Lemma ping_publishes_cycle_witness :
  ∃ t' s' data,
    ping t0 s0 = Some (t', s') ∧ PING_ok t' s' ∧
    Compute t' = Some data ∧ sh_heap s0 !! data = None ∧
    read s' (Compute t') = Some (cycle_out t0 s0) ∧
    set_result t' None = set_result t0 None ∧
    sh_ids s' = (Get (sh_ids s0)).2 ∧ sh_net s' = cycle_net t0 s0.
Proof. apply (ping_publishes_cycle t0 s0 t0_ok). Defined.

Lemma ping_summary_not_cumulative_witness :
  ∃ tk sk t' s',
    ping_many 1 t0 s0 = Some (tk, sk) ∧ ping_many 2 t0 s0 = Some (t', s') ∧
    read s' (Compute t') = Some (cycle_out tk sk) ∧
    SntSummary (cycle_out tk sk) = count t0.
Proof. apply (ping_summary_not_cumulative 1 t0 s0 t0_ok). Defined.

Lemma ping_mutates_snapshot_witness :
  ∃ t' s' new,
    ping t0 s0 = Some (t', s') ∧ read s' (Some 1%positive) = Some new ∧
    SntSummary new = SntSummary PingResult_zero ⊕ count t0 ∧
    SntFailSummary new = SntFailSummary PingResult_zero ⊕ SntFailSummary (cycle_out t0 s0) ∧
    SntTimeSummary new = SntTimeSummary PingResult_zero ⊕ SntTimeSummary (cycle_out t0 s0) ∧
    latencies new = latencies PingResult_zero ∧
    Compute t' ≠ Some 1%positive.
Proof. apply (ping_mutates_snapshot t0 s0 1%positive PingResult_zero); reflexivity. Defined.

Lemma ping_ids_distinct_witness :
  NoDup (ping_ids 3 t0 s0) ∧ Forall (λ id, 0 ≤ id < id_space) (ping_ids 3 t0 s0) ∧
  length (ping_ids 3 t0 s0) = 3%nat.
Proof. apply (ping_ids_distinct 3 t0 s0 t0_ok). vm_compute. discriminate. Defined.

(** What [Compute] exposes after [k] cycles. *)
Definition exposed (k : nat) : option PingResult :=
  '(t, s) ← ping_many k t0 s0; read s (Compute t).

(** After the first cycle two packets count as sent and two as failed;
    after the second, again two as sent and none as failed: the exposed
    counters do not accumulate and the failure counter decreases. *)
Example ping_counters_example :
  (SntSummary <$> exposed 1, SntFailSummary <$> exposed 1) = (Some 2, Some 2) ∧
  (SntSummary <$> exposed 2, SntFailSummary <$> exposed 2) = (Some 2, Some 0).
Proof. by vm_compute. Qed.

(** The sums exist only in the objects that were replaced: the empty
    result of [NewPing], at address 1, holds the counters of the first
    cycle, and the result of the first cycle those of the first two. *)
Example ping_abandoned_sums_example :
  (s ← snd <$> ping_many 2 t0 s0; SntSummary <$> sh_heap s !! 1%positive) = Some 2 ∧
  (s ← snd <$> ping_many 2 t0 s0; SntSummary <$> sh_heap s !! 2%positive) = Some 4.
Proof. by vm_compute. Qed.

End scripted_target.

Section wrap.
Context `{EchoTransport}.

(** C39: the identifier space wraps silently: the cycle that follows
    another by 2^16 cycles carries the same identifier, so replies of
    requests that far apart are not told apart by it. *)
Theorem ping_ids_wrap k t s i :
  PING_ok t s → (i + Z.to_nat id_space < k)%nat →
  ping_ids k t s !! (i + Z.to_nat id_space)%nat = ping_ids k t s !! i.
Proof.
  intros Hok Hi. rewrite (ping_ids_Get_many k t s Hok).
  rewrite !Get_many_lookup by lia. f_equal.
  replace (Z.of_nat (S (i + Z.to_nat id_space))) with (Z.of_nat (S i) + 1 * id_space)
    by (unfold id_space; lia).
  rewrite Z.add_assoc, Z.mod_add; [done|]. by unfold id_space.
Qed.

End wrap.

Lemma ping_ids_wrap_witness :
  let k := (Z.to_nat id_space + 2)%nat in
  ping_ids k t0 s0 !! (1 + Z.to_nat id_space)%nat = ping_ids k t0 s0 !! 1%nat.
Proof. apply (ping_ids_wrap _ t0 s0 1 t0_ok). lia. Defined.

End PING.
