(* ===== verification/HopSummary.v ===== *)
(** * HopSummary: the hop summary aggregator

    The loop of [MTR.mtr] in [src/target/target_mtr.go] (lines 101-112)
    merges the hops of one trace into the map of cumulative totals of the
    target.  The key of a hop is [strconv.Itoa(hop.TTL) + "_" +
    hop.AddressTo]; an absent entry is created with zero counters; the two
    addresses are overwritten and the three counters are added to.

    The map [map[string]*common.IcmpSummary] is modelled by its contents, a
    [gmap string IcmpSummary.t]: a summary object is reachable only through
    the entry of the map that points to it.  The identity of the map object
    itself, which successive results share, is modelled in [MtrTarget].
    [IcmpHop] and [IcmpSummary] are types of [pkg/common], modelled with the
    fields this file of the source reads and writes.  Counters are Go [int]
    and [time.Duration]: additions wrap at 64 bits. *)

From Stdlib Require Import Ascii.
From stdpp Require Import pretty.
From S2P Require Import Prelude.

#[local] Open Scope go_scope.
#[local] Set Warnings "-clear-no-such-hyp".

(** [common.IcmpHop]: one hop of one trace. *)
Module IcmpHop.
Record t : Type := mk {
  TTL : Z;
  AddressFrom : string;
  AddressTo : string;
  Snt : Z;
  SumTime : Duration;
  SntFail : Z;
}.
End IcmpHop.

(** [common.IcmpSummary]: the cumulative totals of one hop identity. *)
Module IcmpSummary.
Record t : Type := mk {
  AddressFrom : string;
  AddressTo : string;
  Snt : Z;
  SntTime : Duration;
  SntFail : Z;
}.

(** [&common.IcmpSummary{}] *)
Definition zero : t := mk "" "" 0 0 0.
End IcmpSummary.

#[global] Instance IcmpHop_eq_dec : EqDecision IcmpHop.t.
Proof. solve_decision. Defined.
#[global] Instance IcmpSummary_eq_dec : EqDecision IcmpSummary.t.
Proof. solve_decision. Defined.

Abbreviation summaries := (gmap string IcmpSummary.t) (only parsing).

(** [strconv.Itoa]: the decimal representation, with a minus sign for
    negative numbers. *)
Definition Itoa (n : Z) : string := pretty n.

(** [strconv.Itoa(hop.TTL) + "_" + hop.AddressTo] *)
Definition hop_key (hop : IcmpHop.t) : string :=
  Itoa (IcmpHop.TTL hop) +:+ "_" +:+ IcmpHop.AddressTo hop.

(** The five assignments to the summary of a hop. *)
Definition add_hop (summary : IcmpSummary.t) (hop : IcmpHop.t) : IcmpSummary.t :=
  IcmpSummary.mk (IcmpHop.AddressFrom hop) (IcmpHop.AddressTo hop)
    (IcmpSummary.Snt summary ⊕ IcmpHop.Snt hop)
    (IcmpSummary.SntTime summary ⊕ IcmpHop.SumTime hop)
    (IcmpSummary.SntFail summary ⊕ IcmpHop.SntFail hop).

(** One iteration of the loop: the entry of the key of the hop, created
    with zero counters when it is absent, is updated. *)
Definition merge_hop (summaryMap : summaries) (hop : IcmpHop.t) : summaries :=
  let key := hop_key hop in
  let summary :=
    match summaryMap !! key with
    | None => IcmpSummary.zero
    | Some summary => summary
    end in
  <[key := add_hop summary hop]> summaryMap.

(** The loop over [data.Hops], in the order of the slice. *)
Definition merge_hops (summaryMap : summaries) (hops : list IcmpHop.t) : summaries :=
  foldl merge_hop summaryMap hops.

(** ** Reference definitions *)

(** Whether a character occurs in a string. *)
Fixpoint has_char (c : ascii) (s : string) : bool :=
  match s with
  | EmptyString => false
  | String a s' => bool_decide (a = c) || has_char c s'
  end.

(** The hops of a trace that have a given key. *)
Definition hops_at (key : string) (hops : list IcmpHop.t) : list IcmpHop.t :=
  filter (λ hop, hop_key hop = key) hops.

(** The three totals of a summary. *)
Definition totals (summary : IcmpSummary.t) : Z * Z * Z :=
  (IcmpSummary.Snt summary, IcmpSummary.SntTime summary, IcmpSummary.SntFail summary).

(** The totals of an entry of a map, zero when it is absent. *)
Definition totals_at (m : summaries) (key : string) : Z * Z * Z :=
  totals (default IcmpSummary.zero (m !! key)).

(** Two maps are equivalent when they have the same keys, and the same
    responding address and totals at each key: they differ at most in the
    origin addresses, which the last hop merged at a key decides. *)
Definition summary_equiv (a b : IcmpSummary.t) : Prop :=
  IcmpSummary.AddressTo a = IcmpSummary.AddressTo b ∧ totals a = totals b.

Definition summaries_equiv (m1 m2 : summaries) : Prop :=
  ∀ key, option_Forall2 summary_equiv (m1 !! key) (m2 !! key).

(** The sums of the three counters of a list of hops. *)
Definition hop_sums (hs : list IcmpHop.t) : Z * Z * Z :=
  (sumZ (IcmpHop.Snt <$> hs), sumZ (IcmpHop.SumTime <$> hs), sumZ (IcmpHop.SntFail <$> hs)).

(** Triples of counters: wrapped addition, exact addition, order. *)
Definition add3w (a b : Z * Z * Z) : Z * Z * Z :=
  (a.1.1 ⊕ b.1.1, a.1.2 ⊕ b.1.2, a.2 ⊕ b.2).
Definition add3 (a b : Z * Z * Z) : Z * Z * Z :=
  (a.1.1 + b.1.1, a.1.2 + b.1.2, a.2 + b.2).
Definition le3 (a b : Z * Z * Z) : Prop :=
  a.1.1 ≤ b.1.1 ∧ a.1.2 ≤ b.1.2 ∧ a.2 ≤ b.2.
Definition int64_3 (a : Z * Z * Z) : Prop :=
  int64 a.1.1 ∧ int64 a.1.2 ∧ int64 a.2.

(** The entry of a key after the hops [hs] of that key have been merged
    into the entry [old]: the addresses of the last hop and the old totals
    plus the sums of the counters of the hops, wrapped once. *)
Definition merged_entry (old : option IcmpSummary.t) (hs : list IcmpHop.t) :
    option IcmpSummary.t :=
  match last hs with
  | None => old
  | Some hop =>
      let o := totals (default IcmpSummary.zero old) in
      let n := add3w o (hop_sums hs) in
      Some (IcmpSummary.mk (IcmpHop.AddressFrom hop) (IcmpHop.AddressTo hop)
              n.1.1 n.1.2 n.2)
  end.

(** The counters of the hops of a trace are counts and times. *)
Definition hop_ok (hop : IcmpHop.t) : Prop :=
  0 ≤ IcmpHop.Snt hop ∧ 0 ≤ IcmpHop.SumTime hop ∧ 0 ≤ IcmpHop.SntFail hop.

#[global] Instance hop_ok_dec hop : Decision (hop_ok hop).
Proof. unfold hop_ok. apply _. Defined.
#[global] Instance int64_3_dec a : Decision (int64_3 a).
Proof. unfold int64_3. apply _. Defined.
#[global] Instance le3_dec a b : Decision (le3 a b).
Proof. unfold le3. apply _. Defined.

(** ** Keys *)

Section keys.
Implicit Types (s t : string) (c : ascii) (hop : IcmpHop.t) (n : N).

Lemma has_char_app c s t : has_char c (s +:+ t) = has_char c s || has_char c t.
Proof. induction s as [|a s IH]; simpl; [done|]. by rewrite IH, orb_assoc. Qed.

(** A separator that occurs in neither prefix splits a string in one way. *)
Lemma sep_split_inj c s1 s2 t1 t2 :
  has_char c s1 = false → has_char c s2 = false →
  s1 +:+ String c t1 = s2 +:+ String c t2 → s1 = s2 ∧ t1 = t2.
Proof.
  revert s2. induction s1 as [|a s1 IH]; intros [|b s2]; simpl; intros H1 H2 E.
  - by injection E.
  - injection E as -> _. by rewrite bool_decide_eq_true_2 in H2.
  - injection E as -> _. by rewrite bool_decide_eq_true_2 in H1.
  - injection E as -> E. apply orb_false_iff in H1 as [_ H1], H2 as [_ H2].
    destruct (IH s2 H1 H2 E) as [-> ->]. done.
Qed.

Lemma pretty_N_char_not_sep n : pretty_N_char n ≠ "_"%char.
Proof. unfold pretty_N_char. by repeat case_match. Qed.

Lemma pretty_N_go_has_sep n s :
  has_char "_" (pretty_N_go n s) = has_char "_" s.
Proof.
  revert s. induction (N.lt_wf_0 n) as [n _ IH]; intros s.
  destruct (decide (n = 0%N)) as [->|Hn]; [by rewrite pretty_N_go_0|].
  rewrite pretty_N_go_step by lia. rewrite IH by (apply N.div_lt; lia).
  simpl. rewrite bool_decide_eq_false_2; [done|]. apply pretty_N_char_not_sep.
Qed.

Lemma pretty_N_has_sep (n : N) : has_char "_" (pretty n) = false.
Proof.
  unfold pretty, pretty_N. case_decide; [done|]. apply pretty_N_go_has_sep.
Qed.

(** The decimal representation of a number has no underscore. *)
Lemma Itoa_no_sep (n : Z) : has_char "_" (Itoa n) = false.
Proof.
  unfold Itoa, pretty, pretty_Z. destruct n as [|p|p]; simpl;
    rewrite ?has_char_app; simpl; first [done | apply pretty_N_has_sep].
Qed.

Lemma Itoa_inj : Inj (=) (=) Itoa.
Proof. unfold Itoa. apply _. Qed.

End keys.

(** ** One hop *)

Section merge.
Implicit Types (m : summaries) (hop : IcmpHop.t) (hops : list IcmpHop.t) (key : string).

Lemma merge_hop_lookup m hop :
  merge_hop m hop !! hop_key hop =
  Some (add_hop (default IcmpSummary.zero (m !! hop_key hop)) hop).
Proof. unfold merge_hop. rewrite lookup_insert_eq. by destruct (m !! _). Qed.

Lemma merge_hop_lookup_ne m hop key :
  key ≠ hop_key hop → merge_hop m hop !! key = m !! key.
Proof. intros Hne. unfold merge_hop. by rewrite lookup_insert_ne. Qed.

Lemma merge_hops_snoc m hops hop :
  merge_hops m (hops ++ [hop]) = merge_hop (merge_hops m hops) hop.
Proof. unfold merge_hops. by rewrite foldl_snoc. Qed.

Lemma merge_hops_app m hops1 hops2 :
  merge_hops m (hops1 ++ hops2) = merge_hops (merge_hops m hops1) hops2.
Proof. unfold merge_hops. by rewrite foldl_app. Qed.

Lemma merge_hop_is_Some m hop key :
  is_Some (m !! key) → is_Some (merge_hop m hop !! key).
Proof.
  intros Hk. destruct (decide (key = hop_key hop)) as [->|Hne].
  - rewrite merge_hop_lookup. by eexists.
  - by rewrite merge_hop_lookup_ne.
Qed.

Lemma hops_at_snoc key hops hop :
  hops_at key (hops ++ [hop]) =
  hops_at key hops ++ (if decide (hop_key hop = key) then [hop] else []).
Proof.
  unfold hops_at. by rewrite filter_app.
Qed.

Lemma totals_at_merge_hop m hop :
  totals_at (merge_hop m hop) (hop_key hop) =
  totals (add_hop (default IcmpSummary.zero (m !! hop_key hop)) hop).
Proof. unfold totals_at. by rewrite merge_hop_lookup. Qed.

Lemma totals_at_merge_hop_ne m hop key :
  key ≠ hop_key hop → totals_at (merge_hop m hop) key = totals_at m key.
Proof. intros Hne. unfold totals_at. by rewrite merge_hop_lookup_ne. Qed.

End merge.

(** ** The whole loop, key by key *)

Section lookup.
Implicit Types (m : summaries) (hop : IcmpHop.t) (hs hops : list IcmpHop.t) (key : string).
Implicit Types (old : option IcmpSummary.t).

Lemma hop_sums_nil : hop_sums [] = (0, 0, 0).
Proof. reflexivity. Qed.

Lemma hop_sums_snoc hs hop :
  hop_sums (hs ++ [hop]) =
  add3 (hop_sums hs) (IcmpHop.Snt hop, IcmpHop.SumTime hop, IcmpHop.SntFail hop).
Proof.
  unfold hop_sums, add3. rewrite !fmap_app. cbn [fmap list_fmap].
  by rewrite !sumZ_snoc.
Qed.

Lemma hop_sums_perm hs hs' : hs ≡ₚ hs' → hop_sums hs = hop_sums hs'.
Proof. intros Hp. unfold hop_sums. by rewrite Hp. Qed.

Lemma merged_entry_nil old : merged_entry old [] = old.
Proof. reflexivity. Qed.

(** Merging one more hop of the key is one more iteration of the loop. *)
Lemma merged_entry_snoc old hs hop :
  merged_entry old (hs ++ [hop]) =
  Some (add_hop (default IcmpSummary.zero (merged_entry old hs)) hop).
Proof.
  unfold merged_entry. rewrite last_snoc, hop_sums_snoc.
  destruct (last hs) as [h|] eqn:E; unfold add_hop, add3w, add3; simpl.
  - f_equal. f_equal; rewrite wrap64_add_l; f_equal; lia.
  - by apply last_None in E as ->.
Qed.

(** The loop computes, at every key, the closed form [merged_entry] of
    the entry before the loop and the hops of that key. *)
Lemma merge_hops_entry m hops key :
  merge_hops m hops !! key = merged_entry (m !! key) (hops_at key hops).
Proof.
  induction hops as [|hop hops IH] using rev_ind; [done|].
  rewrite merge_hops_snoc, hops_at_snoc. case_decide as Hk.
  - subst key. by rewrite merge_hop_lookup, merged_entry_snoc, IH.
  - by rewrite merge_hop_lookup_ne, app_nil_r.
Qed.

Lemma merged_entry_is_Some old hs : is_Some old → is_Some (merged_entry old hs).
Proof. intros Ho. unfold merged_entry. destruct (last hs); [by eexists|done]. Qed.

Lemma merged_entry_totals old hs :
  int64_3 (totals (default IcmpSummary.zero old)) →
  totals (default IcmpSummary.zero (merged_entry old hs)) =
  add3w (totals (default IcmpSummary.zero old)) (hop_sums hs).
Proof.
  intros (H1 & H2 & H3). unfold merged_entry.
  destruct (last hs) as [h|] eqn:E; [done|]. apply last_None in E as ->.
  unfold add3w, totals in *. simpl in *. rewrite !Z.add_0_r, !wrap64_id; done.
Qed.

(** The hops of a key all carry the responding address of the key. *)
Lemma hops_at_AddressTo key hops h1 h2 :
  h1 ∈ hops_at key hops → h2 ∈ hops_at key hops →
  IcmpHop.AddressTo h1 = IcmpHop.AddressTo h2.
Proof.
  unfold hops_at. rewrite !list_elem_of_filter. intros [E1 _] [E2 _].
  rewrite <-E2 in E1. unfold hop_key in E1.
  by apply sep_split_inj in E1 as [_ ?]; [|apply Itoa_no_sep..].
Qed.

End lookup.

(** ** The equivalence of summary maps *)

#[global] Instance summary_equiv_equivalence : Equivalence summary_equiv.
Proof.
  unfold summary_equiv. split.
  - by intros a.
  - by intros a b [-> ->].
  - by intros a b c [-> ->] [-> ->].
Qed.

#[global] Instance summaries_equiv_equivalence : Equivalence summaries_equiv.
Proof.
  unfold summaries_equiv. split.
  - intros m key. reflexivity.
  - intros m1 m2 E key. destruct (E key); constructor. by symmetry.
  - intros m1 m2 m3 E1 E2 key. specialize (E1 key). specialize (E2 key).
    destruct E1; inversion E2; simplify_eq; constructor. by etrans.
Qed.

Section equivalence.
Implicit Types (m : summaries) (hop : IcmpHop.t) (hs hops : list IcmpHop.t) (key : string).
Implicit Types (old : option IcmpSummary.t).

Lemma summary_equiv_default old old' :
  option_Forall2 summary_equiv old old' →
  totals (default IcmpSummary.zero old) = totals (default IcmpSummary.zero old').
Proof. by intros [a b [_ E]|]. Qed.

(** The entry of a key depends on the order of its hops only in the
    origin address. *)
Lemma merged_entry_equiv old old' hs hs' :
  option_Forall2 summary_equiv old old' → hs ≡ₚ hs' →
  (∀ h1 h2, h1 ∈ hs → h2 ∈ hs → IcmpHop.AddressTo h1 = IcmpHop.AddressTo h2) →
  option_Forall2 summary_equiv (merged_entry old hs) (merged_entry old' hs').
Proof.
  intros Hold Hp Hto. unfold merged_entry.
  destruct (last hs) as [h|] eqn:E; destruct (last hs') as [h'|] eqn:E'.
  - constructor. split.
    + simpl. apply Hto; [by eapply last_Some_elem_of|].
      rewrite Hp. by eapply last_Some_elem_of.
    + by rewrite (summary_equiv_default _ _ Hold), (hop_sums_perm _ _ Hp).
  - apply last_None in E'. subst hs'. apply Permutation_nil_r in Hp. by subst.
  - apply last_None in E. subst hs. apply Permutation_nil_l in Hp. by subst.
  - done.
Qed.

(** Merging respects the equivalence of maps and the reordering of hops. *)
#[global] Instance merge_hops_proper :
  Proper (summaries_equiv ==> (≡ₚ) ==> summaries_equiv) merge_hops.
Proof.
  intros m m' Hm hops hops' Hp key. rewrite !merge_hops_entry.
  apply merged_entry_equiv; [apply Hm|unfold hops_at; by rewrite Hp|].
  apply hops_at_AddressTo.
Qed.

End equivalence.

(** ** The properties of the aggregator *)

Section aggregator.
Implicit Types (m : summaries) (hop : IcmpHop.t) (hs hops : list IcmpHop.t) (key : string).

(** C15: after the loop of [mtr] over the hops of a trace, the entry of
    every key is determined by the entry before the loop and by the hops
    of the trace that have this key: it is unchanged when there is none,
    and otherwise holds the addresses of the last such hop and the old
    totals (zero for a new entry) plus the sums of the counters of these
    hops, at 64 bits. *)
Theorem merge_hops_lookup m hops key :
  merge_hops m hops !! key = merged_entry (m !! key) (hops_at key hops) ∧
  (hops_at key hops = [] → merge_hops m hops !! key = m !! key) ∧
  (∀ h, last (hops_at key hops) = Some h →
     ∃ summary, merge_hops m hops !! key = Some summary ∧
       IcmpSummary.AddressFrom summary = IcmpHop.AddressFrom h ∧
       IcmpSummary.AddressTo summary = IcmpHop.AddressTo h ∧
       totals summary = add3w (totals_at m key) (hop_sums (hops_at key hops))).
Proof.
  rewrite merge_hops_entry. split_and!; [done|by intros ->|].
  intros h Hh. unfold merged_entry. rewrite Hh. by eexists.
Qed.

(** C16: the key of a hop identifies its distance and its responding
    address: two hops have the same key exactly when they agree on both.
    The separator cannot occur in the decimal distance, so an address that
    contains underscores does not make two keys collide. *)
Theorem hop_key_inj h1 h2 :
  hop_key h1 = hop_key h2 ↔
  IcmpHop.TTL h1 = IcmpHop.TTL h2 ∧ IcmpHop.AddressTo h1 = IcmpHop.AddressTo h2.
Proof.
  unfold hop_key. split; [|by intros [-> ->]].
  intros E. apply sep_split_inj in E as [E ?]; [|apply Itoa_no_sep..].
  by apply Itoa_inj in E.
Qed.

Lemma hops_at_absent key hops : key ∉ hop_key <$> hops → hops_at key hops = [].
Proof.
  intros Hk. apply filter_none, Forall_forall. intros h Hh <-.
  apply Hk, list_elem_of_fmap. by exists h.
Qed.

(** C17: a key that no hop of the trace has keeps its entry: a hop
    identity absent from a trace retains its totals. *)
Theorem merge_hops_keeps_absent m hops key :
  key ∉ hop_key <$> hops → merge_hops m hops !! key = m !! key.
Proof. intros Hk. by rewrite merge_hops_entry, hops_at_absent. Qed.

Lemma merge_hop_dom m hop : dom (merge_hop m hop) = {[hop_key hop]} ∪ dom m.
Proof. unfold merge_hop. by rewrite dom_insert_L. Qed.

(** C18: the keys after the loop are the keys before it and the keys of
    the hops of the trace: no entry is ever removed. *)
Theorem merge_hops_dom m hops :
  dom (merge_hops m hops) = dom m ∪ list_to_set (hop_key <$> hops).
Proof.
  induction hops as [|hop hops IH] using rev_ind; [set_solver|].
  rewrite merge_hops_snoc, merge_hop_dom, IH, fmap_app, list_to_set_app_L.
  set_solver.
Qed.

Lemma hop_sums_nonneg hs : Forall hop_ok hs → le3 (0, 0, 0) (hop_sums hs).
Proof.
  intros Hs. unfold le3, hop_sums. simpl.
  split_and!; apply sumZ_nonneg, Forall_fmap; eapply Forall_impl; [done| |done| |done|];
    by intros h (?&?&?).
Qed.

(** C19: when the counters of the hops are not negative and the totals
    do not overflow, the totals of a key after the loop are the totals
    before it plus the sums of the counters of the hops of the key, and
    none of them has decreased. *)
Theorem merge_hops_exact m hops key :
  Forall hop_ok hops →
  int64_3 (totals_at m key) →
  int64_3 (add3 (totals_at m key) (hop_sums (hops_at key hops))) →
  totals_at (merge_hops m hops) key = add3 (totals_at m key) (hop_sums (hops_at key hops)) ∧
  le3 (totals_at m key) (totals_at (merge_hops m hops) key).
Proof.
  intros Hok Hold Hfit.
  assert (le3 (0, 0, 0) (hop_sums (hops_at key hops))) as Hpos.
  { apply hop_sums_nonneg, Forall_forall. rewrite Forall_forall in Hok.
    intros h [_ Hh]%list_elem_of_filter. by apply Hok. }
  assert (totals_at (merge_hops m hops) key
          = add3 (totals_at m key) (hop_sums (hops_at key hops))) as ->.
  { unfold totals_at. rewrite merge_hops_entry, merged_entry_totals by done.
    destruct Hfit as (?&?&?). unfold add3w, add3. by rewrite !wrap64_id. }
  split; [done|]. unfold le3, add3 in *. simpl in *. lia.
Qed.

(** C20: two traces merged in either order give equivalent maps: the
    same keys, and at each key the same responding address and the same
    totals.  Overlapping cycles that publish in any order leave the same
    cumulative counters. *)
Theorem merge_hops_interleave m hops1 hops2 :
  summaries_equiv (merge_hops (merge_hops m hops1) hops2)
                  (merge_hops (merge_hops m hops2) hops1).
Proof.
  rewrite <-!merge_hops_app. apply merge_hops_proper; [done|].
  apply Permutation_app_comm.
Qed.

End aggregator.

(** ** Concrete traces *)

Section traces.

(** Hop 3 answered by 10.0.0.1 in two cycles, and hop 2 in one. *)
Definition hop3a : IcmpHop.t := IcmpHop.mk 3 "10.0.0.254" "10.0.0.1" 1 (5 * Millisecond) 0.
Definition hop3b : IcmpHop.t := IcmpHop.mk 3 "10.0.1.254" "10.0.0.1" 1 (7 * Millisecond) 1.
Definition hop2 : IcmpHop.t := IcmpHop.mk 2 "192.168.0.1" "10.0.0.254" 1 (3 * Millisecond) 0.

Example hop_key_example : hop_key hop3a = "3_10.0.0.1".
Proof. reflexivity. Qed.

Lemma merge_hops_keeps_absent_witness :
  merge_hops (merge_hops ∅ [hop2; hop3a]) [hop3b] !! hop_key hop2 =
  merge_hops ∅ [hop2; hop3a] !! hop_key hop2.
Proof.
  apply (merge_hops_keeps_absent (merge_hops ∅ [hop2; hop3a]) [hop3b] (hop_key hop2)).
  apply (bool_decide_unpack _). vm_compute. exact I.
Defined.

Lemma merge_hops_exact_witness :
  totals_at (merge_hops (merge_hops ∅ [hop2; hop3a]) [hop3b]) (hop_key hop3a)
  = (2, 12 * Millisecond, 1).
Proof.
  refine (proj1 (merge_hops_exact (merge_hops ∅ [hop2; hop3a]) [hop3b] (hop_key hop3a) _ _ _)).
  - apply (bool_decide_unpack _). vm_compute. exact I.
  - apply (bool_decide_unpack _). vm_compute. exact I.
  - apply (bool_decide_unpack _). vm_compute. exact I.
Defined.

(** The two cycles of hop 3, merged into an empty map: the totals of the
    key are those of the example of the specification, and the origin
    address is that of the cycle merged last. *)
Example merge_hops_example :
  merge_hops (merge_hops ∅ [hop2; hop3a]) [hop3b] !! "3_10.0.0.1" =
  Some (IcmpSummary.mk "10.0.1.254" "10.0.0.1" 2 (12 * Millisecond) 1).
Proof. vm_compute. reflexivity. Qed.

(** Merged in the other order the maps are equivalent and not equal. *)
Example merge_hops_order_AddressFrom :
  merge_hops (merge_hops ∅ [hop3a]) [hop3b] ≠ merge_hops (merge_hops ∅ [hop3b]) [hop3a].
Proof.
  intros E. apply (f_equal (λ m, IcmpSummary.AddressFrom <$> m !! "3_10.0.0.1")) in E.
  vm_compute in E. discriminate.
Qed.

(** A total at the largest [int] wraps to a negative number. *)
Example merge_hops_wraps :
  totals_at (merge_hops {[ "3_10.0.0.1" := IcmpSummary.mk "" "10.0.0.1" max_int64 0 0 ]} [hop3a])
    "3_10.0.0.1" = (min_int64, 5 * Millisecond, 0).
Proof. vm_compute. reflexivity. Qed.

End traces.
