(* ===== verification/MtrTarget.v ===== *)
(** * MtrTarget: the [MTR] target of [src/target/target_mtr.go]

    A target holds its configuration and a pointer [result] to a
    [mtr.MtrResult], which in turn holds the hops of the latest trace and
    a Go map of cumulative hop summaries.  A Go map is a reference: the
    critical section of [mtr] reads the map out of the current result,
    makes [t.result] point to the new result, merges the hops of the new
    result into the map and stores the same map in the new result.  All
    results of a target therefore share one map object.

    The model has a heap of results and a heap of maps; a result holds the
    address of its map ([None] is the nil map).  The method is split at
    the points where other goroutines can run: [mtr_start] (the
    allocator), [mtr_probe] (the trace, by the collaborator [mtr.Mtr]) and
    [mtr_publish] (the critical section); [mtr] is their composition.  A
    panic of the Go runtime (a nil pointer dereferenced, an entry assigned
    in a nil map) is the value [None].

    The collaborator [mtr.Mtr] of [pkg/mtr] is the class [HopTrace]: it
    returns a pointer to a result, of which the model keeps the hops, or
    nil. *)

From S2P Require Import Prelude Transport IcmpID HopSummary.

#[local] Set Warnings "-clear-no-such-hyp".

(** [mtr.MtrResult], with the fields the target reads and writes. *)
Record MtrResult : Type := mkMtrResult {
  Hops : list IcmpHop.t;
  HopSummaryMap : option loc;
}.

(** The hop trace collaborator: [mtr.Mtr(host, srcAddr, maxHops, count,
    timeout, icmpID)] in a state of the network; the hops of the result
    it returns, [None] when the pointer is nil. *)
Class HopTrace : Type := {
  net : Type;
  Mtr : string → string → Z → Z → Duration → Z → net →
        option (list IcmpHop.t) * option error * net;
}.

(** A collaborator that always returns a result. *)
Class HopTraceOk `{HopTrace} : Prop := {
  Mtr_not_nil host srcAddr maxHops count timeout icmpID w :
    is_Some (Mtr host srcAddr maxHops count timeout icmpID w).1.1;
}.

Module MTR.

(** The fields of the struct [MTR] that hold data. *)
Record MTR : Type := mkMTR {
  name : string;
  host : string;
  srcAddr : string;
  interval : Duration;
  timeout : Duration;
  maxHops : Z;
  count : Z;
  labels : gmap string string;
  result : option loc;
}.

Definition set_result (t : MTR) (r : option loc) : MTR :=
  mkMTR (name t) (host t) (srcAddr t) (interval t) (timeout t) (maxHops t) (count t)
    (labels t) r.

Section methods.
Context `{HopTrace}.

(** The state shared by the goroutines: the heap of results, the heap of
    summary maps, the identifier allocator and the network. *)
Record shared : Type := mkShared {
  sh_results : gmap loc MtrResult;
  sh_maps : gmap loc summaries;
  sh_ids : IcmpID;
  sh_net : net;
}.

(** [&mtr.MtrResult{...}] *)
Definition alloc_result (v : MtrResult) (s : shared) : loc * shared :=
  let l := fresh (dom (sh_results s)) in
  (l, mkShared (<[l := v]> (sh_results s)) (sh_maps s) (sh_ids s) (sh_net s)).

(** [map[string]*common.IcmpSummary{}] *)
Definition alloc_map (s : shared) : loc * shared :=
  let l := fresh (dom (sh_maps s)) in
  (l, mkShared (sh_results s) (<[l := ∅]> (sh_maps s)) (sh_ids s) (sh_net s)).

(** [NewMTR]: the target with an empty result that holds an empty map.
    The goroutine it starts is [run] of [Scheduler]; the error returned is
    always [nil]. *)
Definition NewMTR (startupDelay : Duration) (name host srcAddr : string)
    (interval timeout : Duration) (maxHops count : Z) (labels : gmap string string)
    (s : shared) : MTR * option error * shared :=
  let '(m, s1) := alloc_map s in
  let '(l, s2) := alloc_result (mkMtrResult [] (Some m)) s1 in
  (mkMTR name host srcAddr interval timeout maxHops count labels (Some l), None, s2).

(** [icmpID := int(t.icmpID.Get())] *)
Definition mtr_start (t : MTR) (s : shared) : Z * shared :=
  let '(id, ids) := Get (sh_ids s) in
  (id, mkShared (sh_results s) (sh_maps s) ids (sh_net s)).

(** [data, err := mtr.Mtr(...)]: the trace, and the new result object
    [data] points to, whose map is not set yet. *)
Definition mtr_probe (t : MTR) (icmpID : Z) (s : shared) :
    option loc * option error * shared :=
  let '(out, err, w) :=
    Mtr (host t) (srcAddr t) (maxHops t) (count t) (timeout t) icmpID (sh_net s) in
  let s1 := mkShared (sh_results s) (sh_maps s) (sh_ids s) w in
  match out with
  | None => (None, err, s1)
  | Some hops =>
      let '(data, s2) := alloc_result (mkMtrResult hops None) s1 in
      (Some data, err, s2)
  end.

(** The loop of the critical section on the map object [summaryMap]
    points to.  Reading a nil map gives nil; assigning an entry in a nil
    map panics, so a nil map survives only a trace with no hops. *)
Definition merge_into (summaryMap : option loc) (hops : list IcmpHop.t)
    (maps : gmap loc summaries) : option (gmap loc summaries) :=
  match summaryMap with
  | Some ml => m ← maps !! ml; Some (<[ml := merge_hops m hops]> maps)
  | None => if hops is [] then Some maps else None
  end.

(** The critical section of [mtr]: the map is read out of the current
    result, [t.result] is set to [data], the hops of [data] are merged
    into the map, and the map is stored in [data]. *)
Definition mtr_publish (t : MTR) (data : option loc) (s : shared) : option (MTR * shared) :=
  r ← result t;
  old ← sh_results s !! r;
  let summaryMap := HopSummaryMap old in
  d ← data;
  new ← sh_results s !! d;
  maps ← merge_into summaryMap (Hops new) (sh_maps s);
  Some (set_result t (Some d),
        mkShared (<[d := mkMtrResult (Hops new) summaryMap]> (sh_results s)) maps
          (sh_ids s) (sh_net s)).

(** The method [mtr]. *)
Definition mtr (t : MTR) (s : shared) : option (MTR * shared) :=
  let '(icmpID, s1) := mtr_start t s in
  let '(data, _, s2) := mtr_probe t icmpID s1 in
  mtr_publish t data s2.

(** [Compute]: the pointer to the current result. *)
Definition Compute (t : MTR) : option loc :=
  match result t with
  | None => None
  | Some r => Some r
  end.

Definition Name (t : MTR) : string := name t.
Definition Host (t : MTR) : string := host t.
Definition Labels (t : MTR) : gmap string string := labels t.

(** What a reader sees through the pointer [Compute] gave it: the hops of
    the result and the contents of its map. *)
Definition read (s : shared) (p : option loc) : option (list IcmpHop.t * summaries) :=
  l ← p; res ← sh_results s !! l; ml ← HopSummaryMap res; m ← sh_maps s !! ml;
  Some (Hops res, m).

(** A target is well formed in a state when its result pointer is the
    address of a result whose map is at [ml] and holds [m]. *)
Definition MTR_at (t : MTR) (s : shared) (ml : loc) (m : summaries) : Prop :=
  ∃ r res, result t = Some r ∧ sh_results s !! r = Some res ∧
           HopSummaryMap res = Some ml ∧ sh_maps s !! ml = Some m.

Definition MTR_ok (t : MTR) (s : shared) : Prop := ∃ ml m, MTR_at t s ml m.

(** The hops the trace of the cycle that [mtr] runs in state [s] returns,
    and the network after it. *)
Definition cycle_hops (t : MTR) (s : shared) : option (list IcmpHop.t) :=
  (Mtr (host t) (srcAddr t) (maxHops t) (count t) (timeout t) (Get (sh_ids s)).1 (sh_net s)).1.1.
Definition cycle_net (t : MTR) (s : shared) : net :=
  (Mtr (host t) (srcAddr t) (maxHops t) (count t) (timeout t) (Get (sh_ids s)).1 (sh_net s)).2.

(** [k] cycles of the target, one after the other, and their traces. *)
Fixpoint mtr_many (k : nat) (t : MTR) (s : shared) : option (MTR * shared) :=
  match k with
  | O => Some (t, s)
  | S k' => '(t', s') ← mtr t s; mtr_many k' t' s'
  end.

Fixpoint mtr_traces (k : nat) (t : MTR) (s : shared) : list IcmpHop.t :=
  match k with
  | O => []
  | S k' =>
      default [] (cycle_hops t s) ++
      match mtr t s with
      | Some (t', s') => mtr_traces k' t' s'
      | None => []
      end
  end.

(** The state after a cycle that returns [hops], of a target whose map is
    at [ml] and holds [m]. *)
Definition after_mtr (t : MTR) (s : shared) (ml : loc) (m : summaries)
    (hops : list IcmpHop.t) : MTR * shared :=
  let data := fresh (dom (sh_results s)) in
  (set_result t (Some data),
   mkShared (<[data := mkMtrResult hops (Some ml)]> (sh_results s))
     (<[ml := merge_hops m hops]> (sh_maps s)) (Get (sh_ids s)).2 (cycle_net t s)).

End methods.

Section facts.
Context `{HopTrace}.
Implicit Types (t : MTR) (s : shared) (r d ml : loc) (m : summaries).
Implicit Types (hops : list IcmpHop.t).

Lemma MTR_at_ok t s ml m : MTR_at t s ml m → MTR_ok t s.
Proof. intros Hat. by exists ml, m. Qed.

(** The critical section on a well-formed target and a result of the
    heap. *)
Lemma mtr_publish_spec t s ml m d new :
  MTR_at t s ml m → sh_results s !! d = Some new →
  mtr_publish t (Some d) s =
  Some (set_result t (Some d),
        mkShared (<[d := mkMtrResult (Hops new) (Some ml)]> (sh_results s))
          (<[ml := merge_hops m (Hops new)]> (sh_maps s)) (sh_ids s) (sh_net s)).
Proof.
  intros (r & res & Hr & Hres & Hml & Hm) Hd. unfold mtr_publish.
  rewrite Hr. simpl. rewrite Hres. simpl. rewrite Hd. simpl.
  rewrite Hml. simpl. by rewrite Hm.
Qed.

(** A nil [data] panics in the critical section. *)
Lemma mtr_publish_nil t s : mtr_publish t None s = None.
Proof.
  unfold mtr_publish. destruct (result t) as [r|]; [|done]. simpl.
  by destruct (sh_results s !! r).
Qed.

(** Assigning an entry in a nil map panics: the critical section of a
    target whose result has a nil summary map panics at the first hop of
    the new trace. *)
Lemma mtr_publish_nil_map t s r old d new :
  result t = Some r → sh_results s !! r = Some old → HopSummaryMap old = None →
  sh_results s !! d = Some new →
  mtr_publish t (Some d) s = None ↔ Hops new ≠ [].
Proof.
  intros Hr Hold Hnil Hd. unfold mtr_publish. rewrite Hr. simpl. rewrite Hold. simpl.
  rewrite Hd, Hnil. simpl. by destruct (Hops new).
Qed.

Lemma mtr_unfold t s :
  mtr t s =
  match cycle_hops t s with
  | None => None
  | Some hops =>
      let s1 := mkShared (sh_results s) (sh_maps s) (Get (sh_ids s)).2 (cycle_net t s) in
      mtr_publish t (Some (alloc_result (mkMtrResult hops None) s1).1)
        (alloc_result (mkMtrResult hops None) s1).2
  end.
Proof.
  unfold mtr, mtr_start, mtr_probe, cycle_hops, cycle_net.
  destruct (Get (sh_ids s)) as [id ids]. simpl.
  destruct (Mtr _ _ _ _ _ _ _) as [[[hops|] err] w]; simpl; [done|].
  apply mtr_publish_nil.
Qed.

(** The method on a well-formed target whose trace returns a result. *)
Lemma mtr_spec t s ml m hops :
  MTR_at t s ml m → cycle_hops t s = Some hops →
  mtr t s = Some (after_mtr t s ml m hops).
Proof.
  intros (r & res & Hr & Hres & Hml & Hm) Hhops.
  rewrite mtr_unfold, Hhops. cbv zeta. unfold alloc_result. simpl.
  rewrite (mtr_publish_spec _ _ ml m _ (mkMtrResult hops None)); simpl.
  - unfold after_mtr. simpl. by rewrite insert_insert_eq.
  - exists r, res. split_and!; [done| |done|done]. simpl.
    rewrite lookup_insert_ne; [done|]. intros <-.
    by apply (is_fresh (dom (sh_results s))), elem_of_dom.
  - apply lookup_insert_eq.
Qed.

Lemma after_mtr_at t s ml m hops :
  MTR_at (after_mtr t s ml m hops).1 (after_mtr t s ml m hops).2 ml (merge_hops m hops).
Proof.
  eexists _, _. simpl. split_and!; [done|apply lookup_insert_eq|done|apply lookup_insert_eq].
Qed.

Lemma after_mtr_read t s ml m hops :
  read (after_mtr t s ml m hops).2 (Compute (after_mtr t s ml m hops).1) =
  Some (hops, merge_hops m hops).
Proof. unfold read. simpl. rewrite lookup_insert_eq. simpl. by rewrite lookup_insert_eq. Qed.

(** A result of the state before the cycle whose map is the map of the
    target is read with the merged map after it. *)
Lemma after_mtr_read_old t s ml m hops p res :
  sh_results s !! p = Some res → HopSummaryMap res = Some ml →
  read (after_mtr t s ml m hops).2 (Some p) = Some (Hops res, merge_hops m hops).
Proof.
  intros Hp Hml. unfold read. simpl. rewrite lookup_insert_ne.
  - rewrite Hp. simpl. rewrite Hml. simpl. by rewrite lookup_insert_eq.
  - intros <-. by apply (is_fresh (dom (sh_results s))), elem_of_dom.
Qed.

(** C21: a cycle of a well-formed target whose trace returns a result
    does not panic; afterwards [Compute] returns a new pointer, through
    which a reader sees the hops of this trace and the map of the target
    with these hops merged into it, and the target is well formed with the
    same map object. *)
Theorem mtr_publishes_trace t s ml m hops :
  MTR_at t s ml m → cycle_hops t s = Some hops →
  ∃ t' s', mtr t s = Some (t', s') ∧
    read s' (Compute t') = Some (hops, merge_hops m hops) ∧
    MTR_at t' s' ml (merge_hops m hops) ∧
    Compute t' ≠ Compute t.
Proof.
  intros Hat Hhops. eexists _, _. split; [by apply mtr_spec|].
  split; [apply after_mtr_read|]. split; [apply after_mtr_at|].
  destruct Hat as (r & res & Hr & Hres & _). unfold Compute. simpl. rewrite Hr.
  intros [= <-]. by apply (is_fresh (dom (sh_results s))), elem_of_dom.
Qed.

(** C22: the results of a target share one summary map: a reader that
    holds the pointer [Compute] returned before a cycle sees, after the
    cycle, the hops of the old trace with the totals of the new one. *)
Theorem mtr_shares_summary_map t s ml m hops old_hops :
  MTR_at t s ml m → cycle_hops t s = Some hops →
  read s (Compute t) = Some (old_hops, m) →
  ∃ t' s', mtr t s = Some (t', s') ∧
    read s' (Compute t) = Some (old_hops, merge_hops m hops).
Proof.
  intros Hat Hhops Hread. eexists _, _. split; [by apply mtr_spec|].
  destruct Hat as (r & res & Hr & Hres & Hml & Hm).
  unfold Compute, read in *. rewrite Hr in *. simpl in Hread.
  rewrite Hres in Hread. simpl in Hread. rewrite Hml in Hread. simpl in Hread.
  rewrite Hm in Hread. injection Hread as <-.
  by apply after_mtr_read_old.
Qed.

(** C24: when the collaborator returns a nil result, the critical
    section dereferences it: the cycle panics instead of publishing a
    degraded result. *)
Theorem mtr_nil_data_panics t s :
  cycle_hops t s = None → mtr t s = None.
Proof. intros Hnil. by rewrite mtr_unfold, Hnil. Qed.

(** C25: [NewMTR] returns no error and a well-formed target that holds
    every argument in the field of its name, whose accessors return the
    name, the host and the labels given, and whose result has no hops and
    an empty map. *)
Theorem NewMTR_ok startupDelay name host srcAddr interval timeout maxHops count labels s :
  let '(t, err, s') :=
    NewMTR startupDelay name host srcAddr interval timeout maxHops count labels s in
  err = None ∧ read s' (Compute t) = Some ([], ∅) ∧ MTR_ok t s' ∧
  (Name t, Host t, Labels t) = (name, host, labels) ∧
  set_result t None = mkMTR name host srcAddr interval timeout maxHops count labels None ∧
  sh_ids s' = sh_ids s ∧ sh_net s' = sh_net s.
Proof.
  unfold NewMTR, alloc_map, alloc_result. simpl.
  assert (∀ ml, MTR_at (mkMTR name host srcAddr interval timeout maxHops count labels
                  (Some (fresh (dom (sh_results s)))))
            (mkShared (<[fresh (dom (sh_results s)) := mkMtrResult [] (Some ml)]> (sh_results s))
               (<[ml := ∅]> (sh_maps s)) (sh_ids s) (sh_net s)) ml ∅) as Hat.
  { intros ml. eexists _, _. simpl.
    split_and!; [done|apply lookup_insert_eq|done|apply lookup_insert_eq]. }
  split_and!; try done.
  - unfold read, Compute. simpl. rewrite lookup_insert_eq. simpl.
    by rewrite lookup_insert_eq.
  - eapply MTR_at_ok, Hat.
Qed.

End facts.

Section cycles.
Context `{HopTraceOk}.
Implicit Types (t : MTR) (s : shared) (r d ml : loc) (m : summaries).

Lemma mtr_many_S k t s :
  mtr_many (S k) t s = '(t', s') ← mtr t s; mtr_many k t' s'.
Proof. reflexivity. Qed.

(** C23: with a collaborator that always returns a result, any number
    of cycles of a well-formed target run without a panic, and the map
    of the target then holds the hops of all their traces, merged in the
    order of the cycles into the map it held before. *)
Theorem mtr_many_cumulative k t s ml m :
  MTR_at t s ml m →
  ∃ t' s', mtr_many k t s = Some (t', s') ∧
    MTR_at t' s' ml (merge_hops m (mtr_traces k t s)).
Proof.
  revert t s m. induction k as [|k IH]; intros t s m Hat; [by exists t, s|].
  destruct (Mtr_not_nil (host t) (srcAddr t) (maxHops t) (count t) (timeout t)
              (Get (sh_ids s)).1 (sh_net s)) as [hops Hhops].
  change (cycle_hops t s = Some hops) in Hhops.
  rewrite mtr_many_S. cbn [mtr_traces]. rewrite Hhops, (mtr_spec t s ml m hops) by done.
  simpl. rewrite merge_hops_app.
  apply IH. exact (after_mtr_at t s ml m hops).
Qed.

End cycles.

(** ** Overlapping cycles *)

Section overlap.
Context `{HopTrace}.
Implicit Types (t : MTR) (s : shared) (r d ml : loc) (m : summaries).

(** Two cycles whose traces are complete enter the critical section one
    after the other. *)
Definition publish2 (t : MTR) (s : shared) (d1 d2 : loc) : option (MTR * shared) :=
  '(t', s') ← mtr_publish t (Some d1) s; mtr_publish t' (Some d2) s'.

Lemma publish2_spec t s ml m d1 d2 new1 new2 :
  MTR_at t s ml m → d1 ≠ d2 →
  sh_results s !! d1 = Some new1 → sh_results s !! d2 = Some new2 →
  ∃ t' s', publish2 t s d1 d2 = Some (t', s') ∧ Compute t' = Some d2 ∧
    MTR_at t' s' ml (merge_hops (merge_hops m (Hops new1)) (Hops new2)).
Proof.
  intros Hat Hne H1 H2. unfold publish2.
  rewrite (mtr_publish_spec t s ml m d1 new1) by done. simpl.
  erewrite (mtr_publish_spec _ _ ml (merge_hops m (Hops new1)) d2 new2).
  - eexists _, _. split; [done|]. split; [done|].
    eexists _, _. simpl.
    split_and!; [done|apply lookup_insert_eq|done|apply lookup_insert_eq].
  - eexists _, _. simpl.
    split_and!; [done|apply lookup_insert_eq|done|apply lookup_insert_eq].
  - simpl. by rewrite lookup_insert_ne.
Qed.

(** C26: two overlapping cycles may publish in either order without a
    panic; the current result is that of the cycle that published last,
    and the maps the two orders leave are equivalent: the same keys,
    responding addresses and totals. *)
Theorem mtr_publish_interleave t s ml m d1 d2 new1 new2 :
  MTR_at t s ml m → d1 ≠ d2 →
  sh_results s !! d1 = Some new1 → sh_results s !! d2 = Some new2 →
  ∃ ta sa tb sb ma mb,
    publish2 t s d1 d2 = Some (ta, sa) ∧ publish2 t s d2 d1 = Some (tb, sb) ∧
    Compute ta = Some d2 ∧ Compute tb = Some d1 ∧
    MTR_at ta sa ml ma ∧ MTR_at tb sb ml mb ∧ summaries_equiv ma mb.
Proof.
  intros Hat Hne H1 H2.
  destruct (publish2_spec t s ml m d1 d2 new1 new2) as (ta & sa & Ea & Ca & Hata); [done..|].
  destruct (publish2_spec t s ml m d2 d1 new2 new1) as (tb & sb & Eb & Cb & Hatb); [done..|].
  exists ta, sa, tb, sb. eexists _, _. split_and!; [done..|].
  rewrite <-!merge_hops_app. apply merge_hops_proper; [done|apply Permutation_app_comm].
Qed.

End overlap.

(** ** Scripted collaborators *)

(** A collaborator that returns the traces of a script, one per call, and
    an empty trace when the script is exhausted. *)
#[export] Instance total_trace : HopTrace := {|
  net := list (list IcmpHop.t);
  Mtr _ _ _ _ _ _ w :=
    match w with
    | [] => (Some [], None, [])
    | hops :: w' => (Some hops, None, w')
    end;
|}.

#[export] Instance total_trace_ok : @HopTraceOk total_trace.
Proof. split. intros host src mh c tmo id [|hops w]; by eexists. Qed.

(** A collaborator that fails with a nil result on every call. *)
Definition nil_trace : HopTrace := {|
  net := unit;
  Mtr _ _ _ _ _ _ w := (None, Some "mtr failed", w);
|}.

Section scripted.

Definition s_init : @shared total_trace :=
  mkShared ∅ ∅ (mkIcmpID 0) ([[hop2; hop3a]; [hop3b]] : @net total_trace).
Definition new0 : MTR * option error * @shared total_trace :=
  NewMTR 0 "edge" "10.0.0.1" "" (15 * Second) (4 * Second) 30 10 ∅ s_init.
Definition t0 : MTR := new0.1.1.
Definition s0 : @shared total_trace := new0.2.

Lemma t0_at : MTR_at t0 s0 1%positive ∅.
Proof. eexists _, _. split_and!; reflexivity. Qed.

Lemma mtr_publishes_trace_witness :
  ∃ t' s', mtr t0 s0 = Some (t', s') ∧
    read s' (Compute t') = Some ([hop2; hop3a], merge_hops ∅ [hop2; hop3a]) ∧
    MTR_at t' s' 1%positive (merge_hops ∅ [hop2; hop3a]) ∧
    Compute t' ≠ Compute t0.
Proof. apply (mtr_publishes_trace t0 s0 1%positive ∅ [hop2; hop3a] t0_at). reflexivity. Defined.

Lemma mtr_shares_summary_map_witness :
  ∃ t' s', mtr t0 s0 = Some (t', s') ∧
    read s' (Compute t0) = Some ([], merge_hops ∅ [hop2; hop3a]).
Proof.
  apply (mtr_shares_summary_map t0 s0 1%positive ∅ [hop2; hop3a] [] t0_at); reflexivity.
Defined.

Lemma mtr_many_cumulative_witness :
  ∃ t' s', mtr_many 2 t0 s0 = Some (t', s') ∧
    MTR_at t' s' 1%positive (merge_hops ∅ (mtr_traces 2 t0 s0)).
Proof. apply (mtr_many_cumulative 2 t0 s0 1%positive ∅ t0_at). Defined.

(** After the two cycles of the script a reader of the target sees the hop
    of the second trace and the totals of both. *)
Example mtr_many_example :
  (mtr_many 2 t0 s0 ≫= λ '(t', s'),
     '(hops, m) ← read s' (Compute t'); Some (hops, totals_at m "3_10.0.0.1")) =
  Some ([hop3b], (2, 12 * Millisecond, 1)).
Proof. vm_compute. reflexivity. Qed.

(** The same target with a collaborator that fails. *)
Definition new_nil : MTR * option error * @shared nil_trace :=
  @NewMTR nil_trace 0 "edge" "10.0.0.1" "" (15 * Second) (4 * Second) 30 10 ∅
    (mkShared (H := nil_trace) ∅ ∅ (mkIcmpID 0) ()).

Lemma mtr_nil_data_panics_witness :
  @MTR_ok nil_trace new_nil.1.1 new_nil.2 ∧ @mtr nil_trace new_nil.1.1 new_nil.2 = None.
Proof.
  split; [eexists _, _, _, _; split_and!; reflexivity|].
  apply (@mtr_nil_data_panics nil_trace). reflexivity.
Defined.

(** The state in which two cycles have completed their traces and neither
    has published. *)
Definition s2 : @shared total_trace :=
  (mtr_probe t0 2 (mtr_probe t0 1 s0).2).2.

Lemma mtr_publish_interleave_witness :
  ∃ ta sa tb sb ma mb,
    publish2 t0 s2 2%positive 3%positive = Some (ta, sa) ∧
    publish2 t0 s2 3%positive 2%positive = Some (tb, sb) ∧
    Compute ta = Some 3%positive ∧ Compute tb = Some 2%positive ∧
    MTR_at ta sa 1%positive ma ∧ MTR_at tb sb 1%positive mb ∧ summaries_equiv ma mb.
Proof.
  apply (mtr_publish_interleave t0 s2 1%positive ∅ 2%positive 3%positive
           (mkMtrResult [hop2; hop3a] None) (mkMtrResult [hop3b] None)).
  - eexists _, _. split_and!; reflexivity.
  - done.
  - reflexivity.
  - reflexivity.
Defined.

End scripted.

End MTR.
