(* ===== verification/Scheduler.v ===== *)
(** * Scheduler: the goroutines of a target

    [NewPing] and [NewMTR] add one to the wait group of the target and
    start the goroutine [run]; [run] waits for the startup delay or the
    stop signal, creates the ticker, and then selects between the stop
    channel and the ticker: on stop it stops the ticker, calls [wg.Done]
    and returns; on a tick it starts a goroutine that runs one cycle.  In
    [target_ping.go] the loop first sends a token to the buffered channel
    [waitChan] of capacity [MaxConcurrentJobs], and the cycle goroutine
    receives one when it is done; in [target_mtr.go] there is no such
    channel.  [Stop] closes the stop channel and waits for the wait group.

    Every statement of [run] and [Stop] that another goroutine can
    observe is a step of its own: the receive of a [select] case, the
    send of the token, the [go] statement, [tick.Stop()], [wg.Done()],
    [close(t.stop)] and the return of [wg.Wait()].  A cycle goroutine
    takes its three phases and the receive of its token as four steps.

    The two files differ only in the token channel and in the cycle that
    is run, so the machine is written once, over the interface [Flavor]:
    the interval of the target, the capacity of the token channel if there
    is one, and the three atomic phases of a cycle ([fl_start], the
    allocator; [fl_probe], the measurement; [fl_publish], the critical
    section, [None] when it panics).

    A state [sched] holds the program counter of the loop, the state of
    the stop channel, of the wait group, of the ticker and of the token
    channel, the program counters of the cycle goroutines and of the
    callers of [Stop], and a flag set when a goroutine has panicked, which
    ends the process.  An [action] names the goroutine that moves and, for
    the [select] statement, the case that is chosen; [exec] is the effect
    of an action, [None] when it is not enabled; [step] is the same
    relation given by rules. *)

From S2P Require Import Prelude.

(** What the scheduler needs of a target. *)
Class Flavor : Type := {
  fl_target : Type;
  fl_store : Type;
  fl_datum : Type;
  (** [t.interval] *)
  fl_interval : fl_target → Duration;
  (** the capacity of [waitChan], [None] when there is no such channel *)
  fl_cap : option nat;
  (** [icmpID := int(t.icmpID.Get())] *)
  fl_start : fl_target → fl_store → Z * fl_store;
  (** the measurement, which returns the data to publish *)
  fl_probe : fl_target → Z → fl_store → fl_datum * fl_store;
  (** the critical section; [None] is a panic *)
  fl_publish : fl_target → fl_datum → fl_store → option (fl_target * fl_store);
}.

(** What the scheduler's freedom from panics needs of a target: an
    invariant of the target and its store, and a validity of the data of
    the cycles in flight, kept by every phase of every cycle, under which
    the critical section succeeds and leaves the interval alone. *)
Class FlavorOk `{Flavor} : Type := {
  fl_inv : fl_target → fl_store → Prop;
  fl_valid : fl_datum → fl_store → Prop;
  fl_start_inv t s : fl_inv t s → fl_inv t (fl_start t s).2;
  fl_start_valid t s d : fl_valid d s → fl_valid d (fl_start t s).2;
  fl_probe_inv t id s : fl_inv t s → fl_inv t (fl_probe t id s).2;
  fl_probe_valid t id s d : fl_valid d s → fl_valid d (fl_probe t id s).2;
  fl_probe_new t id s : fl_valid (fl_probe t id s).1 (fl_probe t id s).2;
  fl_publish_ok t d s :
    fl_inv t s → fl_valid d s →
    ∃ t' s', fl_publish t d s = Some (t', s') ∧ fl_inv t' s' ∧
             fl_interval t' = fl_interval t ∧
             ∀ d', fl_valid d' s → fl_valid d' s';
}.

Section machine.
Context `{Flavor}.

(** Where the goroutine [run] is. *)
Inductive loop_pc : Type :=
  | LDelay    (** in the [select] of the startup delay *)
  | LTicker   (** before [make(chan ...)] and [time.NewTicker] *)
  | LSelect   (** in the [select] of the loop *)
  | LSend     (** at [waitChan <- struct{}{}] *)
  | LGo       (** at the [go] statement *)
  | LDone     (** after [tick.Stop()], at [t.wg.Done()] *)
  | LExit.    (** returned *)

(** Where a cycle goroutine is. *)
Inductive cycle_pc : Type :=
  | CStart                       (** before [t.icmpID.Get()] *)
  | CProbe (icmpID : Z)          (** before the measurement *)
  | CPublish (data : fl_datum)   (** before [t.Lock()] *)
  | CRelease                     (** at [<-waitChan] *)
  | CDone.                       (** returned *)

(** Where a caller of [Stop] is. *)
Inductive stop_pc : Type :=
  | SWait       (** at [t.wg.Wait()] *)
  | SReturned   (** returned *)
  | SPanicked.  (** panicked in [close(t.stop)] *)

Record sched : Type := mkSched {
  sc_target : fl_target;
  sc_store : fl_store;
  sc_loop : loop_pc;
  sc_stop : bool;              (** [t.stop] is closed *)
  sc_wg : Z;                   (** the counter of [t.wg] *)
  sc_ticker : bool;            (** the ticker is running *)
  sc_tick : bool;              (** a tick waits in [tick.C] *)
  sc_tokens : nat;             (** [len(waitChan)] *)
  sc_cycles : list cycle_pc;   (** the cycle goroutines, in the order started *)
  sc_callers : list stop_pc;   (** the callers of [Stop], in the order of the calls *)
  sc_panic : bool;             (** a goroutine has panicked *)
}.

(** The goroutine that moves, and the case of a [select] it takes. *)
Inductive action : Type :=
  | ADelayElapsed     (** [case <-time.After(startupDelay)] *)
  | ADelayStop        (** [case <-t.stop] of the startup delay *)
  | ANewTicker        (** [make(chan ...)]; [time.NewTicker(t.interval)] *)
  | ATick             (** the ticker sends a tick *)
  | ASelectStop       (** [case <-t.stop] of the loop and [tick.Stop()] *)
  | ADone             (** [t.wg.Done()] and the return of [run] *)
  | ASelectTick       (** [case <-tick.C] *)
  | ASend             (** [waitChan <- struct{}{}] *)
  | AGo               (** the [go] statement *)
  | ACycle (i : nat)  (** the next phase of cycle [i] *)
  | AStop             (** a call of [Stop], up to [close(t.stop)] *)
  | AWait (i : nat).  (** [t.wg.Wait()] of caller [i] returns *)

#[global] Instance loop_pc_eq_dec : EqDecision loop_pc.
Proof. solve_decision. Defined.
#[global] Instance stop_pc_eq_dec : EqDecision stop_pc.
Proof. solve_decision. Defined.
#[global] Instance action_eq_dec : EqDecision action.
Proof. solve_decision. Defined.

(** ** Updates of a state *)

Definition with_data (t : fl_target) (st : fl_store) (s : sched) : sched :=
  mkSched t st (sc_loop s) (sc_stop s) (sc_wg s) (sc_ticker s) (sc_tick s)
    (sc_tokens s) (sc_cycles s) (sc_callers s) (sc_panic s).
Definition with_loop (pc : loop_pc) (s : sched) : sched :=
  mkSched (sc_target s) (sc_store s) pc (sc_stop s) (sc_wg s) (sc_ticker s) (sc_tick s)
    (sc_tokens s) (sc_cycles s) (sc_callers s) (sc_panic s).
Definition with_stop (b : bool) (s : sched) : sched :=
  mkSched (sc_target s) (sc_store s) (sc_loop s) b (sc_wg s) (sc_ticker s) (sc_tick s)
    (sc_tokens s) (sc_cycles s) (sc_callers s) (sc_panic s).
Definition with_wg (n : Z) (s : sched) : sched :=
  mkSched (sc_target s) (sc_store s) (sc_loop s) (sc_stop s) n (sc_ticker s) (sc_tick s)
    (sc_tokens s) (sc_cycles s) (sc_callers s) (sc_panic s).
Definition with_ticker (b : bool) (s : sched) : sched :=
  mkSched (sc_target s) (sc_store s) (sc_loop s) (sc_stop s) (sc_wg s) b (sc_tick s)
    (sc_tokens s) (sc_cycles s) (sc_callers s) (sc_panic s).
Definition with_tick (b : bool) (s : sched) : sched :=
  mkSched (sc_target s) (sc_store s) (sc_loop s) (sc_stop s) (sc_wg s) (sc_ticker s) b
    (sc_tokens s) (sc_cycles s) (sc_callers s) (sc_panic s).
Definition with_tokens (n : nat) (s : sched) : sched :=
  mkSched (sc_target s) (sc_store s) (sc_loop s) (sc_stop s) (sc_wg s) (sc_ticker s)
    (sc_tick s) n (sc_cycles s) (sc_callers s) (sc_panic s).
Definition with_cycles (cs : list cycle_pc) (s : sched) : sched :=
  mkSched (sc_target s) (sc_store s) (sc_loop s) (sc_stop s) (sc_wg s) (sc_ticker s)
    (sc_tick s) (sc_tokens s) cs (sc_callers s) (sc_panic s).
Definition with_callers (ps : list stop_pc) (s : sched) : sched :=
  mkSched (sc_target s) (sc_store s) (sc_loop s) (sc_stop s) (sc_wg s) (sc_ticker s)
    (sc_tick s) (sc_tokens s) (sc_cycles s) ps (sc_panic s).
Definition with_panic (s : sched) : sched :=
  mkSched (sc_target s) (sc_store s) (sc_loop s) (sc_stop s) (sc_wg s) (sc_ticker s)
    (sc_tick s) (sc_tokens s) (sc_cycles s) (sc_callers s) true.

(** ** The constructor and the statements of [run] and [Stop] *)

(** The state [NewPing] and [NewMTR] leave: [t.wg.Add(1)] and
    [go t.run(startupDelay)], whose first test is [startupDelay > 0]. *)
Definition init (startupDelay : Duration) (t : fl_target) (st : fl_store) : sched :=
  mkSched t st (if bool_decide (0 < startupDelay) then LDelay else LTicker)
    false 1 false false 0 [] [] false.

(** [make(chan struct{}, MaxConcurrentJobs)] and
    [time.NewTicker(t.interval)], which panics unless the interval is
    positive. *)
Definition new_ticker (s : sched) : sched :=
  if bool_decide (0 < fl_interval (sc_target s))
  then with_loop LSelect (with_ticker true s)
  else with_panic s.

(** [tick.Stop()], after the stop case was taken. *)
Definition tick_stop (s : sched) : sched :=
  with_loop LDone (with_ticker false s).

(** [t.wg.Done(); return]: a negative counter panics. *)
Definition loop_exit (s : sched) : sched :=
  let s' := with_wg (sc_wg s - 1) s in
  if bool_decide (sc_wg s - 1 < 0) then with_panic s' else with_loop LExit s'.

(** The [go] statement that starts a cycle; the loop then selects again. *)
Definition spawn (s : sched) : sched :=
  with_loop LSelect (with_cycles (sc_cycles s ++ [CStart]) s).

(** [case <-tick.C]: with a token channel the loop goes on to the send,
    without one to the [go] statement. *)
Definition take_tick (s : sched) : sched :=
  with_loop (if fl_cap is Some _ then LSend else LGo) (with_tick false s).

(** [waitChan <- struct{}{}], enabled while the channel is not full; the
    loop goes on to the [go] statement. *)
Definition send_token (s : sched) : option sched :=
  match fl_cap with
  | Some cap =>
      if bool_decide (sc_tokens s < cap)%nat
      then Some (with_loop LGo (with_tokens (S (sc_tokens s)) s))
      else None
  | None => None
  end.

(** The next phase of cycle [i]. *)
Definition cycle_step (i : nat) (pc : cycle_pc) (s : sched) : option sched :=
  let set pc' s := with_cycles (<[i := pc']> (sc_cycles s)) s in
  match pc with
  | CStart =>
      let '(id, st) := fl_start (sc_target s) (sc_store s) in
      Some (set (CProbe id) (with_data (sc_target s) st s))
  | CProbe id =>
      let '(d, st) := fl_probe (sc_target s) id (sc_store s) in
      Some (set (CPublish d) (with_data (sc_target s) st s))
  | CPublish d =>
      match fl_publish (sc_target s) d (sc_store s) with
      | None => Some (with_panic s)
      | Some (t, st) =>
          Some (set (if fl_cap is Some _ then CRelease else CDone) (with_data t st s))
      end
  | CRelease =>
      match sc_tokens s with
      | O => None
      | S n => Some (set CDone (with_tokens n s))
      end
  | CDone => None
  end.

(** [close(t.stop)]: closing a closed channel panics. *)
Definition stop_call (s : sched) : sched :=
  if sc_stop s
  then with_panic (with_callers (sc_callers s ++ [SPanicked]) s)
  else with_stop true (with_callers (sc_callers s ++ [SWait]) s).

(** The effect of an action; [None] when it is not enabled.  Nothing is
    enabled after a panic. *)
Definition exec (a : action) (s : sched) : option sched :=
  if sc_panic s then None else
  match a, sc_loop s with
  | ADelayElapsed, LDelay => Some (with_loop LTicker s)
  | ADelayStop, LDelay => if sc_stop s then Some (with_loop LTicker s) else None
  | ANewTicker, LTicker => Some (new_ticker s)
  | ATick, _ => if sc_ticker s then Some (with_tick true s) else None
  | ASelectStop, LSelect => if sc_stop s then Some (tick_stop s) else None
  | ADone, LDone => Some (loop_exit s)
  | ASelectTick, LSelect => if sc_tick s then Some (take_tick s) else None
  | ASend, LSend => send_token s
  | AGo, LGo => Some (spawn s)
  | ACycle i, _ => pc ← sc_cycles s !! i; cycle_step i pc s
  | AStop, _ => Some (stop_call s)
  | AWait i, _ =>
      match sc_callers s !! i with
      | Some SWait =>
          if bool_decide (sc_wg s = 0)
          then Some (with_callers (<[i := SReturned]> (sc_callers s)) s)
          else None
      | _ => None
      end
  | _, _ => None
  end.

(** The same, by rules. *)
Inductive step : sched → action → sched → Prop :=
  | step_delay_elapsed s :
      sc_panic s = false → sc_loop s = LDelay →
      step s ADelayElapsed (with_loop LTicker s)
  | step_delay_stop s :
      sc_panic s = false → sc_loop s = LDelay → sc_stop s = true →
      step s ADelayStop (with_loop LTicker s)
  | step_new_ticker s :
      sc_panic s = false → sc_loop s = LTicker →
      step s ANewTicker (new_ticker s)
  | step_tick s :
      sc_panic s = false → sc_ticker s = true →
      step s ATick (with_tick true s)
  | step_select_stop s :
      sc_panic s = false → sc_loop s = LSelect → sc_stop s = true →
      step s ASelectStop (tick_stop s)
  | step_done s :
      sc_panic s = false → sc_loop s = LDone →
      step s ADone (loop_exit s)
  | step_select_tick s :
      sc_panic s = false → sc_loop s = LSelect → sc_tick s = true →
      step s ASelectTick (take_tick s)
  | step_send s s' :
      sc_panic s = false → sc_loop s = LSend → send_token s = Some s' →
      step s ASend s'
  | step_go s :
      sc_panic s = false → sc_loop s = LGo →
      step s AGo (spawn s)
  | step_cycle s i pc s' :
      sc_panic s = false → sc_cycles s !! i = Some pc → cycle_step i pc s = Some s' →
      step s (ACycle i) s'
  | step_stop s :
      sc_panic s = false →
      step s AStop (stop_call s)
  | step_wait s i :
      sc_panic s = false → sc_callers s !! i = Some SWait → sc_wg s = 0 →
      step s (AWait i) (with_callers (<[i := SReturned]> (sc_callers s)) s).

(** A run: the actions taken from a state, in order. *)
Fixpoint execs (l : list action) (s : sched) : option sched :=
  match l with
  | [] => Some s
  | a :: l' => s' ← exec a s; execs l' s'
  end.

(** The states a target can be in after [NewPing] or [NewMTR]. *)
Inductive reachable (s0 : sched) : sched → Prop :=
  | reachable_init : reachable s0 s0
  | reachable_step s a s' : reachable s0 s → step s a s' → reachable s0 s'.

(** The cycle goroutines that have not returned. *)
Definition live (pc : cycle_pc) : bool := if pc is CDone then false else true.
Definition running (s : sched) : nat := length (filter live (sc_cycles s)).

(** What the control state of every reachable state satisfies: the wait
    group counts the loop; the loop has taken the stop case only after the
    stop channel was closed, and then the ticker is stopped; the ticker
    runs only while the loop selects, sends or starts a cycle; before the
    ticker is created there is no cycle, tick or token; a caller of [Stop]
    exists only once the channel is closed, and has returned only after
    the loop has exited; the loop sends only when there is a channel. *)
Record control_inv (s : sched) : Prop := {
  ci_wg : sc_wg s = if decide (sc_loop s = LExit) then 0 else 1;
  ci_exit : sc_loop s = LDone ∨ sc_loop s = LExit → sc_stop s = true ∧ sc_ticker s = false;
  ci_ticker : sc_ticker s = true →
              sc_loop s = LSelect ∨ sc_loop s = LSend ∨ sc_loop s = LGo;
  ci_early : sc_loop s = LDelay ∨ sc_loop s = LTicker →
             sc_cycles s = [] ∧ sc_tick s = false ∧ sc_tokens s = 0%nat;
  ci_callers : sc_callers s ≠ [] → sc_stop s = true;
  ci_returned : SReturned ∈ sc_callers s → sc_loop s = LExit;
  ci_send : sc_loop s = LSend → is_Some fl_cap;
}.

(** The token the loop has sent for a cycle it has not started yet. *)
Definition pending (s : sched) : nat := if decide (sc_loop s = LGo) then 1 else 0.

(** What the token channel of every reachable state satisfies: with a
    channel, it holds one token per cycle goroutine that has not returned
    and one for the cycle the loop is about to start, and never more than
    its capacity; without one, no cycle waits for a token. *)
Definition token_inv (s : sched) : Prop :=
  match fl_cap with
  | Some cap => sc_tokens s = (running s + pending s)%nat ∧ (sc_tokens s ≤ cap)%nat
  | None => sc_tokens s = 0%nat ∧ CRelease ∉ sc_cycles s
  end.

End machine.

(** Case analysis on the statements of a step. *)
Ltac step_cases :=
  unfold new_ticker, tick_stop, loop_exit, take_tick, spawn, stop_call, send_token,
    cycle_step in *;
  repeat case_match; simplify_eq/=.

Section exec_step.
Context `{Flavor}.
Implicit Types (s : sched) (a : action).

(** The rules and the function are the same relation. *)
Lemma step_exec s a s' : step s a s' ↔ exec a s = Some s'.
Proof.
  split.
  - destruct 1; unfold exec;
      repeat match goal with H : _ = _ |- _ => rewrite H end; simpl;
      try done; by case_match.
  - unfold exec. intros Hex.
    destruct (sc_panic s) eqn:Hp; [done|].
    destruct a; destruct (sc_loop s) eqn:Hl; simplify_eq;
      repeat case_match; simplify_eq;
      try (by econstructor); try (case_bool_decide; simplify_eq); try by econstructor.
    all: destruct (sc_cycles s !! i) as [pc|] eqn:Hi; simplify_eq/=; by econstructor.
Qed.

Lemma step_no_panic s a s' : step s a s' → sc_panic s = false.
Proof. by destruct 1. Qed.

Lemma execs_app l1 l2 s : execs (l1 ++ l2) s = s' ← execs l1 s; execs l2 s'.
Proof.
  revert s. induction l1 as [|a l1 IH]; intros s; simpl; [done|].
  destruct (exec a s) as [s1|]; simpl; [apply IH|done].
Qed.

(** A run that succeeds reaches its last state. *)
Lemma execs_reachable s0 l s s' : reachable s0 s → execs l s = Some s' → reachable s0 s'.
Proof.
  revert s. induction l as [|a l IH]; intros s Hs Hrun; simpl in Hrun; [by simplify_eq|].
  destruct (exec a s) as [s1|] eqn:E; [|done]. simpl in Hrun.
  apply (IH s1); [|done]. eapply reachable_step; [done|]. by apply step_exec.
Qed.

(** The state after a run, the state it starts from when the run is not
    possible. *)
Definition after (l : list action) (s : sched) : sched := default s (execs l s).

Lemma after_reachable s0 l : reachable s0 (after l s0).
Proof.
  unfold after. destruct (execs l s0) as [s|] eqn:E; simpl; [|apply reachable_init].
  eapply execs_reachable; [apply reachable_init|done].
Qed.

(** Whether a run is possible. *)
Definition possible (l : list action) (s : sched) : bool :=
  if execs l s is Some _ then true else false.

(** The last action of a possible run is a step between the states
    before and after it. *)
Lemma after_step l a s :
  possible (l ++ [a]) s = true → step (after l s) a (after (l ++ [a]) s).
Proof.
  unfold possible, after. rewrite execs_app.
  destruct (execs l s) as [s1|]; simpl; [|done].
  destruct (exec a s1) as [s2|] eqn:E; simpl; [|done]. intros _. by apply step_exec.
Qed.

(** A panic of the critical section (a nil pointer, an assignment in a
    nil map) is a panic of the program. *)
Lemma exec_publish_panics s i d :
  sc_panic s = false → sc_cycles s !! i = Some (CPublish d) →
  fl_publish (sc_target s) d (sc_store s) = None →
  exec (ACycle i) s = Some (with_panic s) ∧ sc_panic (with_panic s) = true.
Proof. intros Hp Hi Hpub. unfold exec. rewrite Hp, Hi. simpl. by rewrite Hpub. Qed.

(** [wg.Done] decrements the counter; on a counter that is not positive
    it panics, on a positive one the loop has returned. *)
Lemma loop_exit_spec s :
  sc_wg (loop_exit s) = sc_wg s - 1 ∧
  (sc_panic s = false → (sc_panic (loop_exit s) = true ↔ sc_wg s ≤ 0)) ∧
  (0 < sc_wg s → sc_loop (loop_exit s) = LExit).
Proof.
  unfold loop_exit. case_bool_decide; simpl; split_and!; try done; try lia.
  intros ->. split; [done|lia].
Qed.

(** A property that holds initially and is kept by every step holds in
    every reachable state. *)
Lemma invariant_reachable (P : sched → Prop) s0 s :
  P s0 → (∀ s a s', P s → step s a s' → P s') → reachable s0 s → P s.
Proof. intros H0 Hstep. induction 1; eauto. Qed.

End exec_step.

(** ** The invariants of the control state and of the token channel *)

Section invariants.
Context `{Flavor}.
Implicit Types (s : sched) (a : action) (cs : list cycle_pc).

Lemma control_inv_init d t st : control_inv (init d t st).
Proof.
  unfold init. split; simpl; try done; case_bool_decide; try done;
    try (by intros [?|?]); by intros ?%elem_of_nil.
Qed.

Lemma control_inv_step s a s' : control_inv s → step s a s' → control_inv s'.
Proof.
  intros [Hwg Hexit Htk Hearly Hcal Hret Hsend] Hstep.
  destruct Hstep; step_cases; split; simpl in *;
    repeat case_decide; simplify_eq; try done; try lia; try (intros; congruence);
    try (intros [?|?]; congruence); try (by intros ?; auto); try (by intuition congruence).
  all: try (intros Hl; destruct (Hearly Hl) as (Hc & _); by rewrite Hc in * ).
  all: by intros [?|?%list_elem_of_singleton]%elem_of_app; auto.
Qed.

(** The number of live cycles when one changes its program counter. *)
Lemma running_insert cs i pc pc' :
  cs !! i = Some pc →
  (length (filter live (<[i := pc']> cs)) + (if live pc then 1 else 0) =
   length (filter live cs) + (if live pc' then 1 else 0))%nat.
Proof.
  revert i. induction cs as [|c cs IH]; intros [|i] Hi; simplify_eq/=.
  - rewrite !filter_cons.
    destruct (live pc), (live pc'); simpl; repeat case_decide; simpl; try done; lia.
  - rewrite !filter_cons. specialize (IH i Hi). case_decide; simpl; lia.
Qed.

Lemma running_snoc cs pc :
  length (filter live (cs ++ [pc])) =
  (length (filter live cs) + (if live pc then 1 else 0))%nat.
Proof.
  rewrite filter_app, length_app, filter_cons. by case_decide; destruct (live pc).
Qed.

Lemma elem_of_insert_inv {A} (l : list A) i x y :
  x ∈ <[i := y]> l → x = y ∨ x ∈ l.
Proof.
  revert i. induction l as [|z l IH]; intros [|i]; simpl; try (by right).
  - intros [->|?]%elem_of_cons; [by left|]. right. by right.
  - intros [->|?]%elem_of_cons; [right; by left|].
    destruct (IH i) as [?|?]; [done|by left|right; by right].
Qed.

Lemma token_inv_init d t st : token_inv (init d t st).
Proof.
  unfold token_inv, init, running, pending. simpl.
  destruct fl_cap; [case_bool_decide; split; simpl; lia|].
  split; [done|]. by intros ?%elem_of_nil.
Qed.

Lemma token_inv_step s a s' : token_inv s → step s a s' → token_inv s'.
Proof.
  unfold token_inv, running, pending. intros Hinv Hstep.
  destruct Hstep; step_cases; simpl in *; try done;
    destruct Hinv as [Ht Hc]; repeat case_decide; simplify_eq/=;
    (split; [|try lia]); rewrite ?running_snoc; simpl; try lia;
    try match goal with
      | Hl : sc_cycles _ !! _ = Some _ |- context [filter _ (<[_ := ?pc']> _)] =>
          pose proof (running_insert _ _ _ pc' Hl); simpl in *; lia
      end.
  all: try (by intros [?|?]%elem_of_insert_inv).
  all: try (rewrite not_elem_of_app; split; [done|]; by intros ?%list_elem_of_singleton).
  all: try match goal with
       | Hb : bool_decide _ = true |- _ => apply bool_decide_eq_true_1 in Hb; lia
       end.
  all: congruence.
Qed.

Lemma control_inv_reachable d t st s : reachable (init d t st) s → control_inv s.
Proof.
  apply invariant_reachable; [apply control_inv_init|apply control_inv_step].
Qed.

Lemma token_inv_reachable d t st s : reachable (init d t st) s → token_inv s.
Proof.
  apply invariant_reachable; [apply token_inv_init|apply token_inv_step].
Qed.

End invariants.

(** ** Safety of the scheduler *)

Section safety.
Context `{Flavor}.
Implicit Types (s : sched) (a : action) (t : fl_target) (st : fl_store) (d : Duration).

(** C27: with a token channel of capacity [cap], in every state a target
    can reach the number of cycle goroutines that have not returned is at
    most [cap]; the channel holds exactly one token for each of them and
    one more while the loop is between the send and the [go] statement,
    and never more than [cap]. *)
Theorem sched_bounded_concurrency d t st s cap :
  fl_cap = Some cap → reachable (init d t st) s →
  (running s ≤ cap)%nat ∧ sc_tokens s = (running s + pending s)%nat ∧
  (sc_tokens s ≤ cap)%nat.
Proof.
  intros Hcap Hs. pose proof (token_inv_reachable _ _ _ _ Hs) as Ht.
  unfold token_inv in Ht. rewrite Hcap in Ht. lia.
Qed.

(** C29: [Stop] returns only after the loop has exited: in every
    reachable state in which a caller of [Stop] has returned, the
    goroutine [run] has returned, the stop channel is closed, the ticker
    is stopped and the wait group is at zero. *)
Theorem Stop_returns_after_exit d t st s :
  reachable (init d t st) s → SReturned ∈ sc_callers s →
  sc_loop s = LExit ∧ sc_stop s = true ∧ sc_ticker s = false ∧ sc_wg s = 0.
Proof.
  intros [Hwg Hexit _ _ _ Hret _]%control_inv_reachable Hin.
  specialize (Hret Hin). destruct (Hexit (or_intror Hret)) as [-> ->].
  rewrite Hwg. by rewrite decide_True.
Qed.

(** C30: once the loop has exited no cycle is started any more: every
    step from such a state leaves the loop exited, the number of cycle
    goroutines unchanged, the ticker stopped and no new tick. *)
Theorem no_dispatch_after_exit d t st s a s' :
  reachable (init d t st) s → sc_loop s = LExit → step s a s' →
  sc_loop s' = LExit ∧ length (sc_cycles s') = length (sc_cycles s) ∧
  sc_ticker s' = false ∧ sc_tick s' = sc_tick s.
Proof.
  intros [_ Hexit _ _ _ _ _]%control_inv_reachable Hl Hstep.
  destruct (Hexit (or_intror Hl)) as [Hstop Htk].
  destruct Hstep; step_cases; rewrite ?length_insert; try done; congruence.
Qed.

(** C32: [Stop] may be called once: in every reachable state in which
    [Stop] has been called before, a call panics in [close(t.stop)], and
    nothing runs after it. *)
Theorem second_Stop_panics d t st s s' :
  reachable (init d t st) s → sc_callers s ≠ [] → step s AStop s' →
  sc_panic s' = true ∧ last (sc_callers s') = Some SPanicked ∧
  ∀ a s'', ¬ step s' a s''.
Proof.
  intros [_ _ _ _ Hcal _ _]%control_inv_reachable Hne Hstep.
  specialize (Hcal Hne). inversion Hstep; subst. unfold stop_call. rewrite Hcal. simpl.
  split; [done|]. split; [by rewrite last_snoc|].
  intros a s'' Hs%step_no_panic. done.
Qed.

(** C35: while the loop waits to send a token into a full channel it
    cannot see the stop signal: every step from such a state leaves the
    loop at the send and no caller of [Stop] returned.  [Stop] then
    waits for a cycle to finish. *)
Theorem send_blocks_Stop d t st s cap a s' :
  reachable (init d t st) s → fl_cap = Some cap →
  sc_loop s = LSend → sc_tokens s = cap → step s a s' →
  sc_loop s' = LSend ∧ SReturned ∉ sc_callers s'.
Proof.
  intros Hs Hcap Hl Hfull Hstep.
  assert (sc_loop s' = LSend) as Hl'.
  { destruct Hstep; step_cases; try done; try congruence.
    match goal with Hb : bool_decide _ = true |- _ => apply bool_decide_eq_true_1 in Hb; lia end. }
  split; [done|]. intros Hin.
  assert (reachable (init d t st) s') as Hs' by (by eapply reachable_step).
  apply control_inv_reachable in Hs' as [_ _ _ _ _ Hret _]. specialize (Hret Hin). congruence.
Qed.

(** The actions up to the first [select] of the loop. *)
Definition startup (d : Duration) : list action :=
  if bool_decide (0 < d) then [ADelayElapsed; ANewTicker] else [ANewTicker].

(** The state in which the loop selects for the first time. *)
Definition started t st : sched := mkSched t st LSelect false 1 true false 0 [] [] false.

(** One whole cycle: the three phases of [fl_start], [fl_probe] and
    [fl_publish]. *)
Definition cycle_result t st : option (fl_target * fl_store) :=
  let '(id, st1) := fl_start t st in
  let '(data, st2) := fl_probe t id st1 in
  fl_publish t data st2.

Lemma execs_startup d t st :
  0 < fl_interval t → execs (startup d) (init d t st) = Some (started t st).
Proof.
  intros Hi. unfold startup, init, started.
  case_bool_decide; simpl; unfold exec, new_ticker; simpl;
    by rewrite bool_decide_eq_true_2.
Qed.

(** A tick taken without a token channel starts a cycle at once. *)
Lemma execs_tick_spawn s :
  fl_cap = None → sc_panic s = false → sc_loop s = LSelect → sc_ticker s = true →
  execs [ATick; ASelectTick; AGo] s = Some (with_tick false (spawn s)).
Proof.
  intros Hcap Hp Hl Htk. destruct s. simpl in *. subst.
  unfold exec, take_tick, spawn. simpl. by rewrite Hcap.
Qed.

Lemma execs_ticks_spawn n s :
  fl_cap = None → sc_panic s = false → sc_loop s = LSelect → sc_ticker s = true →
  ∃ s', execs (concat (replicate n [ATick; ASelectTick; AGo])) s = Some s' ∧
        sc_cycles s' = sc_cycles s ++ replicate n CStart ∧ sc_panic s' = false.
Proof.
  intros Hcap. revert s. induction n as [|n IH]; intros s Hp Hl Htk.
  - exists s. by rewrite app_nil_r.
  - cbn [replicate concat]. rewrite execs_app, execs_tick_spawn by done. simpl.
    destruct (IH (with_tick false (spawn s))) as (s' & -> & Hc & Hp'); [done..|].
    exists s'. split; [done|]. rewrite Hc. simpl. by rewrite <-app_assoc.
Qed.

Lemma running_replicate n : length (filter live (replicate n CStart)) = n.
Proof.
  induction n as [|n IH]; [done|]. cbn [replicate].
  rewrite filter_cons_True by done. simpl. by rewrite IH.
Qed.

(** C28: without a token channel the number of cycles in flight is not
    bounded: for every [n] there is a run of the target after which [n]
    cycle goroutines have not returned. *)
Theorem sched_unbounded d t st n :
  fl_cap = None → 0 < fl_interval t →
  ∃ l s, execs l (init d t st) = Some s ∧ running s = n ∧ sc_panic s = false.
Proof.
  intros Hcap Hi.
  destruct (execs_ticks_spawn n (started t st)) as (s & Hs & Hc & Hp); [done..|].
  exists (startup d ++ concat (replicate n [ATick; ASelectTick; AGo])), s.
  rewrite execs_app, execs_startup by done. split; [done|].
  unfold running. rewrite Hc. simpl. split; [apply running_replicate|done].
Qed.

(** The three phases of a cycle that is about to start, run without
    interruption. *)
Lemma execs_cycle s i t' st' :
  sc_panic s = false → sc_cycles s !! i = Some CStart →
  cycle_result (sc_target s) (sc_store s) = Some (t', st') →
  execs (replicate 3 (ACycle i)) s =
  Some (with_cycles (<[i := if fl_cap is Some _ then CRelease else CDone]> (sc_cycles s))
          (with_data t' st' s)).
Proof.
  intros Hp Hi Hres. unfold cycle_result in Hres.
  destruct (fl_start _ _) as [id st1] eqn:E1. destruct (fl_probe _ _ _) as [data st2] eqn:E2.
  pose proof (lookup_lt_Some _ _ _ Hi) as Hlt.
  destruct s. simpl in *. subst. unfold exec. simpl. rewrite Hi. simpl. rewrite E1. simpl.
  rewrite list_lookup_insert_eq by done. simpl. rewrite E2. simpl.
  rewrite list_lookup_insert_eq by (by rewrite length_insert). simpl. rewrite Hres.
  by rewrite !list_insert_insert_eq.
Qed.

(** The actions of a run in which one cycle is started and [Stop] is
    then called and returns. *)
Definition stop_early (d : Duration) : list action :=
  startup d ++ [ATick; ASelectTick] ++ (if fl_cap is Some _ then [ASend] else []) ++
  [AGo; AStop; ASelectStop; ADone; AWait 0].

Lemma execs_stop_early d t st :
  0 < fl_interval t → fl_cap ≠ Some 0%nat →
  execs (stop_early d) (init d t st) =
  Some (mkSched t st LExit true 0 false false (if fl_cap is Some _ then 1%nat else 0%nat)
          [CStart] [SReturned] false).
Proof.
  intros Hi Hcap. unfold stop_early. rewrite execs_app, execs_startup by done.
  unfold started. destruct fl_cap as [[|cap]|] eqn:E; [done|..]; simpl;
    unfold exec, take_tick, send_token, spawn; simpl; rewrite ?E; done.
Qed.

(** C31: [Stop] does not wait for the cycles in flight: there is a run
    in which [Stop] has returned while a cycle is about to start, and the
    cycle then runs and publishes its result into the target. *)
Theorem publish_after_Stop d t st t' st' :
  0 < fl_interval t → fl_cap ≠ Some 0%nat → cycle_result t st = Some (t', st') →
  ∃ l s1 s2,
    execs l (init d t st) = Some s1 ∧
    sc_callers s1 = [SReturned] ∧ sc_target s1 = t ∧ sc_store s1 = st ∧
    execs (replicate 3 (ACycle 0)) s1 = Some s2 ∧
    sc_target s2 = t' ∧ sc_store s2 = st' ∧ sc_panic s2 = false.
Proof.
  intros Hi Hcap Hres. eexists (stop_early d), _, _.
  split; [by apply execs_stop_early|]. do 3 (split; [done|]).
  split; [by apply (execs_cycle _ 0 t' st')|done].
Qed.

(** Before the ticker exists: no cycle has been started and the target is
    the one the constructor made. *)
Definition pre_ticker t (s : sched) : Prop :=
  (sc_loop s = LDelay ∨ sc_loop s = LTicker) ∧ sc_cycles s = [] ∧
  sc_ticker s = false ∧ sc_target s = t.

Lemma pre_ticker_step t s a s' :
  fl_interval t ≤ 0 → pre_ticker t s → step s a s' → pre_ticker t s'.
Proof.
  intros Hi (Hl & Hc & Htk & Ht) Hstep. unfold pre_ticker.
  destruct Hstep; step_cases; try (by auto); try (destruct Hl; congruence);
    try congruence.
  all: try (by rewrite Hc in * ).
  match goal with Hb : bool_decide _ = true |- _ => apply bool_decide_eq_true_1 in Hb; lia end.
Qed.

(** C33: a target constructed with an interval that is not positive
    never starts a cycle: in every state it reaches no cycle exists and
    the loop is before [time.NewTicker], and that call panics. *)
Theorem NewTicker_panics d t st s :
  fl_interval t ≤ 0 → reachable (init d t st) s →
  sc_cycles s = [] ∧ sc_target s = t ∧ (sc_loop s = LDelay ∨ sc_loop s = LTicker) ∧
  ∀ s', step s ANewTicker s' → sc_panic s' = true.
Proof.
  intros Hi Hs.
  assert (pre_ticker t s) as (Hl & Hc & Htk & Ht).
  { revert Hs. apply invariant_reachable; [|intros; by eapply pre_ticker_step].
    unfold pre_ticker, init. simpl. case_bool_decide; auto. }
  do 3 (split; [done|]). intros s' Hstep. inversion Hstep; subst.
  unfold new_ticker. rewrite bool_decide_eq_false_2 by lia. done.
Qed.
End safety.

(** ** Targets that keep their invariant *)

Section no_panic.
Context `{FlavorOk}.
Implicit Types (s : sched) (a : action) (t : fl_target) (st : fl_store) (d itv : Duration).

(** What the data of every reachable state satisfies, for a target that
    is well formed when it is constructed. *)
Record data_inv (itv : Duration) (s : sched) : Prop := {
  di_inv : fl_inv (sc_target s) (sc_store s);
  di_valid i data : sc_cycles s !! i = Some (CPublish data) → fl_valid data (sc_store s);
  di_interval : fl_interval (sc_target s) = itv;
}.

Lemma data_inv_init d t st : fl_inv t st → data_inv (fl_interval t) (init d t st).
Proof. intros Hinv. by split. Qed.

Lemma lookup_insert_Some_inv {A} (l : list A) i j x y :
  <[i := x]> l !! j = Some y → (i = j ∧ x = y) ∨ (i ≠ j ∧ l !! j = Some y).
Proof.
  intros Hl. destruct (decide (i = j)) as [->|Hne].
  - left. pose proof (lookup_lt_Some _ _ _ Hl) as Hlt. rewrite length_insert in Hlt.
    rewrite list_lookup_insert_eq in Hl by done. by simplify_eq.
  - right. by rewrite list_lookup_insert_ne in Hl.
Qed.

Lemma lookup_snoc_CPublish (cs : list cycle_pc) i data :
  (cs ++ [CStart]) !! i = Some (CPublish data) → cs !! i = Some (CPublish data).
Proof.
  intros [?|[_ Hi]]%lookup_app_Some; [done|].
  by apply list_lookup_singleton_Some in Hi as [_ ?].
Qed.

Lemma data_inv_cycle_step itv s i pc s' :
  data_inv itv s → sc_cycles s !! i = Some pc → cycle_step i pc s = Some s' →
  data_inv itv s'.
Proof.
  intros [Hinv Hval Hitv] Hi Hstep. destruct pc as [|id|data| |]; simpl in Hstep.
  - pose proof (fl_start_inv _ _ Hinv). pose proof (fl_start_valid (sc_target s) (sc_store s)).
    destruct (fl_start _ _) as [id st1]. simplify_eq. split; simpl in *; [done| |done].
    intros j data [[_ ?]|[_ Hj]]%lookup_insert_Some_inv; [done|eauto].
  - pose proof (fl_probe_inv _ id _ Hinv).
    pose proof (fl_probe_valid (sc_target s) id (sc_store s)).
    pose proof (fl_probe_new (sc_target s) id (sc_store s)).
    destruct (fl_probe _ _ _) as [data st1]. simplify_eq. split; simpl in *; [done| |done].
    intros j data' [[_ ?]|[_ Hj]]%lookup_insert_Some_inv; [by simplify_eq|eauto].
  - destruct (fl_publish_ok _ data _ Hinv (Hval _ _ Hi)) as (t' & st' & E & Hinv' & Hitv' & Hval').
    rewrite E in Hstep. simplify_eq. split; simpl; [done| |congruence].
    intros j data' [[_ ?]|[_ Hj]]%lookup_insert_Some_inv; [by destruct fl_cap|eauto].
  - destruct (sc_tokens s); simplify_eq. split; simpl; [done| |done].
    intros j data' [[_ ?]|[_ Hj]]%lookup_insert_Some_inv; [done|eauto].
  - done.
Qed.

Lemma data_inv_step itv s a s' : data_inv itv s → step s a s' → data_inv itv s'.
Proof.
  intros Hdi Hstep. destruct Hstep; try (by eapply data_inv_cycle_step);
    destruct Hdi as [Hinv Hval Hitv]; step_cases; try (by split); split; simpl; try done.
  all: intros i data ?%lookup_snoc_CPublish; eauto.
Qed.

Lemma data_inv_reachable d t st s :
  fl_inv t st → reachable (init d t st) s → data_inv (fl_interval t) s.
Proof.
  intros Hinv. apply invariant_reachable; [by apply data_inv_init|apply data_inv_step].
Qed.

(** A panic has one of two causes. *)
Definition panic_inv itv (s : sched) : Prop :=
  sc_panic s = true → itv ≤ 0 ∨ SPanicked ∈ sc_callers s.

Lemma panic_inv_step itv s a s' :
  control_inv s → data_inv itv s → panic_inv itv s → step s a s' → panic_inv itv s'.
Proof.
  intros [Hwg _ _ _ _ _ _] [Hinv Hval Hitv] Hp Hstep. unfold panic_inv.
  destruct Hstep; step_cases; try congruence; intros _.
  all: try (right; apply elem_of_app; right; by apply list_elem_of_singleton).
  all: try match goal with
       | Hb : bool_decide (0 < _) = false |- _ =>
           left; apply bool_decide_eq_false_1 in Hb; lia
       | Hb : bool_decide (_ - 1 < 0) = true |- _ =>
           apply bool_decide_eq_true_1 in Hb; lia
       | Hn : fl_publish _ ?d _ = None, Hi : sc_cycles _ !! _ = Some (CPublish ?d) |- _ =>
           destruct (fl_publish_ok _ d _ Hinv (Hval _ _ Hi)) as (? & ? & ? & _); congruence
       end.
Qed.

(** C34: a target that is well formed when constructed, with a positive
    interval, panics for one reason only, a second call of [Stop]: the
    ticker is created, [wg.Done] never makes the counter negative, and
    every critical section succeeds, whatever the interleaving. *)
Theorem sched_no_panic d t st s :
  fl_inv t st → 0 < fl_interval t → reachable (init d t st) s →
  sc_panic s = true → SPanicked ∈ sc_callers s.
Proof.
  intros Hinv Hi Hs Hp.
  assert (control_inv s ∧ data_inv (fl_interval t) s ∧ panic_inv (fl_interval t) s)
    as (_ & _ & Hpi).
  { revert Hs.
    apply (invariant_reachable
             (λ s, control_inv s ∧ data_inv (fl_interval t) s ∧ panic_inv (fl_interval t) s)).
    - split; [apply control_inv_init|]. split; [by apply data_inv_init|done].
    - intros s1 a s2 (Hc & Hd & Hpi) Hstep.
      split; [by eapply control_inv_step|]. split; [by eapply data_inv_step|].
      by eapply panic_inv_step. }
  destruct (Hpi Hp) as [?|?]; [lia|done].
Qed.

(** ** Progress of the cycles and of [Stop] *)

(** The number of phases a cycle goroutine has left. *)
Definition phase_rank (pc : cycle_pc) : nat :=
  match pc with
  | CStart => 4 | CProbe _ => 3 | CPublish _ => 2 | CRelease => 1 | CDone => 0
  end.

(** What a phase of a cycle leaves alone. *)
Definition frame (s s' : sched) : Prop :=
  sc_loop s' = sc_loop s ∧ sc_stop s' = sc_stop s ∧ sc_wg s' = sc_wg s ∧
  sc_callers s' = sc_callers s ∧ sc_panic s' = false.

Lemma frame_refl s : sc_panic s = false → frame s s.
Proof. by intros Hp. Qed.

Lemma frame_trans s1 s2 s3 : frame s1 s2 → frame s2 s3 → frame s1 s3.
Proof. unfold frame. intros (?&?&?&?&?) (?&?&?&?&?). split_and!; congruence. Qed.

Lemma running_pos (cs : list cycle_pc) j pc :
  cs !! j = Some pc → live pc → (0 < length (filter live cs))%nat.
Proof.
  intros Hj Hl. apply list_elem_of_lookup_2 in Hj.
  assert (pc ∈ filter live cs) as Hin by (by apply list_elem_of_filter).
  destruct (filter live cs); [by apply elem_of_nil in Hin|simpl; lia].
Qed.

(** A cycle that has not returned can take its next phase, which lowers
    its rank; the last phase gives the token back. *)
Lemma cycle_next itv s j pc :
  sc_panic s = false → data_inv itv s → token_inv s →
  sc_cycles s !! j = Some pc → live pc →
  ∃ s' pc', exec (ACycle j) s = Some s' ∧ frame s s' ∧
    sc_cycles s' = <[j := pc']> (sc_cycles s) ∧ (phase_rank pc' < phase_rank pc)%nat.
Proof.
  intros Hp [Hinv Hval Hitv] Htok Hj Hl. pose proof (lookup_lt_Some _ _ _ Hj) as Hlt.
  unfold exec. rewrite Hp, Hj. simpl. destruct pc as [|id|data| |]; simpl; [..|done].
  - destruct (fl_start _ _) as [id st1]. eexists _, _. split; [done|]. simpl.
    split_and!; [by unfold frame|done|simpl; lia].
  - destruct (fl_probe _ _ _) as [data st1]. eexists _, _. split; [done|]. simpl.
    split_and!; [by unfold frame|done|simpl; lia].
  - destruct (fl_publish_ok _ data _ Hinv (Hval _ _ Hj)) as (t' & st' & -> & _).
    eexists _, _. split; [done|]. simpl.
    split_and!; [by unfold frame|done|destruct fl_cap; simpl; lia].
  - unfold token_inv, running in Htok. destruct fl_cap as [cap|].
    + pose proof (running_pos _ _ _ Hj Hl). destruct (sc_tokens s) as [|n] eqn:E; [lia|].
      eexists _, _. split; [done|]. simpl.
      split_and!; [by unfold frame|done|simpl; lia].
    + destruct Htok as [_ []]. by eapply list_elem_of_lookup_2.
Qed.

(** A cycle goroutine returns within four of its own steps, whatever the
    other goroutines do not do meanwhile. *)
Lemma cycle_finishes itv n s j pc :
  (phase_rank pc ≤ n)%nat →
  sc_panic s = false → data_inv itv s → token_inv s → sc_cycles s !! j = Some pc →
  ∃ l s', execs l s = Some s' ∧ (length l ≤ n)%nat ∧ frame s s' ∧
    data_inv itv s' ∧ token_inv s' ∧
    (running s' + (if live pc then 1 else 0) = running s)%nat ∧
    sc_cycles s' !! j = Some CDone ∧ l = replicate (length l) (ACycle j).
Proof.
  revert s pc. induction n as [|n IH]; intros s pc Hr Hp Hd Ht Hj.
  { exists [], s. destruct pc; simpl in *; try lia. by split_and!. }
  destruct (live pc) eqn:Hl;
    [|exists [], s; destruct pc; simplify_eq/=; split_and!; simpl; by try lia].
  destruct (cycle_next itv s j pc) as (s1 & pc1 & E & Hf & Hc & Hr1); [by try rewrite Hl..|].
  assert (step s (ACycle j) s1) as Hstep by (by apply step_exec).
  destruct (IH s1 pc1) as (l & s2 & El & Hlen & Hf2 & Hd2 & Ht2 & Hrun & Hdone & Hl2);
    [lia|apply Hf|by eapply data_inv_step|by eapply token_inv_step| |].
  { rewrite Hc. apply list_lookup_insert_eq. by eapply lookup_lt_Some. }
  exists (ACycle j :: l), s2. simpl. rewrite E. simpl.
  split_and!; [done|lia|by eapply frame_trans|done|done| |done|by rewrite <-Hl2].
  pose proof (running_insert _ _ _ pc1 Hj) as Hins. unfold running in *.
  rewrite Hc in Hrun. rewrite Hl in Hins. lia.
Qed.

(** C40: every cycle goroutine of a well-formed target terminates: from
    every reachable state in which nothing has panicked, at most four
    steps of the goroutine alone bring it to its end, without a panic and
    without a step of any other goroutine. *)
Theorem cycle_terminates d t st s j pc :
  fl_inv t st → reachable (init d t st) s → sc_panic s = false →
  sc_cycles s !! j = Some pc →
  ∃ n s', (n ≤ phase_rank pc)%nat ∧ execs (replicate n (ACycle j)) s = Some s' ∧
          sc_cycles s' !! j = Some CDone ∧ sc_panic s' = false.
Proof.
  intros Hinv Hs Hp Hj.
  destruct (cycle_finishes (fl_interval t) (phase_rank pc) s j pc)
    as (l & s' & El & Hlen & Hf & _ & _ & _ & Hdone & Hl);
    [done|done|by eapply data_inv_reachable|by eapply token_inv_reachable|done|].
  exists (length l), s'. rewrite <-Hl. split_and!; [done..|apply Hf].
Qed.

(** A caller of [Stop] that waits while the loop has not exited. *)
Definition waiting (i : nat) (s : sched) : Prop :=
  sc_panic s = false ∧ sc_stop s = true ∧ sc_wg s = 1 ∧ sc_callers s !! i = Some SWait.

Lemma waiting_frame i s s' : waiting i s → frame s s' → waiting i s'.
Proof. unfold waiting, frame. intros (?&?&?&?) (?&?&?&?&?). split_and!; congruence. Qed.

(** The runs that take the loop from each of its positions to its exit
    and let the caller return. *)
Lemma done_returns i s :
  waiting i s → sc_loop s = LDone →
  ∃ s', execs [ADone; AWait i] s = Some s' ∧ sc_callers s' !! i = Some SReturned.
Proof.
  intros (Hp & Hs & Hw & Hi) Hl. pose proof (lookup_lt_Some _ _ _ Hi).
  destruct s. simpl in *. subst. unfold exec, loop_exit. simpl. rewrite Hi. simpl.
  eexists. split; [done|]. simpl. by apply list_lookup_insert_eq.
Qed.

(** One more step of the loop before a run that lets the caller return. *)
Lemma step_returns i a l s s1 :
  exec a s = Some s1 →
  (∃ s', execs l s1 = Some s' ∧ sc_callers s' !! i = Some SReturned) →
  ∃ s', execs (a :: l) s = Some s' ∧ sc_callers s' !! i = Some SReturned.
Proof. intros E (s' & El & Hr). exists s'. simpl. by rewrite E. Qed.

Lemma select_returns i s :
  waiting i s → sc_loop s = LSelect →
  ∃ s', execs [ASelectStop; ADone; AWait i] s = Some s' ∧
        sc_callers s' !! i = Some SReturned.
Proof.
  intros Hw Hl. apply (step_returns _ _ _ _ (tick_stop s)).
  - destruct Hw as (Hp & Hs & _). unfold exec. by rewrite Hp, Hl, Hs.
  - by apply done_returns.
Qed.

Lemma ticker_returns i s :
  waiting i s → sc_loop s = LTicker → 0 < fl_interval (sc_target s) →
  ∃ s', execs [ANewTicker; ASelectStop; ADone; AWait i] s = Some s' ∧
        sc_callers s' !! i = Some SReturned.
Proof.
  intros Hw Hl Hi. apply (step_returns _ _ _ _ (new_ticker s)).
  - destruct Hw as (Hp & _). unfold exec. by rewrite Hp, Hl.
  - unfold new_ticker. rewrite bool_decide_eq_true_2 by done. by apply select_returns.
Qed.

Lemma go_returns i s :
  waiting i s → sc_loop s = LGo →
  ∃ s', execs [AGo; ASelectStop; ADone; AWait i] s = Some s' ∧
        sc_callers s' !! i = Some SReturned.
Proof.
  intros Hw Hl. apply (step_returns _ _ _ _ (spawn s)).
  - destruct Hw as (Hp & _). unfold exec. by rewrite Hp, Hl.
  - by apply select_returns.
Qed.

Lemma send_returns i s cap :
  waiting i s → sc_loop s = LSend → fl_cap = Some cap → (sc_tokens s < cap)%nat →
  ∃ s', execs [ASend; AGo; ASelectStop; ADone; AWait i] s = Some s' ∧
        sc_callers s' !! i = Some SReturned.
Proof.
  intros Hw Hl Hcap Hlt.
  apply (step_returns _ _ _ _ (with_loop LGo (with_tokens (S (sc_tokens s)) s))).
  - destruct Hw as (Hp & _). unfold exec, send_token.
    by rewrite Hp, Hl, Hcap, bool_decide_eq_true_2.
  - by apply go_returns.
Qed.

Lemma running_live (cs : list cycle_pc) :
  (0 < length (filter live cs))%nat → ∃ j pc, cs !! j = Some pc ∧ live pc.
Proof.
  destruct (filter live cs) as [|pc l] eqn:E; simpl; [lia|]. intros _.
  assert (pc ∈ filter live cs) as [Hl Hin]%list_elem_of_filter by (rewrite E; by left).
  apply list_elem_of_lookup_1 in Hin as [j Hj]. by exists j, pc.
Qed.

Lemma delay_returns i s :
  waiting i s → sc_loop s = LDelay → 0 < fl_interval (sc_target s) →
  ∃ s', execs [ADelayStop; ANewTicker; ASelectStop; ADone; AWait i] s = Some s' ∧
        sc_callers s' !! i = Some SReturned.
Proof.
  intros Hw Hl Hi. apply (step_returns _ _ _ _ (with_loop LTicker s)).
  - destruct Hw as (Hp & Hs & _). unfold exec. by rewrite Hp, Hl, Hs.
  - by apply ticker_returns.
Qed.

Lemma exit_returns i s :
  sc_panic s = false → sc_loop s = LExit → sc_wg s = 0 → sc_callers s !! i = Some SWait →
  ∃ s', execs [AWait i] s = Some s' ∧ sc_callers s' !! i = Some SReturned.
Proof.
  intros Hp Hl Hw Hi. pose proof (lookup_lt_Some _ _ _ Hi).
  simpl. unfold exec. rewrite Hp, Hi, Hw. simpl.
  eexists. split; [done|]. simpl. by apply list_lookup_insert_eq.
Qed.

(** The loop blocked on a full token channel: one cycle is run to its
    end, then the send, the [go] statement, the stop case, [wg.Done] and
    the return of [Wait]. *)
Lemma send_full_returns itv i s cap :
  waiting i s → sc_loop s = LSend → fl_cap = Some (S cap) →
  data_inv itv s → token_inv s →
  ∃ l s', execs l s = Some s' ∧ (length l ≤ 9)%nat ∧ sc_callers s' !! i = Some SReturned.
Proof.
  intros Hw Hl Hcap Hd Ht.
  destruct (decide (sc_tokens s < S cap)%nat) as [Hlt|Hfull].
  { destruct (send_returns i s (S cap)) as (s' & E & Hr); [done..|].
    eexists _, s'. split_and!; [done|simpl; lia|done]. }
  pose proof Ht as Ht0. unfold token_inv, pending in Ht0.
  rewrite Hcap, Hl in Ht0. destruct Ht0 as [Htr Hle].
  destruct (running_live (sc_cycles s)) as (j & pc & Hj & Hlive);
    [unfold running in *; simpl in *; lia|].
  destruct (cycle_finishes itv 4 s j pc) as (l & s1 & El & Hlen & Hf & Hd1 & Ht1 & Hrun & _);
    [destruct pc; simpl; lia|apply Hw|done..|].
  assert (sc_loop s1 = LSend) as Hl1 by (destruct Hf as [-> _]; done).
  unfold token_inv, pending in Ht1. rewrite Hcap, Hl1 in Ht1. destruct Ht1 as [Htr1 _].
  destruct (live pc); [|done].
  destruct (send_returns i s1 (S cap)) as (s' & E & Hr);
    [by eapply waiting_frame|done|done|simpl in *; lia|].
  exists (l ++ [ASend; AGo; ASelectStop; ADone; AWait i]), s'.
  rewrite execs_app, El, length_app. simpl. split_and!; [done|lia|done].
Qed.

(** C36: [Stop] can always return: from every reachable state of a
    well-formed target with a positive interval and a token channel of
    positive capacity, if any, in which a caller waits in [wg.Wait] and
    no goroutine has panicked, there is a run of at most nine steps (four
    of one cycle, four of the loop and one of the caller) after which the
    caller has returned. *)
Theorem Stop_can_return d t st s i :
  fl_inv t st → 0 < fl_interval t → fl_cap ≠ Some 0%nat →
  reachable (init d t st) s → sc_panic s = false → sc_callers s !! i = Some SWait →
  ∃ l s', execs l s = Some s' ∧ (length l ≤ 9)%nat ∧ sc_callers s' !! i = Some SReturned.
Proof.
  intros Hinv Hi Hcap Hs Hp Hc.
  pose proof (control_inv_reachable _ _ _ _ Hs) as [Hwg _ _ _ Hcal _ Hsend].
  pose proof (data_inv_reachable d t st s Hinv Hs) as Hd.
  pose proof (token_inv_reachable _ _ _ _ Hs) as Ht.
  assert (sc_stop s = true) as Hstop by (apply Hcal; intros E; by rewrite E in Hc).
  assert (0 < fl_interval (sc_target s)) as Hi' by (by rewrite (di_interval _ _ Hd)).
  destruct (sc_loop s) eqn:Hl; rewrite ?decide_False in Hwg by done.
  - destruct (delay_returns i s) as (s' & E & Hr); [done..|].
    eexists _, s'. split_and!; [done|simpl; lia|done].
  - destruct (ticker_returns i s) as (s' & E & Hr); [done..|].
    eexists _, s'. split_and!; [done|simpl; lia|done].
  - destruct (select_returns i s) as (s' & E & Hr); [done..|].
    eexists _, s'. split_and!; [done|simpl; lia|done].
  - destruct (Hsend eq_refl) as [[|cap] Hcap']; [congruence|].
    by eapply send_full_returns.
  - destruct (go_returns i s) as (s' & E & Hr); [done..|].
    eexists _, s'. split_and!; [done|simpl; lia|done].
  - destruct (done_returns i s) as (s' & E & Hr); [done..|].
    eexists _, s'. split_and!; [done|simpl; lia|done].
  - destruct (exit_returns i s) as (s' & E & Hr); [done..|].
    eexists _, s'. split_and!; [done|simpl; lia|done].
Qed.
End no_panic.
