(* ===== verification/Targets.v ===== *)
(** * Targets: the two targets under the scheduler

    [PING] and [MTR] as instances of the interface [Flavor] of
    [Scheduler]: the cycle goroutine of [target_ping.go] runs [t.ping()]
    and then receives from [waitChan], whose capacity is the package
    constant [MaxConcurrentJobs]; the cycle goroutine of [target_mtr.go]
    runs [t.mtr()] and there is no token channel.  The phases of a cycle
    are the parts of the methods defined in [PingTarget] and [MtrTarget];
    their composition is the method.

    The laws [FlavorOk] that the scheduler's theorems assume are proved
    here from the lemmas of the two targets: the invariant is the
    well-formedness of the target, a datum is valid when it is the address
    of a result of the heap.  The theorems of [Scheduler] are then applied
    to targets with scripted collaborators. *)

From S2P Require Import Prelude Transport Stats PingEngine IcmpID PingTarget.
From S2P Require Import HopSummary MtrTarget Scheduler.

#[local] Set Warnings "-clear-no-such-hyp".

(** ** The PING target *)

Section ping.
Context `{EchoTransport}.
Variable MaxConcurrentJobs : nat.

(** [go func() { t.ping(); <-waitChan }()] under [waitChan := make(chan
    struct{}, MaxConcurrentJobs)]. *)
Definition ping_flavor : Flavor := {|
  fl_target := PING.PING;
  fl_store := PING.shared;
  fl_datum := loc;
  fl_interval := PING.interval;
  fl_cap := Some MaxConcurrentJobs;
  fl_start := PING.ping_start;
  fl_probe t icmpID s := let '(data, _, _, s') := PING.ping_probe t icmpID s in (data, s');
  fl_publish := PING.ping_publish;
|}.

(** A datum of a cycle in flight is the address of a result. *)
Definition ping_valid (data : loc) (s : PING.shared) : Prop :=
  is_Some (PING.sh_heap s !! data).

(** The three phases compose to the method [ping]. *)
Lemma ping_cycle_result t s : @cycle_result ping_flavor t s = PING.ping t s.
Proof.
  unfold cycle_result, PING.ping. cbn [fl_start fl_probe fl_publish ping_flavor].
  destruct (PING.ping_start t s) as [id s1].
  by destruct (PING.ping_probe t id s1) as [[[data err] log] s2].
Qed.

Lemma ping_start_heap t s : PING.sh_heap (PING.ping_start t s).2 = PING.sh_heap s.
Proof. unfold PING.ping_start. by destruct (Get _). Qed.

Lemma ping_probe_heap t id s :
  PING.sh_heap (PING.ping_probe t id s).2 =
  <[(PING.ping_probe t id s).1.1.1 := (Ping (PING.host t) (PING.ip t) (PING.srcAddr t)
      (PING.count t) (PING.interval t) (PING.timeout t) id (PING.sh_net s)).1.1.1]>
    (PING.sh_heap s) ∧
  PING.sh_heap s !! (PING.ping_probe t id s).1.1.1 = None.
Proof.
  unfold PING.ping_probe. destruct (Ping _ _ _ _ _ _ _ _) as [[[out err] w] log]. simpl.
  split; [done|]. apply not_elem_of_dom, is_fresh.
Qed.

Lemma ping_probe_keeps t id s l :
  is_Some (PING.sh_heap s !! l) → is_Some (PING.sh_heap (PING.ping_probe t id s).2 !! l).
Proof.
  intros Hl. destruct (ping_probe_heap t id s) as [-> Hf].
  rewrite lookup_insert_ne; [done|]. intros <-. rewrite Hf in Hl. by destruct Hl.
Qed.

Lemma PING_ok_heap t s s' :
  (∀ l, is_Some (PING.sh_heap s !! l) → is_Some (PING.sh_heap s' !! l)) →
  PING.PING_ok t s → PING.PING_ok t s'.
Proof. intros Hh (r & Hr & Hs). exists r. auto. Qed.

Lemma ping_publish_ok t data s :
  PING.PING_ok t s → ping_valid data s →
  ∃ t' s', PING.ping_publish t data s = Some (t', s') ∧ PING.PING_ok t' s' ∧
           PING.interval t' = PING.interval t ∧
           ∀ data', ping_valid data' s → ping_valid data' s'.
Proof.
  intros (r & Hr & [old Hold]) [d Hd]. unfold PING.ping_publish.
  rewrite Hr. simpl. rewrite Hold. simpl. rewrite Hd. simpl. eexists _, _.
  split; [done|].
  assert (∀ l, is_Some (PING.sh_heap s !! l) →
               is_Some (<[r := PING.add_summary old d]> (PING.sh_heap s) !! l)) as Hk.
  { intros l Hl. apply lookup_insert_is_Some. destruct (decide (r = l)); auto. }
  split_and!; [|done|intros data'; apply Hk].
  exists data. split; [done|]. apply Hk. by exists d.
Qed.

#[export] Instance ping_flavor_ok : @FlavorOk ping_flavor.
Proof.
  refine (@Build_FlavorOk ping_flavor PING.PING_ok ping_valid _ _ _ _ _ _);
    cbn [fl_start fl_probe fl_publish fl_interval ping_flavor].
  - intros t s. apply PING_ok_heap. intros l. by rewrite ping_start_heap.
  - intros t s d. unfold ping_valid. by rewrite ping_start_heap.
  - intros t id s. destruct (PING.ping_probe t id s) as [[[data err] log] s'] eqn:E. simpl.
    apply PING_ok_heap. intros l Hl. pose proof (ping_probe_keeps t id s l Hl) as Hk.
    by rewrite E in Hk.
  - intros t id s d Hd. pose proof (ping_probe_keeps t id s d Hd) as Hk.
    by destruct (PING.ping_probe t id s) as [[[data err] log] s'].
  - intros t id s. destruct (ping_probe_heap t id s) as [Hh _].
    destruct (PING.ping_probe t id s) as [[[data err] log] s']. simpl in *.
    unfold ping_valid. rewrite Hh, lookup_insert_eq. by eexists.
  - apply ping_publish_ok.
Defined.

End ping.

(** ** The MTR target *)

Section mtr.
Context `{HopTrace}.

(** [go t.mtr()], without a token channel. *)
Definition mtr_flavor : Flavor := {|
  fl_target := MTR.MTR;
  fl_store := MTR.shared;
  fl_datum := option loc;
  fl_interval := MTR.interval;
  fl_cap := None;
  fl_start := MTR.mtr_start;
  fl_probe t icmpID s := let '(data, _, s') := MTR.mtr_probe t icmpID s in (data, s');
  fl_publish := MTR.mtr_publish;
|}.

(** A datum of a cycle in flight is a pointer that is not nil, to a
    result of the heap. *)
Definition mtr_valid (data : option loc) (s : MTR.shared) : Prop :=
  ∃ l, data = Some l ∧ is_Some (MTR.sh_results s !! l).

(** The three phases compose to the method [mtr]. *)
Lemma mtr_cycle_result t s : @cycle_result mtr_flavor t s = MTR.mtr t s.
Proof.
  unfold cycle_result, MTR.mtr. cbn [fl_start fl_probe fl_publish mtr_flavor].
  destruct (MTR.mtr_start t s) as [id s1].
  by destruct (MTR.mtr_probe t id s1) as [[data err] s2].
Qed.

(** A state extends another when it has the results of the other and the
    same maps. *)
Definition mtr_extends (s s' : MTR.shared) : Prop :=
  MTR.sh_maps s' = MTR.sh_maps s ∧
  ∀ l res, MTR.sh_results s !! l = Some res → MTR.sh_results s' !! l = Some res.

Lemma MTR_ok_extends t s s' : mtr_extends s s' → MTR.MTR_ok t s → MTR.MTR_ok t s'.
Proof.
  intros [Hm Hr] (ml & m & r & res & ? & ? & ? & ?). exists ml, m, r, res.
  split_and!; [done|by apply Hr|done|by rewrite Hm].
Qed.

Lemma mtr_valid_extends data s s' : mtr_extends s s' → mtr_valid data s → mtr_valid data s'.
Proof. intros [_ Hr] (l & -> & [res Hl]). exists l. split; [done|]. exists res. auto. Qed.

Lemma mtr_start_extends t s : mtr_extends s (MTR.mtr_start t s).2.
Proof. unfold MTR.mtr_start. by destruct (Get _). Qed.

Lemma mtr_probe_extends t id s : mtr_extends s (MTR.mtr_probe t id s).2.
Proof.
  unfold MTR.mtr_probe, MTR.alloc_result.
  destruct (Mtr _ _ _ _ _ _ _) as [[[hops|] err] w]; simpl; [|done].
  split; [done|]. intros l res Hl. simpl. rewrite lookup_insert_ne; [done|].
  intros <-. by apply (is_fresh (dom (MTR.sh_results s))), elem_of_dom.
Qed.

Lemma mtr_publish_ok t data s :
  MTR.MTR_ok t s → mtr_valid data s →
  ∃ t' s', MTR.mtr_publish t data s = Some (t', s') ∧ MTR.MTR_ok t' s' ∧
           MTR.interval t' = MTR.interval t ∧
           ∀ data', mtr_valid data' s → mtr_valid data' s'.
Proof.
  intros (ml & m & Hat) (d & -> & [new Hd]).
  rewrite (MTR.mtr_publish_spec t s ml m d new Hat Hd). eexists _, _. split; [done|].
  split_and!; [|done|].
  - exists ml, (merge_hops m (Hops new)). eexists _, _. simpl.
    split_and!; [done|apply lookup_insert_eq|done|apply lookup_insert_eq].
  - intros data' (l & -> & Hl). exists l. split; [done|]. simpl.
    apply lookup_insert_is_Some. destruct (decide (d = l)); auto.
Qed.

End mtr.

Section mtr_ok.
Context `{HopTraceOk}.

Lemma mtr_probe_new t id s :
  mtr_valid (MTR.mtr_probe t id s).1.1 (MTR.mtr_probe t id s).2.
Proof.
  unfold MTR.mtr_probe, MTR.alloc_result.
  destruct (Mtr_not_nil (MTR.host t) (MTR.srcAddr t) (MTR.maxHops t) (MTR.count t)
              (MTR.timeout t) id (MTR.sh_net s)) as [hops Hh].
  destruct (Mtr _ _ _ _ _ _ _) as [[out err] w]. simpl in Hh. subst out. simpl.
  eexists. split; [done|]. simpl. rewrite lookup_insert_eq. by eexists.
Qed.

#[export] Instance mtr_flavor_ok : @FlavorOk mtr_flavor.
Proof.
  refine (@Build_FlavorOk mtr_flavor MTR.MTR_ok mtr_valid _ _ _ _ _ _);
    cbn [fl_start fl_probe fl_publish fl_interval mtr_flavor].
  - intros t s. apply MTR_ok_extends, mtr_start_extends.
  - intros t s d. apply mtr_valid_extends, mtr_start_extends.
  - intros t id s. pose proof (mtr_probe_extends t id s) as He.
    destruct (MTR.mtr_probe t id s) as [[data err] s']. by apply MTR_ok_extends.
  - intros t id s d. pose proof (mtr_probe_extends t id s) as He.
    destruct (MTR.mtr_probe t id s) as [[data err] s']. by apply mtr_valid_extends.
  - intros t id s. pose proof (mtr_probe_new t id s) as Hn.
    by destruct (MTR.mtr_probe t id s) as [[data err] s'].
  - apply mtr_publish_ok.
Defined.

End mtr_ok.

(** ** Scripted targets under the scheduler *)

Section scripted.

(** The PING target of [PingTarget] with a token channel of capacity 2
    and of capacity 1, and the MTR target of [MtrTarget]. *)
Definition P2 : Flavor := @ping_flavor script_transport 2.
Definition P1 : Flavor := @ping_flavor script_transport 1.
Definition M0 : Flavor := @mtr_flavor MTR.total_trace.

Definition ping_init : @sched P2 := @init P2 0 PING.t0 PING.s0.
Definition ping_init1 : @sched P1 := @init P1 0 PING.t0 PING.s0.
Definition mtr_init : @sched M0 := @init M0 (2 * Second) MTR.t0 MTR.s0.

(** Evaluation of a closed fact about a state. *)
Ltac run_it := vm_compute; first [reflexivity | exact I | done].

Lemma sched_bounded_concurrency_witness :
  let s := @after P2 [ANewTicker; ATick; ASelectTick; ASend; AGo; ATick; ASelectTick; ASend]
             ping_init in
  (@running P2 s ≤ 2)%nat ∧ @sc_tokens P2 s = (@running P2 s + @pending P2 s)%nat ∧
  (@sc_tokens P2 s ≤ 2)%nat.
Proof.
  apply (@sched_bounded_concurrency P2 0 PING.t0 PING.s0 _ 2 eq_refl), (@after_reachable P2).
Defined.

(** In that state the loop has sent the token of the second cycle and has
    not started it yet: two tokens, one cycle. *)
Example ping_token_before_go :
  let l := [ANewTicker; ATick; ASelectTick; ASend; AGo; ATick; ASelectTick; ASend] in
  let s := @after P2 l ping_init in
  (@possible P2 l ping_init, @running P2 s, @sc_tokens P2 s, @sc_loop P2 s) =
  (true, 1%nat, 2%nat, LGo).
Proof. by vm_compute. Qed.

(** With two cycles in flight the third tick leaves the loop at the send,
    which is not enabled. *)
Example ping_pool_full :
  let l := [ANewTicker; ATick; ASelectTick; ASend; AGo; ATick; ASelectTick; ASend; AGo;
            ATick; ASelectTick] in
  let s := @after P2 l ping_init in
  (@possible P2 l ping_init, @running P2 s, @sc_tokens P2 s, @sc_loop P2 s,
   @possible P2 [ASend] s) = (true, 2%nat, 2%nat, LSend, false).
Proof. by vm_compute. Qed.

Lemma sched_unbounded_witness :
  ∃ l s, @execs M0 l mtr_init = Some s ∧ @running M0 s = 5%nat ∧ @sc_panic M0 s = false.
Proof. apply (@sched_unbounded M0 (2 * Second) MTR.t0 MTR.s0 5 eq_refl). run_it. Defined.

Lemma Stop_returns_after_exit_witness :
  let s := @after P2 [ANewTicker; ATick; AStop; ASelectStop; ADone; AWait 0] ping_init in
  @sc_loop P2 s = LExit ∧ @sc_stop P2 s = true ∧ @sc_ticker P2 s = false ∧ @sc_wg P2 s = 0.
Proof.
  apply (@Stop_returns_after_exit P2 0 PING.t0 PING.s0); [apply (@after_reachable P2)|].
  apply (bool_decide_unpack _). run_it.
Defined.

Lemma no_dispatch_after_exit_witness :
  let l := [ANewTicker; ATick; ASelectTick; ASend; AGo; AStop; ASelectStop; ADone] in
  let s := @after P2 l ping_init in
  let s' := @after P2 (l ++ [ACycle 0]) ping_init in
  @sc_loop P2 s' = LExit ∧ length (@sc_cycles P2 s') = length (@sc_cycles P2 s) ∧
  @sc_ticker P2 s' = false ∧ @sc_tick P2 s' = @sc_tick P2 s.
Proof.
  apply (@no_dispatch_after_exit P2 0 PING.t0 PING.s0 _ (ACycle 0));
    [apply (@after_reachable P2)|run_it|apply (@after_step P2); run_it].
Defined.

Lemma second_Stop_panics_witness :
  let s' := @after P2 [ANewTicker; AStop; AStop] ping_init in
  @sc_panic P2 s' = true ∧ last (@sc_callers P2 s') = Some SPanicked ∧
  ∀ a s'', ¬ @step P2 s' a s''.
Proof.
  apply (@second_Stop_panics P2 0 PING.t0 PING.s0 (@after P2 [ANewTicker; AStop] ping_init));
    [apply (@after_reachable P2)|by vm_compute|apply (@after_step P2 [ANewTicker; AStop]); run_it].
Defined.

Lemma publish_after_Stop_witness :
  ∃ l s1 s2,
    @execs P2 l ping_init = Some s1 ∧
    @sc_callers P2 s1 = [SReturned] ∧ @sc_target P2 s1 = PING.t0 ∧ @sc_store P2 s1 = PING.s0 ∧
    @execs P2 (replicate 3 (ACycle 0)) s1 = Some s2 ∧
    @sc_target P2 s2 = (PING.after_ping PING.t0 PING.s0 1%positive PingResult_zero).1 ∧
    @sc_store P2 s2 = (PING.after_ping PING.t0 PING.s0 1%positive PingResult_zero).2 ∧
    @sc_panic P2 s2 = false.
Proof.
  apply (@publish_after_Stop P2 0 PING.t0 PING.s0); [run_it|done|].
  refine (eq_trans (@ping_cycle_result script_transport 2 PING.t0 PING.s0) _).
  by apply PING.ping_spec.
Defined.

(** In that run [Stop] has returned when the cycle makes [Compute] return
    a new result. *)
Example ping_publishes_after_Stop :
  let s1 := @after P2 (@stop_early P2 0) ping_init in
  let s2 := @after P2 (@stop_early P2 0 ++ replicate 3 (ACycle 0)) ping_init in
  (@sc_callers P2 s1, PING.Compute (@sc_target P2 s1), PING.Compute (@sc_target P2 s2)) =
  ([SReturned], Some 1%positive, Some 2%positive).
Proof. by vm_compute. Qed.

(** A PING target constructed with an interval of zero. *)
Definition t_zero : PING.PING :=
  (PING.NewPing 0 "t" "host" "10.0.0.1" "" 0 1000000 2 ∅ PING.s_init).1.1.

Lemma NewTicker_panics_witness :
  let s := @init P2 0 t_zero PING.s0 in
  @sc_cycles P2 s = [] ∧ @sc_target P2 s = t_zero ∧
  (@sc_loop P2 s = LDelay ∨ @sc_loop P2 s = LTicker) ∧
  ∀ s', @step P2 s ANewTicker s' → @sc_panic P2 s' = true.
Proof.
  apply (@NewTicker_panics P2 0 t_zero PING.s0); [by vm_compute|apply reachable_init].
Defined.

Lemma sched_no_panic_witness :
  SPanicked ∈ @sc_callers P2 (@after P2 [ANewTicker; AStop; AStop] ping_init).
Proof.
  apply (@sched_no_panic P2 (ping_flavor_ok 2) 0 PING.t0 PING.s0);
    [exact PING.t0_ok|run_it|apply (@after_reachable P2)|run_it].
Defined.

Lemma send_blocks_Stop_witness :
  let l := [ANewTicker; ATick; ASelectTick; ASend; AGo; ATick; ASelectTick] in
  let s' := @after P1 (l ++ [AStop]) ping_init1 in
  @sc_loop P1 s' = LSend ∧ SReturned ∉ @sc_callers P1 s'.
Proof.
  apply (@send_blocks_Stop P1 0 PING.t0 PING.s0
           (@after P1 [ANewTicker; ATick; ASelectTick; ASend; AGo; ATick; ASelectTick]
              ping_init1)
           1 AStop);
    [apply (@after_reachable P1)|done|run_it|run_it|apply (@after_step P1); run_it].
Defined.

Lemma Stop_can_return_witness :
  let s := @after P1 [ANewTicker; ATick; ASelectTick; ASend; AGo; ATick; ASelectTick; AStop]
             ping_init1 in
  ∃ l s', @execs P1 l s = Some s' ∧ (length l ≤ 9)%nat ∧
          @sc_callers P1 s' !! 0%nat = Some SReturned.
Proof.
  apply (@Stop_can_return P1 (ping_flavor_ok 1) 0 PING.t0 PING.s0);
    [exact PING.t0_ok|run_it|done|apply (@after_reachable P1)|run_it|run_it].
Defined.

Lemma cycle_terminates_witness :
  let s := @after P1 [ANewTicker; ATick; ASelectTick; ASend; AGo] ping_init1 in
  ∃ n s', (n ≤ 4)%nat ∧ @execs P1 (replicate n (ACycle 0)) s = Some s' ∧
          @sc_cycles P1 s' !! 0%nat = Some CDone ∧ @sc_panic P1 s' = false.
Proof.
  apply (@cycle_terminates P1 (ping_flavor_ok 1) 0 PING.t0 PING.s0 _ 0%nat CStart);
    [exact PING.t0_ok|apply (@after_reachable P1)|run_it|reflexivity].
Defined.

(** The run that the proof finds: the cycle in flight is run to its end,
    which frees its token; the loop sends, starts the second cycle, takes
    the stop case, stops the ticker and exits; [Wait] returns. *)
Example Stop_blocked_run :
  let l := [ANewTicker; ATick; ASelectTick; ASend; AGo; ATick; ASelectTick; AStop] in
  let s := @after P1 l ping_init1 in
  let l' := [ACycle 0; ACycle 0; ACycle 0; ACycle 0; ASend; AGo; ASelectStop; ADone; AWait 0] in
  let s' := @after P1 l' s in
  (@possible P1 l ping_init1, @possible P1 [ASend] s, @possible P1 [ASelectStop] s,
   @possible P1 [AWait 0] s, @possible P1 l' s, @sc_callers P1 s', @running P1 s') =
  (true, false, false, false, true, [SReturned], 1%nat).
Proof. by vm_compute. Qed.

(** Two overlapping cycles of the MTR target: the second tick starts a
    cycle while the first is in flight; the cycle that was started first
    publishes last, so the current result holds the older trace, and the
    summary map holds the totals of both. *)
Example mtr_overlapping_cycles :
  let l := [ADelayElapsed; ANewTicker; ATick; ASelectTick; AGo; ATick; ASelectTick; AGo;
            ACycle 0; ACycle 1; ACycle 0; ACycle 1; ACycle 1; ACycle 0] in
  let s := @after M0 l mtr_init in
  (@possible M0 l mtr_init, @running M0 s, MTR.Compute (@sc_target M0 s),
   (λ r, (r.1, totals_at r.2 "3_10.0.0.1")) <$>
     MTR.read (@sc_store M0 s) (MTR.Compute (@sc_target M0 s))) =
  (true, 0%nat, Some 2%positive, Some ([hop2; hop3a], (2, 12 * Millisecond, 1))).
Proof. by vm_compute. Qed.
End scripted.
